(** * Vector elevation model: tile pipeline, checked against its specification

    A shallow embedding of the terrain pipeline of the vector-elevation-model
    repository ([src/lib/dem], [src/lib/tiles], [src/worker]) together with
    the properties its specification states about it and further properties
    read off the code.

    Numbers.  The TypeScript sources compute on IEEE doubles.  The embedding
    reads every [number] as the exact value it denotes:
    - a rational [Q], kept in lowest terms, wherever the code only adds,
      multiplies, divides, compares, floors or rounds (contours, codec,
      smoothing, clipping, level generation, tile sampling);
    - a real [R] where the code calls [Math.cos], [Math.sin], [Math.sqrt],
      [Math.atan] or [Math.atan2] (hillshade).
    Rounding error, infinities and NaN are therefore outside the model; a
    division by zero yields [0] as in [Qinv] and [Rinv].  The one place
    where the specification speaks of doubles, the resolution law, is also
    stated on binary64 values ([Hillshade64]). *)

From Stdlib Require Import ZArith QArith Qround Qabs Qminmax Qreduction.
From Stdlib Require Import String.
From Stdlib Require Import List Bool Lia Lqa.
From Stdlib Require Reals Lra Qpower.
From Stdlib Require Import Floats.
Import ListNotations.

(* ------------------------------------------------------------------ *)
(** ** Exact numbers *)
(* ------------------------------------------------------------------ *)

Module Num.

(** Arithmetic of [number], results kept in lowest terms so that equal
    values are equal terms. *)
Definition add (a b : Q) : Q := Qred (a + b).
Definition sub (a b : Q) : Q := Qred (a - b).
Definition mul (a b : Q) : Q := Qred (a * b).
Definition div (a b : Q) : Q := Qred (a / b).
Definition neg (a : Q) : Q := Qred (- a).

(** [a < b], [a <= b], [a >= b], [a > b], [a === b] on numbers. *)
Definition ltb (a b : Q) : bool := negb (Qle_bool b a).
Definition leb (a b : Q) : bool := Qle_bool a b.
Definition geb (a b : Q) : bool := Qle_bool b a.
Definition gtb (a b : Q) : bool := negb (Qle_bool a b).
Definition eqb (a b : Q) : bool := Qeq_bool a b.

(** [Math.abs], [Math.max], [Math.min]. *)
Definition abs (a : Q) : Q := Qred (Qabs a).
Definition max (a b : Q) : Q := if ltb a b then b else a.
Definition min (a b : Q) : Q := if ltb b a then b else a.

(** [Math.floor] and [Math.round] (halves round towards +infinity). *)
Definition floor (a : Q) : Z := Qfloor a.
Definition round (a : Q) : Z := Qfloor (a + (1 # 2)).

(** [Math.trunc], and the remainder [a % b] of two numbers, which takes
    the sign of the dividend. *)
Definition trunc (a : Q) : Z := Z.quot (Qnum a) (Zpos (Qden a)).
Definition rem (a b : Q) : Q := Qred (a - b * inject_Z (trunc (a / b))).

(** An integer read as a number. *)
Definition ofZ (z : Z) : Q := inject_Z z.

(** [ToInt32], applied by [>>] and [&] to an integral number. *)
Definition toInt32 (v : Z) : Z := ((v + 2 ^ 31) mod 2 ^ 32 - 2 ^ 31)%Z.

End Num.

(** Infix forms, marked with [!] so that they are never confused with the
    operations of [Q] itself. *)
Infix "+!" := Num.add (at level 50, left associativity).
Infix "-!" := Num.sub (at level 50, left associativity).
Infix "*!" := Num.mul (at level 40, left associativity).
Infix "/!" := Num.div (at level 40, left associativity).
Infix "<!" := Num.ltb (at level 70, no associativity).
Infix "<=!" := Num.leb (at level 70, no associativity).
Infix ">=!" := Num.geb (at level 70, no associativity).
Infix ">!" := Num.gtb (at level 70, no associativity).

(** A coordinate pair, [Coordinate = [number, number]]. *)
Definition Coordinate : Type := (Q * Q)%type.

(* ------------------------------------------------------------------ *)
(** ** GeoJSON features *)
(* ------------------------------------------------------------------ *)

Module GeoJSON.

(** A property value: a tagged scalar. *)
Inductive PropValue : Type :=
| PNumber (v : Q)
| PBool (b : bool)
| PString (s : string).

(** A properties object, keys in insertion order. *)
Definition Properties : Type := list (string * PropValue).

Inductive Geometry : Type :=
| LineString (coordinates : list Coordinate)
| Polygon (coordinates : list (list Coordinate)).

(** [properties] is [None] for the JSON [null]. *)
Record Feature : Type := mkFeature {
  geometry : Geometry;
  properties : option Properties
}.

(** The constructors of [@turf/helpers]. *)
Definition lineString (coords : list Coordinate) (props : Properties)
  : Feature :=
  mkFeature (LineString coords) (Some props).

Definition polygon (rings : list (list Coordinate)) (props : Properties)
  : Feature :=
  mkFeature (Polygon rings) (Some props).

(** The object [{ level }]. *)
Definition levelProps (level : Q) : Properties :=
  [("level"%string, PNumber level)].

(** The rings of a polygon feature; a line has none. *)
Definition ringsOf (f : Feature) : list (list Coordinate) :=
  match geometry f with
  | Polygon rings => rings
  | LineString _ => []
  end.

(** A ring whose first and last position are the same pair of numbers. *)
Definition closedExactly (ring : list Coordinate) : Prop :=
  exists first : Coordinate,
    hd_error ring = Some first /\
    fst (last ring first) == fst first /\ snd (last ring first) == snd first.

End GeoJSON.

(* ------------------------------------------------------------------ *)
(** ** [src/lib/tiles/types.ts] : level generation *)
(* ------------------------------------------------------------------ *)

Module Levels.

(** The [for (level = min; level < max; level += interval)] loop of
    [generateLevels]; [levels] is the array being pushed to.  One unit of
    fuel pays for one evaluation of the loop test; [None] means the loop
    was still running when the fuel ran out. *)
Fixpoint generateLevels_loop (fuel : nat) (level max interval : Q)
         (levels : list Q) : option (list Q) :=
  match fuel with
  | O => None
  | S fuel' =>
      if level <! max
      then generateLevels_loop fuel' (level +! interval) max interval
                               (levels ++ [level])
      else Some levels
  end.

Definition generateLevels (fuel : nat) (min max interval : Q)
  : option (list Q) :=
  generateLevels_loop fuel min max interval [].

(** Value of the loop variable after [k] additions of [interval]. *)
Definition levelAt (min interval : Q) (k : nat) : Q :=
  min + inject_Z (Z.of_nat k) * interval.

End Levels.

(* ------------------------------------------------------------------ *)
(** ** [src/lib/dem/elevation.ts] : terrain-RGB codec *)
(* ------------------------------------------------------------------ *)

Module Elevation.

Definition MAPBOX_OFFSET : Q := 10000.
Definition TERRARIUM_OFFSET : Q := 32768.

(** An RGB triple as the codec functions pass it around. *)
Definition RGB : Type := (Q * Q * Q)%type.

Definition decodeMapbox (r g b : Q) : Q :=
  (r *! 256 *! 256 +! g *! 256 +! b) /! 10 -! MAPBOX_OFFSET.

Definition encodeMapbox (elevation : Q) : RGB :=
  let value := Num.toInt32 (Num.round ((elevation +! MAPBOX_OFFSET) *! 10)) in
  (Num.ofZ (Z.land (Z.shiftr value 16) 255),
   Num.ofZ (Z.land (Z.shiftr value 8) 255),
   Num.ofZ (Z.land value 255)).

Definition decodeTerrarium (r g b : Q) : Q :=
  r *! 256 +! g +! b /! 256 -! TERRARIUM_OFFSET.

Definition encodeTerrarium (elevation : Q) : RGB :=
  let adjusted := elevation +! TERRARIUM_OFFSET in
  let r := Num.ofZ (Num.floor (adjusted /! 256)) in
  let g := Num.ofZ (Num.floor (Num.rem adjusted 256)) in
  let b := Num.ofZ (Num.floor ((adjusted -! r *! 256 -! g) *! 256)) in
  (r, g, b).



End Elevation.

(* ------------------------------------------------------------------ *)
(** ** [src/lib/dem/grid.ts] : row-major grids *)
(* ------------------------------------------------------------------ *)

(** Indices [0, 1, ..., n - 1] of a counting [for] loop. *)
Definition zrange (n : Z) : list Z :=
  map Z.of_nat (seq 0 (Z.to_nat n)).

Module GridModel.

Section WithValues.

(** The element type stands for [number]: [Q] for the tracer, [R] for
    the hillshade kernel.  [undef] is what a read outside the array
    yields; no read of a grid built by [createGrid] is outside. *)
Context {A : Type} (undef : A).

Record Grid : Type := mkGrid {
  data : list A;
  width : Z;
  height : Z
}.

(** [createGrid] throws on empty data, non-positive dimensions or a
    length mismatch; [None] stands for the thrown error. *)
Definition createGrid (d : list A) (w h : Z) : option Grid :=
  if (length d =? 0)%nat then None
  else if ((w <=? 0) || (h <=? 0))%Z then None
  else if negb (Z.of_nat (length d) =? w * h)%Z then None
  else Some (mkGrid d w h).

Definition gridGetAt (grid : Grid) (index : Z) : A :=
  if (index <? 0)%Z then undef
  else nth (Z.to_nat index) (data grid) undef.

Definition gridGet (grid : Grid) (x y : Z) : A :=
  let clampedX := Z.max 0 (Z.min (width grid - 1) x) in
  let clampedY := Z.max 0 (Z.min (height grid - 1) y) in
  gridGetAt grid (clampedY * width grid + clampedX).

End WithValues.

Arguments Grid : clear implicits.

End GridModel.

(* ------------------------------------------------------------------ *)
(** ** [src/lib/dem/hillshade.ts] : Lambertian hillshade *)
(* ------------------------------------------------------------------ *)

Module Hillshade.
Import Reals.
Import GridModel.
Local Open Scope R_scope.

Definition EARTH_RADIUS : R := 6378137.

(** [getResolution(zoom, tileSize)]. *)
Definition getResolution (zoom : nat) (tileSize : R) : R :=
  (2 * PI * EARTH_RADIUS) / (tileSize * 2 ^ zoom).

Definition FLAT_THRESHOLD_SQ : R := / 10 ^ 10.

(** [validateSunPosition] throws outside [0, 90] x [0, 360]; [true] means
    it returns normally. *)
Definition validateSunPosition (altitude azimuth : R) : bool :=
  if Rlt_dec altitude 0 then false
  else if Rlt_dec 90 altitude then false
  else if Rlt_dec azimuth 0 then false
  else if Rlt_dec 360 azimuth then false
  else true.

Definition azimuthRad (azimuth : R) : R := ((360 - azimuth + 90) * PI) / 180.
Definition zenithRad (altitude : R) : R := ((90 - altitude) * PI) / 180.

Section Kernel.

Variable grid : Grid R.
Variables x y : Z.

(** The eight neighbours sampled with clamping. *)
Let a := gridGet 0 grid (x - 1) (y - 1).
Let b := gridGet 0 grid x (y - 1).
Let c := gridGet 0 grid (x + 1) (y - 1).
Let d := gridGet 0 grid (x - 1) y.
Let f := gridGet 0 grid (x + 1) y.
Let g := gridGet 0 grid (x - 1) (y + 1).
Let h := gridGet 0 grid x (y + 1).
Let i := gridGet 0 grid (x + 1) (y + 1).

(** Numerators of the two Sobel gradients. *)
Definition sobelX : R := c + 2 * f + i - (a + 2 * d + g).
Definition sobelY : R := g + 2 * h + i - (a + 2 * b + c).

(** The kernel in use: dot product of the sun vector with the surface
    normal, with a fast path for flat terrain. *)
Definition computePixelHillshadeFast
           (gradientScale sunX sunY sunZ flatIllumination : R) : R :=
  let dzdx := sobelX * gradientScale in
  let dzdy := sobelY * gradientScale in
  let gradMagSq := dzdx * dzdx + dzdy * dzdy in
  if Rlt_dec gradMagSq FLAT_THRESHOLD_SQ then flatIllumination
  else
    let normalMag := sqrt (gradMagSq + 1) in
    let dotProduct := (- sunX * dzdx - sunY * dzdy + sunZ) / normalMag in
    let illumination := 255 * dotProduct in
    if Rlt_dec illumination 0 then 0
    else if Rlt_dec 255 illumination then 255
    else illumination.

End Kernel.

(** [Math.atan2(y, x)].  The sign of a zero is not part of the model:
    [atan2 0 0] is read as [0]. *)
Definition atan2 (y x : R) : R :=
  if Rlt_dec 0 x then atan (y / x)
  else if Rlt_dec x 0 then
    if Rle_dec 0 y then atan (y / x) + PI else atan (y / x) - PI
  else if Rlt_dec 0 y then PI / 2
  else if Rlt_dec y 0 then - (PI / 2)
  else 0.

(** The slope/aspect kernel, the second implementation in the source. *)
Definition computePixelHillshade (grid : Grid R) (x y : Z)
           (cellSize azimuthRad cosZenith sinZenith : R) : R :=
  let dzdx := sobelX grid x y / (8 * cellSize) in
  let dzdy := sobelY grid x y / (8 * cellSize) in
  let slopeRad := atan (sqrt (dzdx * dzdx + dzdy * dzdy)) in
  let aspectRad0 := atan2 dzdy (- dzdx) in
  let aspectRad :=
    if Rlt_dec aspectRad0 0 then aspectRad0 + 2 * PI else aspectRad0 in
  let illumination :=
    cosZenith * cos slopeRad
    + sinZenith * sin slopeRad * cos (azimuthRad - aspectRad) in
  Rmax 0 (Rmin 255 (255 * illumination)).

(** The two nested [for] loops writing [result[y * width + x]]. *)
Definition renderGrid (w h : Z) (pixel : Z -> Z -> R) : Grid R :=
  mkGrid (flat_map (fun y => map (fun x => pixel x y) (zrange w)) (zrange h))
         w h.

(** [hillshade(data, width, height, cellSize, { altitude, azimuth })];
    [None] stands for a thrown validation error. *)
Definition hillshade (data : list R) (width height : Z) (cellSize : R)
           (altitude azimuth : R) : option (Grid R) :=
  match createGrid data width height with
  | None => None
  | Some grid =>
      if validateSunPosition altitude azimuth then
        let cosZenith := cos (zenithRad altitude) in
        let sinZenith := sin (zenithRad altitude) in
        let sunX := sinZenith * cos (azimuthRad azimuth) in
        let sunY := sinZenith * sin (azimuthRad azimuth) in
        let sunZ := cosZenith in
        let gradientScale := 1 / (8 * cellSize) in
        let flatIllumination := 255 * cosZenith in
        Some (renderGrid width height (fun x y =>
                computePixelHillshadeFast grid x y gradientScale
                                          sunX sunY sunZ flatIllumination))
      else None
  end.

(** The same entry point over the slope/aspect kernel. *)
Definition hillshadeSlopeAspect (data : list R) (width height : Z)
           (cellSize : R) (altitude azimuth : R) : option (Grid R) :=
  match createGrid data width height with
  | None => None
  | Some grid =>
      if validateSunPosition altitude azimuth then
        let cosZenith := cos (zenithRad altitude) in
        let sinZenith := sin (zenithRad altitude) in
        Some (renderGrid width height (fun x y =>
                computePixelHillshade grid x y cellSize
                                      (azimuthRad azimuth)
                                      cosZenith sinZenith))
      else None
  end.

(** [Math.round] on a real: halves go up. *)
Definition round (v : R) : R := IZR (Int_part (v + / 2)).

(** The value a rendered grid holds for pixel [(x, y)], stored at
    [y * width + x]. *)
Definition pixelAt (g : Grid R) (x y : Z) : R :=
  gridGetAt 0 g (y * width g + x).

(** Dimensions [createGrid] accepts for an array. *)
Definition validDims (data : list R) (width height : Z) : Prop :=
  (0 < width)%Z /\ (0 < height)%Z /\
  Z.of_nat (length data) = (width * height)%Z.

End Hillshade.

(** [getResolution] on binary64 values.  [Math.PI] is the double nearest to
    pi, and [Math.pow(2, zoom)] at an integral [zoom] is the exact power of
    two. *)
Module Hillshade64.

Definition MATH_PI : float := 0x1.921fb54442d18p+1%float.
Definition EARTH_RADIUS : float := 6378137%float.
Definition pow2 (zoom : nat) : float := Z.ldexp 1 (Z.of_nat zoom).

Definition getResolution (zoom : nat) (tileSize : float) : float :=
  ((2 * MATH_PI * EARTH_RADIUS) / (tileSize * pow2 zoom))%float.

End Hillshade64.

(* ------------------------------------------------------------------ *)
(** ** [src/lib/dem/smooth.ts] : Chaikin corner cutting *)
(* ------------------------------------------------------------------ *)

Module Smooth.

(** [Position]; the smoother reads the first two entries only. *)
Abbreviation Position := Coordinate (only parsing).

(** What indexing past the end of a coordinate array stands for. *)
Definition noPosition : Position := (0, 0).

Record SmoothOptions : Type := mkSmoothOptions {
  iterations : option Z;
  factor : option Q
}.

Definition DEFAULT_ITERATIONS : Z := 2.
Definition DEFAULT_FACTOR : Q := 1 # 4.

Definition isClosedRing (coords : list Position) : bool :=
  if (length coords <? 4)%nat then false
  else
    let first := nth 0 coords noPosition in
    let last := nth (length coords - 1) coords noPosition in
    (Num.abs (fst first -! fst last) <! (1 # 10000000000))
    && (Num.abs (snd first -! snd last) <! (1 # 10000000000)).

(** One pass of corner cutting; the successor of the last vertex is the
    first one. *)
Definition subdivideCoords (coords : list Position) (factor : Q)
  : list Position :=
  let n := length coords in
  let f1 := 1 -! factor in
  let f2 := factor in
  flat_map
    (fun i =>
       let c1 := nth i coords noPosition in
       let c2 := nth ((i + 1) mod n) coords noPosition in
       [ (f1 *! fst c1 +! f2 *! fst c2, f1 *! snd c1 +! f2 *! snd c2);
         (f2 *! fst c1 +! f1 *! fst c2, f2 *! snd c1 +! f1 *! snd c2) ])
    (seq 0 n).

(** The [for (i = 0; i < iterations; i++)] loop around [subdivideCoords]. *)
Definition subdivideTimes (iterations : Z) (coords : list Position)
           (factor : Q) : list Position :=
  Nat.iter (Z.to_nat iterations) (fun current => subdivideCoords current factor)
           coords.

Definition computeTrimLength (iterations : Z) : Z :=
  (iterations * (iterations + 1) * (2 * iterations + 1) / 6)%Z.

Definition smoothClosedRing (coords : list Position) (iterations : Z)
           (factor : Q) : list Position :=
  let start := if isClosedRing coords then removelast coords else coords in
  let current := subdivideTimes iterations start factor in
  current ++ [nth 0 current noPosition].

Definition smoothOpenLine (coords : list Position) (iterations : Z)
           (factor : Q) : list Position :=
  if (iterations <=? 0)%Z || (length coords <? 2)%nat then coords
  else
    let current := subdivideTimes iterations coords factor in
    let trimLength := computeTrimLength iterations in
    let kept :=
      firstn (Z.to_nat (Z.of_nat (length current) - trimLength)) current in
    [nth 0 coords noPosition] ++ kept
      ++ [nth (length coords - 1) coords noPosition].

(** [smoothCoords(coords, { iterations, factor, closed })]; an absent
    option is [None]. *)
Definition smoothCoords (coords : list Position) (options : SmoothOptions)
           (closed : option bool) : list Position :=
  if (length coords <? 2)%nat then coords
  else
    let its := match iterations options with
               | Some i => i | None => DEFAULT_ITERATIONS end in
    let fac := match factor options with
               | Some f => f | None => DEFAULT_FACTOR end in
    let isClosed := match closed with Some c => c | None => false end in
    if isClosed || isClosedRing coords
    then smoothClosedRing coords its fac
    else smoothOpenLine coords its fac.

(** An open polyline: its ends do not coincide within the tolerance. *)
Definition endsApart (coords : list Position) : Prop :=
  let first := nth 0 coords noPosition in
  let last := nth (length coords - 1) coords noPosition in
  ~ (Qabs (fst first - fst last) < 1 # 10000000000 /\
     Qabs (snd first - snd last) < 1 # 10000000000).

End Smooth.

(* ------------------------------------------------------------------ *)
(** ** [src/lib/dem/contour.ts] : Marching Squares tracer *)
(* ------------------------------------------------------------------ *)

Module Contour.
Import GridModel GeoJSON.

Definition EPSILON : Q := 1 # 10000000000.

Definition noCoordinate : Coordinate := (0, 0).

Definition valueAt (grid : Grid Q) (index : Z) : Q := gridGetAt 0 grid index.

(** Interpolates the point where the contour crosses the edge from
    [(x1, y1)] to [(x2, y2)]. *)
Definition interpolate (grid : Grid Q) (level : Q) (x1 y1 x2 y2 : Z)
  : Coordinate :=
  let v1 := valueAt grid (y1 * width grid + x1) in
  let v2 := valueAt grid (y2 * width grid + x2) in
  let t0 := if Num.abs (v2 -! v1) <! EPSILON then 1 # 2
            else (level -! v1) /! (v2 -! v1) in
  let t := Num.max EPSILON (Num.min (1 -! EPSILON) t0) in
  (Num.ofZ x1 +! t *! (Num.ofZ x2 -! Num.ofZ x1),
   Num.ofZ y1 +! t *! (Num.ofZ y2 -! Num.ofZ y1)).

(** [if (flag) segments.push(seg)]. *)
Definition pushIf (flag : bool) (seg : list Coordinate)
  : list (list Coordinate) :=
  if flag then [seg] else [].

Definition processCellMarching (grid : Grid Q) (level : Q) (x y : Z)
           (forPolygons : bool) : list (list Coordinate) :=
  let atTop := forPolygons && (y =? height grid - 2)%Z in
  let atRight := forPolygons && (x =? width grid - 2)%Z in
  let atBottom := forPolygons && (y =? 0)%Z in
  let atLeft := forPolygons && (x =? 0)%Z in
  let tl : Coordinate := (Num.ofZ x, Num.ofZ (y + 1)) in
  let tr : Coordinate := (Num.ofZ (x + 1), Num.ofZ (y + 1)) in
  let br : Coordinate := (Num.ofZ (x + 1), Num.ofZ y) in
  let bl : Coordinate := (Num.ofZ x, Num.ofZ y) in
  let tm := interpolate grid level x (y + 1) (x + 1) (y + 1) in
  let rm := interpolate grid level (x + 1) y (x + 1) (y + 1) in
  let bm := interpolate grid level x y (x + 1) y in
  let lm := interpolate grid level x y x (y + 1) in
  let tlv := valueAt grid (y * width grid + x) in
  let trv := valueAt grid (y * width grid + (x + 1)) in
  let brv := valueAt grid ((y + 1) * width grid + (x + 1)) in
  let blv := valueAt grid ((y + 1) * width grid + x) in
  let caseIndex :=
    Z.lor (Z.lor (Z.lor (if tlv >=! level then 1 else 0)
                        (if trv >=! level then 2 else 0))
                 (if brv >=! level then 4 else 0))
          (if blv >=! level then 8 else 0) in
  match caseIndex with
  | 0%Z => []
  | 1%Z => [[lm; bm]] ++ pushIf atBottom [bm; bl] ++ pushIf atLeft [bl; lm]
  | 2%Z => [[bm; rm]] ++ pushIf atRight [rm; br] ++ pushIf atBottom [br; bm]
  | 3%Z => [[lm; rm]] ++ pushIf atRight [rm; br] ++ pushIf atBottom [br; bl]
             ++ pushIf atLeft [bl; lm]
  | 4%Z => [[rm; tm]] ++ pushIf atTop [tm; tr] ++ pushIf atRight [tr; rm]
  | 5%Z => [[lm; tm]] ++ pushIf atTop [tm; tr] ++ pushIf atRight [tr; rm]
             ++ [[rm; bm]] ++ pushIf atBottom [bm; bl]
             ++ pushIf atLeft [bl; lm]
  | 6%Z => [[bm; tm]] ++ pushIf atTop [tm; tr] ++ pushIf atRight [tr; br]
             ++ pushIf atBottom [br; bm]
  | 7%Z => [[lm; tm]] ++ pushIf atTop [tm; tr] ++ pushIf atRight [tr; br]
             ++ pushIf atBottom [br; bl] ++ pushIf atLeft [bl; lm]
  | 8%Z => [[tm; lm]] ++ pushIf atLeft [lm; tl] ++ pushIf atTop [tl; tm]
  | 9%Z => [[tm; bm]] ++ pushIf atBottom [bm; bl] ++ pushIf atLeft [bl; tl]
             ++ pushIf atTop [tl; tm]
  | 10%Z => [[bm; lm]] ++ pushIf atLeft [lm; tl] ++ pushIf atTop [tl; tm]
              ++ [[tm; rm]] ++ pushIf atRight [rm; br]
              ++ pushIf atBottom [br; bm]
  | 11%Z => [[tm; rm]] ++ pushIf atRight [rm; br] ++ pushIf atBottom [br; bl]
              ++ pushIf atLeft [bl; tl] ++ pushIf atTop [tl; tm]
  | 12%Z => [[rm; lm]] ++ pushIf atLeft [lm; tl] ++ pushIf atTop [tl; tr]
              ++ pushIf atRight [tr; rm]
  | 13%Z => [[rm; bm]] ++ pushIf atBottom [bm; bl] ++ pushIf atLeft [bl; tl]
              ++ pushIf atTop [tl; tr] ++ pushIf atRight [tr; rm]
  | 14%Z => [[bm; lm]] ++ pushIf atLeft [lm; tl] ++ pushIf atTop [tl; tr]
              ++ pushIf atRight [tr; br] ++ pushIf atBottom [br; bm]
  | 15%Z => pushIf atTop [tl; tr] ++ pushIf atRight [tr; br]
              ++ pushIf atBottom [br; bl] ++ pushIf atLeft [bl; tl]
  | _ => []
  end.

Definition collectSegments (grid : Grid Q) (level : Q) (forPolygons : bool)
  : list (list Coordinate) :=
  flat_map
    (fun y =>
       flat_map (fun x => processCellMarching grid level x y forPolygons)
                (zrange (width grid - 1)))
    (zrange (height grid - 1)).

(** The hash key of a coordinate: the two integers the template string
    [`${x},${y}`] prints. *)
Definition Key : Type := (Z * Z)%type.

Definition coordKey (coord : Coordinate) : Key :=
  (Num.round (fst coord *! 1000000), Num.round (snd coord *! 1000000)).

Definition keyEqb (a b : Key) : bool :=
  (fst a =? fst b)%Z && (snd a =? snd b)%Z.

Record Chain : Type := mkChain {
  coords : list Coordinate;
  startKey : Key;
  endKey : Key;
  merged : bool
}.

(** A [Map<string, Chain[]>]; a chain is referred to by its position in the
    [chains] array, which stands for its object identity. *)
Definition Index : Type := list (Key * list nat).

Fixpoint indexGet (index : Index) (key : Key) : option (list nat) :=
  match index with
  | [] => None
  | (k, l) :: rest => if keyEqb k key then Some l else indexGet rest key
  end.

Fixpoint indexSet (index : Index) (key : Key) (l : list nat) : Index :=
  match index with
  | [] => [(key, l)]
  | (k, l0) :: rest =>
      if keyEqb k key then (k, l) :: rest else (k, l0) :: indexSet rest key l
  end.

Definition addToIndex (index : Index) (key : Key) (chain : nat) : Index :=
  match indexGet index key with
  | Some l => indexSet index key (l ++ [chain])
  | None => indexSet index key [chain]
  end.

(** [list.splice(list.indexOf(chain), 1)]: the first occurrence goes. *)
Fixpoint removeFirst (chain : nat) (l : list nat) : list nat :=
  match l with
  | [] => []
  | c :: rest => if (c =? chain)%nat then rest else c :: removeFirst chain rest
  end.

Definition removeFromIndex (index : Index) (key : Key) (chain : nat) : Index :=
  match indexGet index key with
  | Some l => indexSet index key (removeFirst chain l)
  | None => index
  end.

(** The mutable state of [mergeSegments]. *)
Record MergeState : Type := mkMergeState {
  chains : list Chain;
  byStart : Index;
  byEnd : Index
}.

Definition noChain : Chain := mkChain [] (0%Z, 0%Z) (0%Z, 0%Z) true.

Definition getChain (st : MergeState) (i : nat) : Chain :=
  nth i (chains st) noChain.

Fixpoint setNth {A : Type} (i : nat) (v : A) (l : list A) : list A :=
  match l, i with
  | [], _ => []
  | _ :: rest, O => v :: rest
  | a :: rest, S i' => a :: setNth i' v rest
  end.

(** The first candidate that is neither the chain itself nor merged. *)
Definition findCandidate (st : MergeState) (chain : nat)
           (candidates : option (list nat)) : option nat :=
  find (fun other => negb ((other =? chain)%nat || merged (getChain st other)))
       (match candidates with Some l => l | None => [] end).

(** The bookkeeping shared by the four ways of merging [other] into
    [chain]: [other] leaves both indexes and is marked merged, [chain]
    gets its new coordinates and keys. *)
Definition absorb (st : MergeState) (chain other : nat) (atEnd : bool)
           (newCoords : list Coordinate) (newKey : Key) : MergeState :=
  let c := getChain st chain in
  let o := getChain st other in
  let byStart1 := removeFromIndex (byStart st) (startKey o) other in
  let byEnd1 := removeFromIndex (byEnd st) (endKey o) other in
  let c' := if atEnd
            then mkChain newCoords (startKey c) newKey (merged c)
            else mkChain newCoords newKey (endKey c) (merged c) in
  let o' := mkChain (coords o) (startKey o) (endKey o) true in
  let chains' := setNth other o' (setNth chain c' (chains st)) in
  if atEnd
  then mkMergeState chains' byStart1
         (addToIndex (removeFromIndex byEnd1 (endKey c) chain) newKey chain)
  else mkMergeState chains'
         (addToIndex (removeFromIndex byStart1 (startKey c) chain) newKey chain)
         byEnd1.

(** One turn of the [while (changed)] loop of [extendChain]; [None] when
    nothing could be merged. *)
Definition extendStep (st : MergeState) (chain : nat) : option MergeState :=
  let c := getChain st chain in
  match findCandidate st chain (indexGet (byStart st) (endKey c)) with
  | Some other =>
      let o := getChain st other in
      Some (absorb st chain other true
                   (coords c ++ tl (coords o)) (endKey o))
  | None =>
  match findCandidate st chain (indexGet (byEnd st) (endKey c)) with
  | Some other =>
      let o := getChain st other in
      Some (absorb st chain other true
                   (coords c ++ rev (removelast (coords o))) (startKey o))
  | None =>
  match findCandidate st chain (indexGet (byEnd st) (startKey c)) with
  | Some other =>
      let o := getChain st other in
      Some (absorb st chain other false
                   (removelast (coords o) ++ coords c) (startKey o))
  | None =>
  match findCandidate st chain (indexGet (byStart st) (startKey c)) with
  | Some other =>
      let o := getChain st other in
      Some (absorb st chain other false
                   (rev (tl (coords o)) ++ coords c) (endKey o))
  | None => None
  end end end end.

(** [extendChain]: every turn that changes something merges one more
    chain, so the number of chains bounds the number of turns. *)
Fixpoint extendChain (fuel : nat) (st : MergeState) (chain : nat)
  : MergeState :=
  match fuel with
  | O => st
  | S fuel' =>
      match extendStep st chain with
      | Some st' => extendChain fuel' st' chain
      | None => st
      end
  end.

(** The chains not yet merged into another one: the measure of the loop. *)
Definition unmergedCount (cs : list Chain) : nat :=
  length (filter (fun c => negb (merged c)) cs).

Definition initialChains (segments : list (list Coordinate)) : list Chain :=
  map (fun seg => mkChain seg
                          (coordKey (nth 0 seg noCoordinate))
                          (coordKey (nth (length seg - 1) seg noCoordinate))
                          false)
      segments.

Definition mergeSegments (segments : list (list Coordinate))
  : list (list Coordinate) :=
  match segments with
  | [] => []
  | _ =>
      let chains0 := initialChains segments in
      let ids := seq 0 (length chains0) in
      let st0 :=
        fold_left (fun st i =>
                     let c := nth i chains0 noChain in
                     mkMergeState (chains st)
                                  (addToIndex (byStart st) (startKey c) i)
                                  (addToIndex (byEnd st) (endKey c) i))
                  ids (mkMergeState chains0 [] []) in
      let st1 :=
        fold_left (fun st i =>
                     if merged (getChain st i) then st
                     else extendChain (length (chains st)) st i)
                  ids st0 in
      map coords (filter (fun c => negb (merged c)) (chains st1))
  end.

Definition traceLines (data : list Q) (width height : Z) (levels : list Q)
  : option (list Feature) :=
  match createGrid data width height with
  | None => None
  | Some grid =>
      Some (flat_map
              (fun level =>
                 let segments := collectSegments grid level false in
                 let lines := mergeSegments segments in
                 map (fun coords => lineString coords (levelProps level)) lines)
              levels)
  end.

Definition coordsEqual (a b : Coordinate) : bool :=
  (Num.abs (fst a -! fst b) <! EPSILON)
  && (Num.abs (snd a -! snd b) <! EPSILON).

(** The index pairs [(i, j)] of [for (i = 0, j = n - 1; i < n; j = i++)]. *)
Definition edgeIndices (n : nat) : list (nat * nat) :=
  map (fun i => (i, if (i =? 0)%nat then (n - 1)%nat else (i - 1)%nat))
      (seq 0 n).

(** Signed area by the shoelace formula. *)
Definition ringArea (ring : list Coordinate) : Q :=
  let area :=
    fold_left
      (fun area ij =>
         let pi := nth (fst ij) ring noCoordinate in
         let pj := nth (snd ij) ring noCoordinate in
         area +! (fst pj -! fst pi) *! (snd pj +! snd pi))
      (edgeIndices (length ring)) 0 in
  area /! 2.

(** Ray casting: parity of the crossings of a horizontal ray. *)
Definition pointInRing (point : Coordinate) (ring : list Coordinate) : bool :=
  let px := fst point in
  let py := snd point in
  fold_left
    (fun inside ij =>
       let pi := nth (fst ij) ring noCoordinate in
       let pj := nth (snd ij) ring noCoordinate in
       let xi := fst pi in let yi := snd pi in
       let xj := fst pj in let yj := snd pj in
       if negb (Bool.eqb (yi >! py) (yj >! py)) then
         let xIntersect := ((xj -! xi) *! (py -! yi)) /! (yj -! yi) +! xi in
         if px <! xIntersect then negb inside else inside
       else inside)
    (edgeIndices (length ring)) false.

Definition isInsidePolygon (point : Coordinate) (shell : list Coordinate)
           (existingHoles : list (list Coordinate)) : bool :=
  if negb (pointInRing point shell) then false
  else negb (existsb (pointInRing point) existingHoles).

Definition closeRing (coords : list Coordinate) : list Coordinate :=
  if negb (coordsEqual (nth 0 coords noCoordinate)
                       (nth (length coords - 1) coords noCoordinate))
  then coords ++ [nth 0 coords noCoordinate]
  else coords.

(** An entry of the [polys] array. *)
Record Poly : Type := mkPoly { ring : list Coordinate; area : Q }.

Definition noPoly : Poly := mkPoly [] 0.

(** The first loop of [buildPolygonsWithHoles]: close, drop degenerate
    rings, overwrite the last position with the first. *)
Definition collectPolys (lines : list (list Coordinate)) : list Poly :=
  flat_map
    (fun line =>
       let ring0 := closeRing line in
       if (length ring0 <? 4)%nat then []
       else
         let ring1 := setNth (length ring0 - 1) (nth 0 ring0 noCoordinate)
                             ring0 in
         [mkPoly ring1 (Num.abs (ringArea ring1))])
    lines.

(** [polys.sort((a, b) => b.area - a.area)]: a stable sort, largest area
    first. *)
Fixpoint insertByArea (p : Poly) (sorted : list Poly) : list Poly :=
  match sorted with
  | [] => [p]
  | q :: rest =>
      if area p <! area q then q :: insertByArea p rest else p :: q :: rest
  end.

Definition sortByArea (polys : list Poly) : list Poly :=
  fold_right insertByArea [] polys.

(** The inner loop over [j = i + 1 ..]: collects the holes of shell [i]
    and marks them used. *)
Definition collectHoles (polys : list Poly) (i : nat) (used : list nat)
  : list (list Coordinate) * list nat :=
  let shell := nth i polys noPoly in
  fold_left
    (fun (acc : list (list Coordinate) * list nat) j =>
       let '(holes, used) := acc in
       if existsb (Nat.eqb j) used then acc
       else
         let candidate := nth j polys noPoly in
         if isInsidePolygon (nth 0 (ring candidate) noCoordinate)
                            (ring shell) holes
         then (holes ++ [ring candidate], j :: used)
         else acc)
    (seq (S i) (length polys - S i)) ([], used).

(** The outer loop over the shells. *)
Definition assignHoles (polys : list Poly) (level : Q) : list Feature :=
  fst (fold_left
         (fun (acc : list Feature * list nat) i =>
            let '(result, used) := acc in
            if existsb (Nat.eqb i) used then acc
            else
              let '(holes, used') := collectHoles polys i used in
              (result ++ [polygon (ring (nth i polys noPoly) :: holes)
                                  (levelProps level)],
               i :: used'))
         (seq 0 (length polys)) ([], [])).

Definition buildPolygonsWithHoles (lines : list (list Coordinate))
           (level : Q) : list Feature :=
  assignHoles (sortByArea (collectPolys lines)) level.

(** A ring as the polygon builder stores it: at least four positions, the
    last one being the first one. *)
Definition storedRing (r : list Coordinate) : Prop :=
  (4 <= length r)%nat /\
  exists first, hd_error r = Some first /\ last r first = first.

Definition tracePolygons (data : list Q) (width height : Z) (levels : list Q)
  : option (list Feature) :=
  match createGrid data width height with
  | None => None
  | Some grid =>
      Some (flat_map
              (fun level =>
                 let segments := collectSegments grid level true in
                 let lines := mergeSegments segments in
                 buildPolygonsWithHoles lines level)
              levels)
  end.

End Contour.

(** The case table of Appendix A, in the words of the specification. *)
Module AppendixA.

(** The case index: bits TL=1, TR=2, BR=4, BL=8, set where the corner value
    is [>= level]. *)
Definition caseIndex (tl tr br bl level : Q) : Z :=
  ((if Qle_bool level tl then 1 else 0)
   + (if Qle_bool level tr then 2 else 0)
   + (if Qle_bool level br then 4 else 0)
   + (if Qle_bool level bl then 8 else 0))%Z.

(** The interior segments of each case, between the edge midpoints. *)
Definition segments (case : Z) (lm tm rm bm : Coordinate)
  : list (list Coordinate) :=
  match case with
  | 1%Z => [[lm; bm]]
  | 2%Z => [[bm; rm]]
  | 3%Z => [[lm; rm]]
  | 4%Z => [[rm; tm]]
  | 5%Z => [[lm; tm]; [rm; bm]]
  | 6%Z => [[bm; tm]]
  | 7%Z => [[lm; tm]]
  | 8%Z => [[tm; lm]]
  | 9%Z => [[tm; bm]]
  | 10%Z => [[bm; lm]; [tm; rm]]
  | 11%Z => [[tm; rm]]
  | 12%Z => [[rm; lm]]
  | 13%Z => [[rm; bm]]
  | 14%Z => [[bm; lm]]
  | _ => []
  end.

(** The midpoints of the four edges of the unit cell. *)
Definition lm : Coordinate := (0, 1 # 2).
Definition tm : Coordinate := (1 # 2, 1).
Definition rm : Coordinate := (1, 1 # 2).
Definition bm : Coordinate := (1 # 2, 0).

(** Two segments that share no end point. *)
Definition disjointSegments (s1 s2 : list Coordinate) : Prop :=
  forall p q, In p s1 -> In q s2 -> ~ (fst p == fst q /\ snd p == snd q).

End AppendixA.

(* ------------------------------------------------------------------ *)
(** ** [src/lib/tiles/coordinate-transform.ts] : transform and clip *)
(* ------------------------------------------------------------------ *)

Module Transform.
Import GeoJSON.

Definition MVT_EXTENT : Q := 4096.
Definition TILE_SIZE : Q := 256.

Abbreviation Position := Coordinate (only parsing).
Definition noPosition : Position := (0, 0).

Record TransformConfig : Type := mkTransformConfig {
  bufferPx : Q;
  tileSizePx : option Q;
  mvtExtent : option Q
}.

Definition extentOf (config : TransformConfig) : Q :=
  match mvtExtent config with Some e => e | None => MVT_EXTENT end.

Definition createTransform (config : TransformConfig) (coord : Position)
  : Position :=
  let tileSize := match tileSizePx config with
                  | Some t => t | None => TILE_SIZE end in
  let scale := extentOf config /! tileSize in
  ((fst coord -! bufferPx config) *! scale,
   (snd coord -! bufferPx config) *! scale).

Inductive Edge : Type := left | right | top | bottom.

Definition isInsideEdge (p : Position) (edge : Edge) (edgeValue : Q) : bool :=
  match edge with
  | left => fst p >=! edgeValue
  | right => fst p <=! edgeValue
  | top => snd p >=! edgeValue
  | bottom => snd p <=! edgeValue
  end.

Definition computeEdgeIntersection (p1 p2 : Position) (edge : Edge)
           (edgeValue : Q) : Position :=
  let x1 := fst p1 in let y1 := snd p1 in
  let x2 := fst p2 in let y2 := snd p2 in
  let dx := x2 -! x1 in
  let dy := y2 -! y1 in
  match edge with
  | left | right =>
      let t := (edgeValue -! x1) /! dx in (edgeValue, y1 +! t *! dy)
  | top | bottom =>
      let t := (edgeValue -! y1) /! dy in (x1 +! t *! dx, edgeValue)
  end.

(** One pass of Sutherland-Hodgman; [output] is the array pushed to. *)
Definition clipPolygonAgainstEdge (ring : list Position) (edge : Edge)
           (edgeValue : Q) : list Position :=
  let n := length ring in
  fold_left
    (fun output i =>
       let current := nth i ring noPosition in
       let previous := nth ((i + n - 1) mod n) ring noPosition in
       let currentInside := isInsideEdge current edge edgeValue in
       let previousInside := isInsideEdge previous edge edgeValue in
       if currentInside then
         (if negb previousInside
          then output ++ [computeEdgeIntersection previous current
                                                  edge edgeValue]
          else output) ++ [current]
       else if previousInside then
         output ++ [computeEdgeIntersection previous current edge edgeValue]
       else output)
    (seq 0 n) [].

Definition clipPolygonRingToBox (ring : list Position)
           (minX minY maxX maxY : Q) : list Position :=
  let result := clipPolygonAgainstEdge ring left minX in
  let result := clipPolygonAgainstEdge result right maxX in
  let result := clipPolygonAgainstEdge result top minY in
  let result := clipPolygonAgainstEdge result bottom maxY in
  result.

(** The body of the loop over the rings of one feature: clip, keep the
    ring if it has four positions, after closing it. *)
Definition clipRingInto (config : TransformConfig)
           (transformedRings : list (list Position)) (ring : list Position)
  : list (list Position) :=
  let transformedRing := map (createTransform config) ring in
  let clippedRing :=
    clipPolygonRingToBox transformedRing 0 0 (extentOf config)
                         (extentOf config) in
  if (4 <=? length clippedRing)%nat then
    let first := nth 0 clippedRing noPosition in
    let last := nth (length clippedRing - 1) clippedRing noPosition in
    let closed :=
      if negb (Num.eqb (fst first) (fst last))
         || negb (Num.eqb (snd first) (snd last))
      then clippedRing ++ [first]
      else clippedRing in
    transformedRings ++ [closed]
  else transformedRings.

(** [feature.properties ?? {}]. *)
Definition propertiesOrEmpty (f : Feature) : Properties :=
  match properties f with Some p => p | None => [] end.

(** The input is typed [Feature<Polygon>[]]. *)
Definition transformAndClipPolygonFeatures (features : list Feature)
           (config : TransformConfig) : list Feature :=
  fold_left
    (fun result feature =>
       let transformedRings :=
         fold_left (clipRingInto config) (ringsOf feature) [] in
       if (0 <? length transformedRings)%nat
       then result ++ [polygon transformedRings (propertiesOrEmpty feature)]
       else result)
    features [].

End Transform.

(** What clipping does to polygons, said once more without loops. *)
Module ClipSpec.
Import GeoJSON Transform.

(** A ring moved to tile coordinates and cut to the tile. *)
Definition clipped (config : TransformConfig) (ring : list Position)
  : list Position :=
  clipPolygonRingToBox (map (createTransform config) ring)
                       0 0 (extentOf config) (extentOf config).

(** The first position appended when the last one differs from it. *)
Definition reclosed (ring : list Position) : list Position :=
  let first := nth 0 ring noPosition in
  let last := nth (length ring - 1) ring noPosition in
  if Qeq_bool (fst first) (fst last) && Qeq_bool (snd first) (snd last)
  then ring else ring ++ [first].

(** The rings of a feature that survive: those whose clipped form has at
    least four positions, reclosed, in their original order. *)
Definition survivingRings (config : TransformConfig) (f : Feature)
  : list (list Position) :=
  map reclosed
      (filter (fun ring => (4 <=? length ring)%nat)
              (map (clipped config) (ringsOf f))).

(** One polygon per feature with a surviving ring, none otherwise. *)
Definition emitted (config : TransformConfig) (f : Feature) : list Feature :=
  match survivingRings config f with
  | [] => []
  | rings => [mkFeature (Polygon rings) (Some (propertiesOrEmpty f))]
  end.


End ClipSpec.

(* ------------------------------------------------------------------ *)
(** ** [src/lib/tiles/fetcher.ts] : tile fetcher and stitcher *)
(* ------------------------------------------------------------------ *)

Module Fetcher.

Definition TILE_SIZE : Z := 256.
Definition SOURCE_TILE_SIZE : Z := 512.

Definition terrariumToElevation (r g b : Q) : Q :=
  r *! 256 +! g +! b /! 256 -! 32768.

Record TileCoord : Type := mkTileCoord { z : Z; x : Z; y : Z }.

Record BufferedGrid : Type := mkBufferedGrid {
  grid : list Q;
  width : Z;
  height : Z;
  bufferPx : Z
}.

(** RGBA pixel data from a decoded tile; a read past the end of [data]
    stores as 0 in a [Uint8Array]. *)
Record TilePixels : Type := mkTilePixels {
  data : list Z;
  pwidth : Z;
  pheight : Z
}.

(** What the two external calls can do with the URL of a tile: [fetch]
    rejects; it resolves with a response that is not [ok]; it resolves with
    a body the image decoder throws on; or the body decodes. *)
Inductive FetchOutcome : Type :=
| FetchRejects
| NotOk
| DecoderThrows
| Decodes (pixels : TilePixels).

(** The network and the decoder, as seen from the fetcher: an outcome for
    every tile address substituted into the URL template. *)
Definition Upstream : Type := Z -> Z -> Z -> FetchOutcome.

Inductive Error : Type :=
| FailedToFetchTile
| FailedToFetchCenterTile
| NetworkError
| DecodeError.

(** A computation that returns or throws. *)
Inductive Result (A : Type) : Type :=
| Returns (a : A)
| Throws (e : Error).
Arguments Returns {A} a.
Arguments Throws {A} e.

Definition bind {A B : Type} (m : Result A) (k : A -> Result B) : Result B :=
  match m with
  | Returns a => k a
  | Throws e => Throws e
  end.

Notation "x <- m ;; k" := (bind m (fun x => k))
  (at level 61, m at next level, right associativity).

(** [await Promise.all([...])]: every promise must fulfil.  When several
    reject, the one reported here is the first in array order. *)
Fixpoint promiseAll {A : Type} (ps : list (Result A)) : Result (list A) :=
  match ps with
  | [] => Returns []
  | p :: rest => a <- p ;; l <- promiseAll rest ;; Returns (a :: l)
  end.

Section WithUpstream.

Variable upstream : Upstream.
Variable sourceTileSize : Z.

(** [null] is [None]. *)
Definition fetchTilePixels (z x y : Z) : Result (option TilePixels) :=
  let maxTile := Qpower 2 z in
  if (Num.ofZ x <! 0) || (Num.ofZ x >=! maxTile)
     || (Num.ofZ y <! 0) || (Num.ofZ y >=! maxTile)
  then Returns None
  else
    match upstream z x y with
    | FetchRejects => Throws NetworkError
    | NotOk => Returns None
    | DecoderThrows => Throws DecodeError
    | Decodes pixels => Returns (Some pixels)
    end.

Record Neighborhood : Type := mkNeighborhood {
  center : option TilePixels;
  left : option TilePixels;
  right : option TilePixels;
  top : option TilePixels;
  bottom : option TilePixels;
  topLeft : option TilePixels;
  topRight : option TilePixels;
  bottomLeft : option TilePixels;
  bottomRight : option TilePixels
}.

Definition fetch3x3Neighborhood (z x y : Z) : Result Neighborhood :=
  center <- fetchTilePixels z x y ;;
  cardinal <- promiseAll [fetchTilePixels z (x - 1) y;
                          fetchTilePixels z (x + 1) y;
                          fetchTilePixels z x (y - 1);
                          fetchTilePixels z x (y + 1)] ;;
  corners <- promiseAll [fetchTilePixels z (x - 1) (y - 1);
                         fetchTilePixels z (x + 1) (y - 1);
                         fetchTilePixels z (x - 1) (y + 1);
                         fetchTilePixels z (x + 1) (y + 1)] ;;
  Returns (mkNeighborhood center
             (nth 0 cardinal None) (nth 1 cardinal None)
             (nth 2 cardinal None) (nth 3 cardinal None)
             (nth 0 corners None) (nth 1 corners None)
             (nth 2 corners None) (nth 3 corners None)).

(** A [Uint8Array]: the byte at each index, and its length; a write outside
    the array is ignored. *)
Record Canvas : Type := mkCanvas { byteAt : Z -> Z; canvasLength : Z }.

Definition newCanvas (length : Z) : Canvas := mkCanvas (fun _ => 0%Z) length.

Definition writeByte (canvas : Canvas) (index value : Z) : Canvas :=
  if (0 <=? index)%Z && (index <? canvasLength canvas)%Z
  then mkCanvas (fun j => if (j =? index)%Z then value else byteAt canvas j)
                (canvasLength canvas)
  else canvas.

Definition readTile (tile : TilePixels) (index : Z) : Z :=
  if (index <? 0)%Z then 0%Z else nth (Z.to_nat index) (data tile) 0%Z.

(** The body of the two loops of [copyTileToCanvas]. *)
Definition copyPixel (tile : TilePixels) (canvasSize offsetX offsetY : Z)
           (ty tx : Z) (canvas : Canvas) : Canvas :=
  let srcIdx := ((ty * pwidth tile + tx) * 4)%Z in
  let dstIdx := (((offsetY + ty) * canvasSize + (offsetX + tx)) * 4)%Z in
  let canvas := writeByte canvas dstIdx (readTile tile srcIdx) in
  let canvas := writeByte canvas (dstIdx + 1) (readTile tile (srcIdx + 1)) in
  let canvas := writeByte canvas (dstIdx + 2) (readTile tile (srcIdx + 2)) in
  writeByte canvas (dstIdx + 3) (readTile tile (srcIdx + 3)).

Definition copyTileToCanvas (tile : option TilePixels) (canvas : Canvas)
           (canvasSize offsetX offsetY : Z) : Canvas :=
  match tile with
  | None => canvas
  | Some tile =>
      fold_left
        (fun canvas ty =>
           fold_left
             (fun canvas tx =>
                copyPixel tile canvasSize offsetX offsetY ty tx canvas)
             (zrange (pwidth tile)) canvas)
        (zrange (pheight tile)) canvas
  end.

Definition stitchTiles (tiles : Neighborhood) : Canvas * Z :=
  let s := sourceTileSize in
  let stitchedSize := (s * 3)%Z in
  let stitched := newCanvas (stitchedSize * stitchedSize * 4) in
  let stitched := copyTileToCanvas (topLeft tiles) stitched stitchedSize 0 0 in
  let stitched := copyTileToCanvas (top tiles) stitched stitchedSize s 0 in
  let stitched :=
    copyTileToCanvas (topRight tiles) stitched stitchedSize (2 * s) 0 in
  let stitched := copyTileToCanvas (left tiles) stitched stitchedSize 0 s in
  let stitched := copyTileToCanvas (center tiles) stitched stitchedSize s s in
  let stitched :=
    copyTileToCanvas (right tiles) stitched stitchedSize (2 * s) s in
  let stitched :=
    copyTileToCanvas (bottomLeft tiles) stitched stitchedSize 0 (2 * s) in
  let stitched :=
    copyTileToCanvas (bottom tiles) stitched stitchedSize s (2 * s) in
  let stitched :=
    copyTileToCanvas (bottomRight tiles) stitched stitchedSize (2 * s)
                     (2 * s) in
  (stitched, stitchedSize).

(** The source column (or row) an output column (or row) is sampled from,
    after clamping into the canvas. *)
Definition sourceIndex (stitchedSize bufferPx o : Z) : Z :=
  let scale := Num.ofZ sourceTileSize /! Num.ofZ TILE_SIZE in
  let tile := (o - bufferPx)%Z in
  let src := (sourceTileSize
              + Num.floor ((Num.ofZ tile +! (1 # 2)) *! scale))%Z in
  Z.max 0 (Z.min (stitchedSize - 1) src).

Definition sampleFromStitched (stitched : Canvas * Z) (outputSize bufferPx : Z)
  : BufferedGrid :=
  let '(data, stitchedSize) := stitched in
  mkBufferedGrid
    (flat_map
       (fun oy =>
          map (fun ox =>
                 let srcX := sourceIndex stitchedSize bufferPx ox in
                 let srcY := sourceIndex stitchedSize bufferPx oy in
                 let srcIdx := ((srcY * stitchedSize + srcX) * 4)%Z in
                 terrariumToElevation (Num.ofZ (byteAt data srcIdx))
                                      (Num.ofZ (byteAt data (srcIdx + 1)))
                                      (Num.ofZ (byteAt data (srcIdx + 2))))
              (zrange outputSize))
       (zrange outputSize))
    outputSize outputSize bufferPx.

(** The no-buffer case samples the one tile. *)
Definition sampleElevationGrid (tile : TilePixels) (outputSize bufferPx : Z)
  : BufferedGrid :=
  let scale := Num.ofZ sourceTileSize /! Num.ofZ TILE_SIZE in
  let src (limit o : Z) : Z :=
    Z.max 0 (Z.min (limit - 1)
                   (Num.floor ((Num.ofZ (o - bufferPx) +! (1 # 2)) *! scale)))
  in
  mkBufferedGrid
    (flat_map
       (fun y =>
          map (fun x =>
                 let srcX := src (pwidth tile) x in
                 let srcY := src (pheight tile) y in
                 let srcIdx := ((srcY * pwidth tile + srcX) * 4)%Z in
                 terrariumToElevation (Num.ofZ (readTile tile srcIdx))
                                      (Num.ofZ (readTile tile (srcIdx + 1)))
                                      (Num.ofZ (readTile tile (srcIdx + 2))))
              (zrange outputSize))
       (zrange outputSize))
    outputSize outputSize bufferPx.

Definition fetchTile (coord : TileCoord) (bufferPx : Z)
  : Result BufferedGrid :=
  let outputSize := (TILE_SIZE + 2 * bufferPx)%Z in
  if (bufferPx =? 0)%Z then
    center <- fetchTilePixels (z coord) (x coord) (y coord) ;;
    match center with
    | None => Throws FailedToFetchTile
    | Some center => Returns (sampleElevationGrid center outputSize bufferPx)
    end
  else
    tiles <- fetch3x3Neighborhood (z coord) (x coord) (y coord) ;;
    match center tiles with
    | None => Throws FailedToFetchCenterTile
    | Some _ =>
        Returns (sampleFromStitched (stitchTiles tiles) outputSize bufferPx)
    end.

(** The eight neighbour addresses of a tile. *)
Definition neighbours (coord : TileCoord) : list (Z * Z) :=
  [ (x coord - 1, y coord); (x coord + 1, y coord);
    (x coord, y coord - 1); (x coord, y coord + 1);
    (x coord - 1, y coord - 1); (x coord + 1, y coord - 1);
    (x coord - 1, y coord + 1); (x coord + 1, y coord + 1) ]%Z.

(** A request that makes [fetchTilePixels] throw. *)
Definition requestThrows (z x y : Z) : Prop :=
  exists e, fetchTilePixels z x y = Throws e.

(** A tile that is missing: outside the pyramid, or answered not-ok. *)
Definition tileMissing (z x y : Z) : Prop :=
  fetchTilePixels z x y = Returns None.

Definition raisesError {A : Type} (r : Result A) : Prop :=
  exists e, r = Throws e.

(** The centre tile can be fetched and decoded. *)
Definition centerDecodes (coord : TileCoord) : Prop :=
  exists pixels,
    fetchTilePixels (z coord) (x coord) (y coord) = Returns (Some pixels).

(** Each neighbour address with the place of its tile in the 3 x 3 canvas,
    counted in tiles from the top-left corner. *)
Definition neighbourSlots (coord : TileCoord) : list ((Z * Z) * (Z * Z)) :=
  [ ((x coord - 1, y coord), (0, 1)); ((x coord + 1, y coord), (2, 1));
    ((x coord, y coord - 1), (1, 0)); ((x coord, y coord + 1), (1, 2));
    ((x coord - 1, y coord - 1), (0, 0));
    ((x coord + 1, y coord - 1), (2, 0));
    ((x coord - 1, y coord + 1), (0, 2));
    ((x coord + 1, y coord + 1), (2, 2)) ]%Z.

(** Every tile the decoder yields is at most [sourceTileSize] wide and
    high. *)
Definition tilesFit : Prop :=
  forall z x y pixels,
    upstream z x y = Decodes pixels ->
    (0 <= pwidth pixels <= sourceTileSize)%Z /\
    (0 <= pheight pixels <= sourceTileSize)%Z.

(** The tile copied to a slot of the canvas. *)
Definition tileAt (tiles : Neighborhood) (slot : Z * Z)
  : option TilePixels :=
  match slot with
  | (0, 0) => topLeft tiles | (1, 0) => top tiles | (2, 0) => topRight tiles
  | (0, 1) => left tiles | (1, 1) => center tiles | (2, 1) => right tiles
  | (0, 2) => bottomLeft tiles | (1, 2) => bottom tiles
  | (2, 2) => bottomRight tiles
  | _ => None
  end%Z.

Definition slots : list (Z * Z) :=
  [(0, 0); (1, 0); (2, 0); (0, 1); (1, 1); (2, 1); (0, 2); (1, 2); (2, 2)]%Z.

Definition neighborhoodFits (tiles : Neighborhood) : Prop :=
  forall slot t, In slot slots -> tileAt tiles slot = Some t ->
    (0 <= pwidth t <= sourceTileSize)%Z /\
    (0 <= pheight t <= sourceTileSize)%Z.

(** The elevation stored for output pixel [(ox, oy)]. *)
Definition elevationAt (g : BufferedGrid) (ox oy : Z) : Q :=
  nth (Z.to_nat (oy * width g + ox)) (grid g) 0.

(** Canvas pixel [(px, py)] lies in the slot [(i, j)] of the canvas. *)
Definition inSlot (slot : Z * Z) (px py : Z) : Prop :=
  (fst slot * sourceTileSize <= px < (fst slot + 1) * sourceTileSize)%Z /\
  (snd slot * sourceTileSize <= py < (snd slot + 1) * sourceTileSize)%Z.

End WithUpstream.

(** A decoded tile of 2 x 2 pixels at sea level, [(128, 0, 0, 255)]. *)
Definition seaLevelTile : TilePixels :=
  mkTilePixels [128; 0; 0; 255; 128; 0; 0; 255;
                128; 0; 0; 255; 128; 0; 0; 255]%Z 2 2.

(** An upstream that serves tile 10/512/512 and throws in the decoder on
    the body of its west neighbour. *)
Definition upstreamWithCorruptNeighbour : Upstream :=
  fun z x y =>
    if (z =? 10)%Z && (x =? 512)%Z && (y =? 512)%Z then Decodes seaLevelTile
    else if (z =? 10)%Z && (x =? 511)%Z && (y =? 512)%Z then DecoderThrows
    else NotOk.

(** The same with a connection that fails for the west neighbour. *)
Definition upstreamWithUnreachableNeighbour : Upstream :=
  fun z x y =>
    if (z =? 10)%Z && (x =? 512)%Z && (y =? 512)%Z then Decodes seaLevelTile
    else if (z =? 10)%Z && (x =? 511)%Z && (y =? 512)%Z then FetchRejects
    else NotOk.

(** An upstream that serves the single tile of zoom 0. *)
Definition upstreamWorld : Upstream :=
  fun z x y =>
    if (z =? 0)%Z && (x =? 0)%Z && (y =? 0)%Z then Decodes seaLevelTile
    else NotOk.

End Fetcher.

(* ------------------------------------------------------------------ *)
(** ** Typed arrays *)
(* ------------------------------------------------------------------ *)

Module TypedArray.

(** The array with entry [i] replaced; nothing changes past the end. *)
Fixpoint update {A : Type} (i : nat) (v : A) (l : list A) : list A :=
  match l, i with
  | [], _ => []
  | _ :: rest, O => v :: rest
  | a :: rest, S i' => a :: update i' v rest
  end.

(** [array[index] = value]: a write outside a typed array is ignored. *)
Definition store {A : Type} (array : list A) (index : Z) (value : A)
  : list A :=
  if (index <? 0)%Z then array else update (Z.to_nat index) value array.

(** [array[index]]; [undef] stands for the [undefined] of a read outside. *)
Definition load {A : Type} (undef : A) (array : list A) (index : Z) : A :=
  if (index <? 0)%Z then undef else nth (Z.to_nat index) array undef.

(** The conversion a [Uint8ClampedArray] applies to a stored number:
    clamp to [0, 255], then round to the nearest integer, halves to the
    even one. *)
Definition toUint8Clamp (v : Q) : Z :=
  if v <=! 0 then 0%Z
  else if v >=! 255 then 255%Z
  else
    let f := Num.floor v in
    let frac := v - inject_Z f in
    if frac <! (1 # 2) then f
    else if frac >! (1 # 2) then (f + 1)%Z
    else if Z.even f then f else (f + 1)%Z.

(** The values a byte array holds. *)
Definition isByte (n : Z) : Prop := (0 <= n <= 255)%Z.

End TypedArray.

(** The cells [(x, y)] two nested loops [for y < h] [for x < w] visit, in
    order. *)
Definition cells (w h : Z) : list (Z * Z) :=
  flat_map (fun y => map (fun x => (x, y)) (zrange w)) (zrange h).

(* ------------------------------------------------------------------ *)
(** ** [src/lib/dem/grid.ts] : [gridMap] *)
(* ------------------------------------------------------------------ *)

Module GridOps.
Import GridModel TypedArray.

(** [gridMap(grid, fn)]: a zero-filled array of the length of [grid.data],
    written cell by cell by the two loops. *)
Definition gridMap (grid : Grid Q) (fn : Q -> Z -> Z -> Q) : Grid Q :=
  let result := repeat (0 : Q) (length (data grid)) in
  let result :=
    fold_left
      (fun result y =>
         fold_left
           (fun result x =>
              let i := (y * width grid + x)%Z in
              store result i (fn (gridGetAt 0 grid i) x y))
           (zrange (width grid)) result)
      (zrange (height grid)) result in
  mkGrid result (width grid) (height grid).

End GridOps.

(* ------------------------------------------------------------------ *)
(** ** [src/lib/dem/image-data.ts], [src/lib/dem/elevation.ts] : images *)
(* ------------------------------------------------------------------ *)

Module ElevationGrid.
Import GridModel TypedArray GridOps Elevation.

(** [ImageDataLike]: RGBA bytes, row-major, four per pixel. *)
Record ImageData : Type := mkImageData {
  pixels : list Z;
  imageWidth : Z;
  imageHeight : Z
}.

Inductive TerrainEncoding : Type := mapbox | terrarium.

(** [new Float64Array(n)] and [new Uint8ClampedArray(n)]: zero-filled; a
    negative length is a [RangeError], here [None]. *)
Definition newArray {A : Type} (zero : A) (n : Z) : option (list A) :=
  if (n <? 0)%Z then None else Some (repeat zero (Z.to_nat n)).

(** [encoding === 'mapbox' ? decodeMapbox : decodeTerrarium], and the same
    choice between the encoders. *)
Definition decodeWith (encoding : TerrainEncoding) : Q -> Q -> Q -> Q :=
  match encoding with mapbox => decodeMapbox | terrarium => decodeTerrarium end.

Definition encodeWith (encoding : TerrainEncoding) : Q -> RGB :=
  match encoding with mapbox => encodeMapbox | terrarium => encodeTerrarium end.

Definition decodeElevation (imageData : ImageData) (encoding : TerrainEncoding)
  : option (Grid Q) :=
  let width := imageWidth imageData in
  let height := imageHeight imageData in
  let data := pixels imageData in
  match newArray (0 : Q) (width * height) with
  | None => None
  | Some result =>
      let decode := decodeWith encoding in
      let result :=
        fold_left
          (fun result y =>
             fold_left
               (fun result x =>
                  let i := ((y * width + x) * 4)%Z in
                  store result (y * width + x)
                        (decode (Num.ofZ (load 0%Z data i))
                                (Num.ofZ (load 0%Z data (i + 1)))
                                (Num.ofZ (load 0%Z data (i + 2)))))
               (zrange width) result)
          (zrange height) result in
      Some (mkGrid result width height)
  end.

Definition encodeElevation (elevation : Grid Q) (encoding : TerrainEncoding)
  : option ImageData :=
  let data := data elevation in
  let width := width elevation in
  let height := height elevation in
  match newArray 0%Z (width * height * 4) with
  | None => None
  | Some pixels =>
      let encode := encodeWith encoding in
      let pixels :=
        fold_left
          (fun pixels y =>
             fold_left
               (fun pixels x =>
                  let '(r, g, b) := encode (load 0 data (y * width + x)) in
                  let i := ((y * width + x) * 4)%Z in
                  let pixels := store pixels i (toUint8Clamp r) in
                  let pixels := store pixels (i + 1) (toUint8Clamp g) in
                  let pixels := store pixels (i + 2) (toUint8Clamp b) in
                  store pixels (i + 3) 255%Z)
               (zrange width) pixels)
          (zrange height) pixels in
      Some (mkImageData pixels width height)
  end.


(** [clampGrid]: [Math.max(min, Math.min(max, v))]. *)
Definition clampGrid (grid : Grid Q) (min max : Q) : Grid Q :=
  gridMap grid (fun v _ _ => Num.max min (Num.min max v)).

(** The byte [encodeElevation] leaves in channel [j] of a pixel whose
    elevation encodes to [c]. *)
Definition channel (c : RGB) (j : Z) : Z :=
  let '(r, g, b) := c in
  match j with
  | 0%Z => toUint8Clamp r
  | 1%Z => toUint8Clamp g
  | 2%Z => toUint8Clamp b
  | _ => 255%Z
  end.



End ElevationGrid.

(* ------------------------------------------------------------------ *)
(** ** [src/lib/tiles/types.ts] : intervals by zoom *)
(* ------------------------------------------------------------------ *)

Module Zoom.

Definition getContourInterval (zoom : Q) : Q :=
  if zoom <=! 2 then 2000
  else if zoom <=! 7 then 1000
  else if zoom <=! 9 then 500
  else if zoom <=! 11 then 250
  else if zoom <=! 13 then 100
  else if Num.eqb zoom 14 then 50
  else 10.

Definition getHillshadeInterval (zoom : Q) : Q :=
  if zoom <=! 7 then 32
  else if zoom <=! 11 then 21
  else 16.

Definition MIN_ELEVATION : Q := -500.
Definition MAX_ELEVATION : Q := 9000.
Definition MIN_LUMINANCE : Q := 0.
Definition MAX_LUMINANCE : Q := 256.

End Zoom.

(** [getHillshadeBaseline], which calls [Math.cos]. *)
Module Baseline.
Import Reals.
Local Open Scope R_scope.

Definition DEFAULT_SUN_AZIMUTH : R := 315.


End Baseline.

(* ------------------------------------------------------------------ *)
(** ** [src/worker/routes/contour.ts] : contour features of a tile *)
(* ------------------------------------------------------------------ *)

Module ContourRoute.
Import GeoJSON Levels Zoom.

(** [contour.properties?.level]: the number under the key [level], which
    is all that [traceLines] stores there. *)
Fixpoint levelOf (props : Properties) : option Q :=
  match props with
  | [] => None
  | (key, value) :: rest =>
      if String.eqb key "level"
      then match value with PNumber v => Some v | _ => None end
      else levelOf rest
  end.

(** [{ ...contour.properties, index }] on an object without the key
    [index]: the key is added last.  [null] spreads to nothing. *)
Definition withIndex (props : option Properties) (index : bool) : Properties :=
  match props with
  | Some props => props ++ [("index"%string, PBool index)]
  | None => [("index"%string, PBool index)]
  end.

(** [level % (interval * 5) === 0]. *)
Definition isIndex (level interval : Q) : bool :=
  Num.eqb (Num.rem level (interval *! 5)) 0.

(** [processContours]; the outer [None] is the level loop running out of
    fuel, the inner one the error [traceLines] throws. *)
Definition processContours (fuel : nat) (grid : list Q) (width height : Z)
           (zoom : Q) : option (option (list Feature)) :=
  let interval := getContourInterval zoom in
  match generateLevels fuel MIN_ELEVATION MAX_ELEVATION interval with
  | None => None
  | Some levels =>
      Some
        match Contour.traceLines grid width height levels with
        | None => None
        | Some contours =>
            Some (map (fun contour =>
                         let level :=
                           match properties contour with
                           | Some props =>
                               match levelOf props with
                               | Some l => l
                               | None => 0
                               end
                           | None => 0
                           end in
                         mkFeature (geometry contour)
                                   (Some (withIndex (properties contour)
                                                    (isIndex level interval))))
                      contours)
        end
  end.

End ContourRoute.

(* ------------------------------------------------------------------ *)
(** ** [src/lib/dem/hillshade.ts] : [toImageData] *)
(* ------------------------------------------------------------------ *)

Module HillshadeImage.
Import Reals.
Import GridModel TypedArray ElevationGrid.
Local Open Scope R_scope.




End HillshadeImage.

(* ------------------------------------------------------------------ *)
(** ** Measures of the tracer's output *)
(* ------------------------------------------------------------------ *)

Module ContourMeasures.
Import Contour.

(** The number of edges of a list of polylines. *)
Definition edgeCount (lines : list (list Coordinate)) : nat :=
  list_sum (map (fun line => (length line - 1)%nat) lines).

(** The same count over the chains that are not merged into another. *)
Definition liveEdges (cs : list Chain) : nat :=
  list_sum (map (fun c => if merged c then 0%nat
                          else (length (coords c) - 1)%nat) cs).

(** Every chain not merged into another has at least two positions, all
    with the property [P]. *)
Definition sound (P : Coordinate -> Prop) (cs : list Chain) : Prop :=
  forall c, In c cs -> merged c = false ->
    (2 <= length (coords c))%nat /\ forall p, In p (coords c) -> P p.

(** [n] joins the polylines [c] and [o] at a shared end: the lengths add
    up minus the junction, and no position is invented. *)
Definition joined (c o n : list Coordinate) : Prop :=
  length n = (length c + length o - 1)%nat /\
  forall p, In p n -> In p c \/ In p o.

(** A position inside the rectangle the grid nodes span. *)
Definition inGrid (w h : Z) (p : Coordinate) : Prop :=
  0 <= fst p /\ fst p <= inject_Z (w - 1) /\
  0 <= snd p /\ snd p <= inject_Z (h - 1).

(** A position in the closed cell whose lower corner is node [(x, y)]. *)
Definition inCell (x y : Z) (p : Coordinate) : Prop :=
  inject_Z x <= fst p /\ fst p <= inject_Z (x + 1) /\
  inject_Z y <= snd p /\ snd p <= inject_Z (y + 1).

End ContourMeasures.

(* ------------------------------------------------------------------ *)
(** ** [src/lib/tiles/coordinate-transform.ts] : lines and plain transforms *)
(* ------------------------------------------------------------------ *)

Module TransformLines.
Import GeoJSON Transform.

(** [transformCoordinates]: [coords.map(transform)]. *)
Definition transformCoordinates (coords : list Position)
           (transform : Position -> Position) : list Position :=
  map transform coords.

Definition transformLineString (coords : list Position)
           (props : option Properties) (config : TransformConfig) : Feature :=
  let transform := createTransform config in
  let newCoords := transformCoordinates coords transform in
  lineString newCoords (match props with Some p => p | None => [] end).

(** [transformPolygon] reads [coordinates[0]]: on a polygon without rings
    it throws a [TypeError], here [None]. *)
Definition transformPolygon (rings : list (list Position))
           (props : option Properties) (config : TransformConfig)
  : option Feature :=
  let transform := createTransform config in
  match rings with
  | [] => None
  | shell :: rest =>
      let exterior := transformCoordinates shell transform in
      let holes := map (fun hole => transformCoordinates hole transform) rest in
      Some (polygon (exterior :: holes)
                    (match props with Some p => p | None => [] end))
  end.

Definition transformFeature (feature : Feature) (config : TransformConfig)
  : option Feature :=
  match geometry feature with
  | Polygon rings => transformPolygon rings (properties feature) config
  | LineString coords =>
      Some (transformLineString coords (properties feature) config)
  end.

(** [features.map(...)]: the first feature that throws ends the call. *)
Fixpoint transformFeatures (features : list Feature) (config : TransformConfig)
  : option (list Feature) :=
  match features with
  | [] => Some []
  | f :: rest =>
      match transformFeature f config with
      | None => None
      | Some f' =>
          match transformFeatures rest config with
          | None => None
          | Some rest' => Some (f' :: rest')
          end
      end
  end.

(** The first violated edge, in the order left, right, top, bottom. *)
Definition findViolatedEdge (p : Position) (minX minY maxX : Q) : Edge :=
  if fst p <! minX then left
  else if fst p >! maxX then right
  else if snd p <! minY then top
  else bottom.

(** [edge === 'left' ? minX : edge === 'right' ? maxX : ...]. *)
Definition edgeValueOf (edge : Edge) (minX minY maxX maxY : Q) : Q :=
  match edge with
  | left => minX
  | right => maxX
  | top => minY
  | bottom => maxY
  end.

(** The [inside] closure of [clipLineToBox]. *)
Definition insideBox (minX minY maxX maxY : Q) (p : Position) : bool :=
  (fst p >=! minX) && (fst p <=! maxX) && (snd p >=! minY) && (snd p <=! maxY).

(** [if (currentSegment.length === 0) currentSegment.push(p1)]. *)
Definition startWith (currentSegment : list Position) (p1 : Position)
  : list Position :=
  if (length currentSegment =? 0)%nat then currentSegment ++ [p1]
  else currentSegment.

(** [if (currentSegment.length >= 2) result.push(currentSegment)]. *)
Definition pushSegment (result : list (list Position))
           (currentSegment : list Position) : list (list Position) :=
  if (2 <=? length currentSegment)%nat then result ++ [currentSegment]
  else result.

(** One turn of the loop of [clipLineToBox] over the pair
    [(coords[i], coords[i + 1])]; the state is [(result, currentSegment)]. *)
Definition clipStep (coords : list Position) (minX minY maxX maxY : Q)
           (state : list (list Position) * list Position) (i : nat)
  : list (list Position) * list Position :=
  let '(result, currentSegment) := state in
  let p1 := nth i coords noPosition in
  let p2 := nth (i + 1) coords noPosition in
  let p1Inside := insideBox minX minY maxX maxY p1 in
  let p2Inside := insideBox minX minY maxX maxY p2 in
  if p1Inside && p2Inside then
    (result, startWith currentSegment p1 ++ [p2])
  else if p1Inside && negb p2Inside then
    let currentSegment := startWith currentSegment p1 in
    let exitEdge := findViolatedEdge p2 minX minY maxX in
    let edgeValue := edgeValueOf exitEdge minX minY maxX maxY in
    let currentSegment :=
      currentSegment ++ [computeEdgeIntersection p1 p2 exitEdge edgeValue] in
    (pushSegment result currentSegment, [])
  else if negb p1Inside && p2Inside then
    let entryEdge := findViolatedEdge p1 minX minY maxX in
    let edgeValue := edgeValueOf entryEdge minX minY maxX maxY in
    (result, [computeEdgeIntersection p1 p2 entryEdge edgeValue; p2])
  else state.

Definition clipLineToBox (coords : list Position) (minX minY maxX maxY : Q)
  : list (list Position) :=
  if (length coords <? 2)%nat then []
  else
    let '(result, currentSegment) :=
      fold_left (clipStep coords minX minY maxX maxY)
                (seq 0 (length coords - 1)) ([], []) in
    pushSegment result currentSegment.

(** [transformAndClipFeatures]: polygons are skipped, every clipped piece
    of a line becomes a feature with the properties of the line. *)
Definition transformAndClipFeatures (features : list Feature)
           (config : TransformConfig) : list Feature :=
  let mvtExtent := extentOf config in
  let transform := createTransform config in
  fold_left
    (fun result feature =>
       match geometry feature with
       | Polygon _ => result
       | LineString coords =>
           let transformedCoords := map transform coords in
           let clipped :=
             clipLineToBox transformedCoords 0 0 mvtExtent mvtExtent in
           fold_left
             (fun result segment =>
                if (2 <=? length segment)%nat
                then result ++ [lineString segment (propertiesOrEmpty feature)]
                else result)
             clipped result
       end)
    features [].

(** A position in the closed box. *)
Definition inBox (minX minY maxX maxY : Q) (p : Position) : Prop :=
  minX <= fst p /\ fst p <= maxX /\ minY <= snd p /\ snd p <= maxY.

End TransformLines.

(** What [transformAndClipFeatures] makes of one feature, without loops. *)
Module LineSpec.
Import GeoJSON Transform TransformLines.

Definition pieces (config : TransformConfig) (f : Feature) : list Feature :=
  match geometry f with
  | Polygon _ => []
  | LineString coords =>
      map (fun segment => lineString segment (propertiesOrEmpty f))
          (filter (fun segment => (2 <=? length segment)%nat)
                  (clipLineToBox (map (createTransform config) coords)
                                 0 0 (extentOf config) (extentOf config)))
  end.


End LineSpec.

(* ------------------------------------------------------------------ *)
(** ** [src/lib/dem/smooth.ts] : smoothing features *)
(* ------------------------------------------------------------------ *)

Module SmoothFeature.
Import GeoJSON Smooth.

(** [options ?? {}]. *)
Definition optionsOrEmpty (options : option SmoothOptions) : SmoothOptions :=
  match options with
  | Some o => o
  | None => mkSmoothOptions None None
  end.

Definition smoothLineStringFeature (coords : list Position)
           (props : option Properties) (options : option SmoothOptions)
  : Feature :=
  let smoothed := smoothCoords coords (optionsOrEmpty options) None in
  lineString smoothed (match props with Some p => p | None => [] end).

(** Every ring is smoothed with [{ ...options, closed: true }]. *)
Definition smoothPolygonFeature (rings : list (list Position))
           (props : option Properties) (options : option SmoothOptions)
  : Feature :=
  let rings :=
    map (fun ring => smoothCoords ring (optionsOrEmpty options) (Some true))
        rings in
  polygon rings (match props with Some p => p | None => [] end).

Definition smooth (feature : Feature) (options : option SmoothOptions)
  : Feature :=
  match geometry feature with
  | Polygon rings => smoothPolygonFeature rings (properties feature) options
  | LineString coords =>
      smoothLineStringFeature coords (properties feature) options
  end.

(** The options in effect: the defaults where none is given. *)
Definition iterationsOf (options : SmoothOptions) : Z :=
  match iterations options with Some i => i | None => DEFAULT_ITERATIONS end.

Definition factorOf (options : SmoothOptions) : Q :=
  match factor options with Some f => f | None => DEFAULT_FACTOR end.

(** The vertices a ring is subdivided from: all but the closing one. *)
Definition uniqueVertices (coords : list Position) : list Position :=
  if isClosedRing coords then removelast coords else coords.

End SmoothFeature.

(* ------------------------------------------------------------------ *)
(** ** [src/lib/tiles/fetcher.ts] : tile bounds *)
(* ------------------------------------------------------------------ *)

Module TileBounds.
Import Reals.
Local Open Scope R_scope.

Definition EARTH_RADIUS : R := 6378137.



Record Wgs84Bounds : Type := mkWgs84Bounds {
  minLon : R; minLat : R; maxLon : R; maxLat : R
}.

Definition tileToWgs84Bounds (z : nat) (x y : R) : Wgs84Bounds :=
  let n := 2 ^ z in
  let minLon := (x / n) * 360 - 180 in
  let maxLon := ((x + 1) / n) * 360 - 180 in
  let maxLatRad := atan (sinh (PI * (1 - (2 * y) / n))) in
  let minLatRad := atan (sinh (PI * (1 - (2 * (y + 1)) / n))) in
  let minLat := (minLatRad * 180) / PI in
  let maxLat := (maxLatRad * 180) / PI in
  mkWgs84Bounds minLon minLat maxLon maxLat.

End TileBounds.

(* ------------------------------------------------------------------ *)
(** ** [src/worker/tile-handler.ts] : [parseTileCoords] *)
(* ------------------------------------------------------------------ *)

Module TileHandler.
Import Fetcher.

(** A string value is the list of its UTF-16 code units. *)
Definition codes (s : string) : list N :=
  map Ascii.N_of_ascii (list_ascii_of_string s).

(** [StrWhiteSpaceChar]: the white space and line terminators that
    [parseInt] skips at the start of its input. *)
Definition isWhiteSpace (c : N) : bool :=
  ((c =? 9) || (c =? 10) || (c =? 11) || (c =? 12) || (c =? 13)
   || (c =? 32) || (c =? 160) || (c =? 5760)
   || ((8192 <=? c) && (c <=? 8202))
   || (c =? 8232) || (c =? 8233) || (c =? 8239) || (c =? 8287)
   || (c =? 12288) || (c =? 65279))%N.

Fixpoint trimStart (s : list N) : list N :=
  match s with
  | c :: rest => if isWhiteSpace c then trimStart rest else s
  | [] => []
  end.

(** The value of a decimal digit, ['0'] to ['9']. *)
Definition digitValue (c : N) : option Z :=
  if ((48 <=? c) && (c <=? 57))%N then Some (Z.of_N c - 48)%Z else None.

(** The integer spelled by the digits at the start of [s]; [acc] is the
    value read so far, [None] before the first digit. *)
Fixpoint parseDigits (s : list N) (acc : option Z) : option Z :=
  match s with
  | c :: rest =>
      match digitValue c with
      | Some d =>
          parseDigits rest
            (Some (10 * match acc with Some a => a | None => 0 end + d)%Z)
      | None => acc
      end
  | [] => acc
  end.

(** [parseInt(string, 10)]; [None] is [NaN]. *)
Definition parseInt (string : list N) : option Z :=
  let S := trimStart string in
  let sign :=
    match S with
    | c :: _ => if (c =? 45)%N then (-1)%Z else 1%Z
    | [] => 1%Z
    end in
  let S :=
    match S with
    | c :: rest => if ((c =? 45) || (c =? 43))%N then rest else S
    | [] => S
    end in
  match parseDigits S None with
  | Some mathInt => Some (sign * mathInt)%Z
  | None => None
  end.

(** The whole of [s] matches [/\.mvt/i]. *)
Definition isMvt (s : list N) : bool :=
  match s with
  | [d; m; v; t] =>
      ((d =? 46) && ((m =? 109) || (m =? 77)) && ((v =? 118) || (v =? 86))
       && ((t =? 116) || (t =? 84)))%N
  | _ => false
  end.

(** [s.replace(/\.mvt$/i, '')]. *)
Fixpoint stripMvt (s : list N) : list N :=
  if isMvt s then []
  else match s with
       | c :: rest => c :: stripMvt rest
       | [] => []
       end.

(** [param ?? '']. *)
Definition orEmpty (param : option (list N)) : list N :=
  match param with Some s => s | None => [] end.

(** [parseTileCoords(c)], from the three route parameters of the
    request; [None] is [null]. *)
Definition parseTileCoords (zParam xParam yParam : option (list N))
  : option TileCoord :=
  let z := parseInt (orEmpty zParam) in
  let x := parseInt (orEmpty xParam) in
  let yParam := orEmpty yParam in
  let y := parseInt (stripMvt yParam) in
  match z, x, y with
  | Some z, Some x, Some y =>
      if ((z <? 0) || (z >? 22))%Z then None
      else
        let maxTile := (2 ^ z - 1)%Z in
        if ((x <? 0) || (x >? maxTile) || (y <? 0) || (y >? maxTile))%Z
        then None
        else Some (mkTileCoord z x y)
  | _, _, _ => None
  end.

(** The decimal numeral of a natural number, most significant digit
    first: what [String(n)] and a template literal give for it. *)
Fixpoint digitsOf (fuel : nat) (n : Z) : list N :=
  match fuel with
  | O => []
  | S fuel =>
      if (n <? 10)%Z then [Z.to_N (48 + n)]
      else digitsOf fuel (n / 10) ++ [Z.to_N (48 + n mod 10)]
  end.

Definition decimal (n : Z) : list N :=
  digitsOf (S (Z.to_nat (Z.log2 n))) n.

(** A string that does not go on with a digit. *)
Definition stopsDigits (s : list N) : Prop :=
  match s with
  | c :: _ => digitValue c = None
  | [] => True
  end.

End TileHandler.

(* ------------------------------------------------------------------ *)
(** * Properties *)
(* ------------------------------------------------------------------ *)

Section NumFacts.

Lemma ltb_lt (a b : Q) : Num.ltb a b = true <-> a < b.
Proof.
  unfold Num.ltb. rewrite negb_true_iff.
  split; intros H.
  - apply Qnot_le_lt. intros Hle. apply Qle_bool_iff in Hle. congruence.
  - destruct (Qle_bool b a) eqn:E; [|reflexivity].
    apply Qle_bool_iff in E. exfalso. apply (Qlt_not_le _ _ H E).
Qed.

Lemma ltb_ge (a b : Q) : Num.ltb a b = false <-> b <= a.
Proof.
  unfold Num.ltb. rewrite negb_false_iff. apply Qle_bool_iff.
Qed.

Lemma add_eq (a b : Q) : Num.add a b == a + b.
Proof. apply Qred_correct. Qed.

Lemma sub_eq (a b : Q) : Num.sub a b == a - b.
Proof. apply Qred_correct. Qed.

Lemma mul_eq (a b : Q) : Num.mul a b == a * b.
Proof. apply Qred_correct. Qed.

Lemma div_eq (a b : Q) : Num.div a b == a / b.
Proof. apply Qred_correct. Qed.

End NumFacts.

Module ListFacts.

Lemma last_nth {A : Type} (l : list A) (d : A) :
  last l d = nth (length l - 1) l d.
Proof.
  induction l as [|a [|b l] IH]; [reflexivity | reflexivity |].
  change (last (a :: b :: l) d) with (last (b :: l) d).
  rewrite IH. cbn [length].
  replace (S (S (length l)) - 1)%nat with (S (S (length l) - 1)) by lia.
  reflexivity.
Qed.

(** A fold keeps what every step keeps. *)
Lemma fold_left_keeps {A B : Type} (P : A -> Prop) (f : A -> B -> A)
      (l : list B) (init : A) :
  P init -> (forall a b, In b l -> P a -> P (f a b)) ->
  P (fold_left f l init).
Proof.
  revert init. induction l as [|b l IH]; intros init Hinit Hstep; [exact Hinit|].
  cbn [fold_left]. apply IH.
  - apply Hstep; [now left | exact Hinit].
  - intros a b' Hb'. apply Hstep. now right.
Qed.

Lemma fold_left_push {A B : Type} (g : A -> list B) (l : list A)
      (init : list B) :
  fold_left (fun acc x => acc ++ g x) l init = init ++ flat_map g l.
Proof.
  revert init. induction l as [|x l IH]; intros init; cbn [fold_left flat_map].
  - now rewrite app_nil_r.
  - now rewrite IH, app_assoc.
Qed.

Lemma fold_left_same {A B : Type} (f g : A -> B -> A) (l : list B) (a : A) :
  (forall a b, f a b = g a b) -> fold_left f l a = fold_left g l a.
Proof.
  intros Hfg. revert a. induction l as [|b l IH]; intros a; [reflexivity|].
  cbn [fold_left]. now rewrite Hfg, IH.
Qed.

Lemma In_zrange (n i : Z) : In i (zrange n) <-> (0 <= i < n)%Z.
Proof.
  unfold zrange. rewrite in_map_iff. split.
  - intros (k & <- & Hk). apply in_seq in Hk. lia.
  - intros Hi. exists (Z.to_nat i). split; [lia|]. apply in_seq. lia.
Qed.

Lemma nth_zrange (n : Z) (k : nat) :
  (k < Z.to_nat n)%nat -> nth k (zrange n) 0%Z = Z.of_nat k.
Proof.
  intros Hk. unfold zrange.
  rewrite (nth_indep _ 0%Z (Z.of_nat 0)) by (now rewrite length_map, length_seq).
  rewrite map_nth, seq_nth by lia. reflexivity.
Qed.

Lemma nth_flat_map_rows {A B : Type} (f : A -> list B) (n : nat)
      (dA : A) (dB : B) :
  forall (ys : list A) (k j : nat),
    (forall y, In y ys -> length (f y) = n) ->
    (k < length ys)%nat -> (j < n)%nat ->
    nth (k * n + j) (flat_map f ys) dB = nth j (f (nth k ys dA)) dB.
Proof.
  induction ys as [|y ys IH]; intros k j Hlen Hk Hj; [cbn in Hk; lia|].
  cbn [flat_map]. destruct k as [|k].
  - cbn [nth Nat.mul Nat.add]. apply app_nth1. rewrite Hlen by (left; auto). lia.
  - cbn [nth]. rewrite app_nth2; rewrite (Hlen y) by (left; auto); [|lia].
    replace (S k * n + j - n)%nat with (k * n + j)%nat by lia.
    apply IH; [|cbn in Hk; lia|lia].
    intros y' Hy'. apply Hlen. now right.
Qed.

Lemma length_rows {B : Type} (f : Z -> Z -> B) (w h : Z) :
  length (flat_map (fun y => map (fun x => f x y) (zrange w)) (zrange h))
  = (Z.to_nat h * Z.to_nat w)%nat.
Proof.
  unfold zrange.
  assert (Hlen : forall ys : list nat,
    length (flat_map (fun y => map (fun x => f x y)
                                   (map Z.of_nat (seq 0 (Z.to_nat w))))
                     (map Z.of_nat ys))
    = (length ys * Z.to_nat w)%nat).
  { induction ys as [|y ys IH]; [reflexivity|].
    cbn [map flat_map length]. rewrite length_app, IH, !length_map, length_seq.
    lia. }
  now rewrite Hlen, length_seq.
Qed.

Lemma nth_rows {B : Type} (f : Z -> Z -> B) (w h x y : Z) (d : B) :
  (0 <= x < w)%Z -> (0 <= y < h)%Z ->
  nth (Z.to_nat (y * w + x))
      (flat_map (fun y => map (fun x => f x y) (zrange w)) (zrange h)) d
  = f x y.
Proof.
  intros Hx Hy.
  replace (Z.to_nat (y * w + x))
    with (Z.to_nat y * Z.to_nat w + Z.to_nat x)%nat by nia.
  rewrite (nth_flat_map_rows _ (Z.to_nat w) 0%Z).
  - rewrite nth_zrange by lia.
    rewrite (nth_indep _ d (f 0%Z (Z.of_nat (Z.to_nat y))))
      by (unfold zrange; rewrite !length_map, length_seq; lia).
    rewrite (map_nth (fun x0 => f x0 (Z.of_nat (Z.to_nat y)))).
    rewrite nth_zrange by lia. now rewrite !Z2Nat.id by lia.
  - intros y' _. unfold zrange. now rewrite !length_map, length_seq.
  - unfold zrange. rewrite length_map, length_seq. lia.
  - lia.
Qed.

End ListFacts.

Module LevelsFacts.
Import Levels.

(** The example of the specification (scenario S6). *)
Example generateLevels_S6 :
  generateLevels 9 0 256 32 = Some [0; 32; 64; 96; 128; 160; 192; 224].
Proof. reflexivity. Qed.

End LevelsFacts.

Module LevelsProofs.
Import Levels.

Lemma levelAt_S (min interval : Q) (k : nat) :
  levelAt (Num.add min interval) interval k == levelAt min interval (S k).
Proof.
  unfold levelAt. rewrite add_eq, Nat2Z.inj_succ.
  unfold Z.succ. rewrite inject_Z_plus. change (inject_Z 1) with 1. ring.
Qed.

(** Running the loop from [level], when at most [m] more iterations fit
    below [max]: it stops within [m + 1] tests and has pushed exactly the
    values [level + k * interval] that lie below [max]. *)
Lemma loop_runs (max interval : Q) (Hpos : 0 < interval) :
  forall (m : nat) (level : Q) (acc : list Q),
    max - level <= inject_Z (Z.of_nat m) * interval ->
    exists ls : list Q,
      (length ls <= m)%nat /\
      (forall fuel, (length ls < fuel)%nat ->
         generateLevels_loop fuel level max interval acc = Some (acc ++ ls)) /\
      (forall k, (k < length ls)%nat ->
         nth k ls 0 == levelAt level interval k) /\
      (forall k, levelAt level interval k < max <-> (k < length ls)%nat).
Proof.
  assert (Hstop : forall (m : nat) level acc, max <= level ->
    (length (@nil Q) <= m)%nat /\
    (forall fuel, (length (@nil Q) < fuel)%nat ->
       generateLevels_loop fuel level max interval acc = Some (acc ++ [])) /\
    (forall k, (k < length (@nil Q))%nat ->
       nth k [] 0 == levelAt level interval k) /\
    (forall k, levelAt level interval k < max <-> (k < length (@nil Q))%nat)).
  { intros m level acc Hge. cbn [length]. repeat split; try lia.
    - intros [|fuel] Hf; [lia|]. cbn [generateLevels_loop].
      apply ltb_ge in Hge. rewrite Hge. now rewrite app_nil_r.
    - intros H. exfalso. unfold levelAt in H.
      assert (0 <= inject_Z (Z.of_nat k) * interval).
      { apply Qmult_le_0_compat; [|lra].
        change 0 with (inject_Z 0). rewrite <- Zle_Qle. lia. }
      lra. }
  induction m as [|m IH]; intros level acc Hm.
  - change (inject_Z (Z.of_nat 0)) with 0 in Hm. rewrite Qmult_0_l in Hm.
    exists []. apply Hstop. lra.
  - destruct (Num.ltb level max) eqn:E.
    + pose proof (proj1 (ltb_lt _ _) E) as Hlt.
      destruct (IH (Num.add level interval) (acc ++ [level]))
        as (ls & Hlen & Hrun & Hnth & Hiff).
      { rewrite add_eq. rewrite Nat2Z.inj_succ in Hm. unfold Z.succ in Hm.
        rewrite inject_Z_plus in Hm. change (inject_Z 1) with 1 in Hm.
        lra. }
      exists (level :: ls). cbn [length]. repeat split.
      * lia.
      * intros [|fuel] Hf; [lia|]. cbn [generateLevels_loop]. rewrite E.
        rewrite Hrun by lia. now rewrite <- app_assoc.
      * intros [|k] Hk; cbn [nth].
        -- unfold levelAt. change (inject_Z (Z.of_nat 0)) with 0. ring.
        -- rewrite Hnth by lia. apply levelAt_S.
      * destruct k as [|k]; [lia|].
        intros H. rewrite <- levelAt_S in H. apply Hiff in H. lia.
      * destruct k as [|k]; intros Hk.
        -- unfold levelAt. change (inject_Z (Z.of_nat 0)) with 0. lra.
        -- rewrite <- levelAt_S. apply Hiff. lia.
    + apply ltb_ge in E. exists []. apply Hstop. exact E.
Qed.





End LevelsProofs.

Module ElevationProofs.
Import Elevation.

Example encodeMapbox_sea_level : encodeMapbox 0 = (1, 134, 160).
Proof. reflexivity. Qed.

Example encodeTerrarium_sea_level : encodeTerrarium 0 = (128, 0, 0).
Proof. reflexivity. Qed.

Example decodeTerrarium_1000 : decodeTerrarium 131 232 0 = 1000.
Proof. reflexivity. Qed.


Lemma toInt32_small (v : Z) :
  (0 <= v < 2 ^ 31)%Z -> Num.toInt32 v = v.
Proof.
  intros Hv. unfold Num.toInt32.
  rewrite Z.mod_small by lia. lia.
Qed.


Lemma floor_bounds (x : Q) :
  inject_Z (Qfloor x) <= x /\ x < inject_Z (Qfloor x) + 1.
Proof.
  split; [apply Qfloor_le|].
  pose proof (Qlt_floor x) as H.
  rewrite inject_Z_plus in H. exact H.
Qed.

(** On non-negative numbers truncation is [floor]. *)
Lemma trunc_floor (x : Q) : 0 <= x -> Num.trunc x = Qfloor x.
Proof.
  destruct x as [n d]. unfold Qle, Num.trunc, Qfloor. simpl.
  intros H. apply Z.quot_div_nonneg; lia.
Qed.





End ElevationProofs.

Module ResolutionProofs.
Import Reals Lra.
Local Open Scope R_scope.



Example getResolution64_zoom0 :
  Hillshade64.getResolution 0 256 = 0x1.31bf8457c1093p+17%float.
Proof. vm_compute. reflexivity. Qed.



End ResolutionProofs.

Module HillshadeProofs.
Import ListFacts.
Import Reals Lra.
Import GridModel Hillshade.
Local Open Scope R_scope.



Lemma createGrid_valid (d : list R) (w h : Z) :
  validDims d w h -> createGrid d w h = Some (mkGrid d w h).
Proof.
  intros (Hw & Hh & Hlen). unfold createGrid.
  destruct (length d =? 0)%nat eqn:E0.
  { apply Nat.eqb_eq in E0. nia. }
  replace (w <=? 0)%Z with false by (symmetry; apply Z.leb_gt; lia).
  replace (h <=? 0)%Z with false by (symmetry; apply Z.leb_gt; lia).
  cbn [orb]. rewrite (proj2 (Z.eqb_eq _ _) Hlen). reflexivity.
Qed.








Lemma validateSunPosition_ok (altitude azimuth : R) :
  0 <= altitude <= 90 -> 0 <= azimuth <= 360 ->
  validateSunPosition altitude azimuth = true.
Proof.
  intros Ha Hz. unfold validateSunPosition.
  repeat (destruct (Rlt_dec _ _); [lra|]). reflexivity.
Qed.

(** What [hillshade] returns on valid input, pixel by pixel. *)
Lemma hillshade_returns (d : list R) (w h : Z) (cellSize altitude azimuth : R) :
  validDims d w h -> 0 <= altitude <= 90 -> 0 <= azimuth <= 360 ->
  hillshade d w h cellSize altitude azimuth
  = Some (renderGrid w h (fun x y =>
            computePixelHillshadeFast (mkGrid d w h) x y (1 / (8 * cellSize))
              (sin (zenithRad altitude) * cos (azimuthRad azimuth))
              (sin (zenithRad altitude) * sin (azimuthRad azimuth))
              (cos (zenithRad altitude))
              (255 * cos (zenithRad altitude)))).
Proof.
  intros Hv Ha Hz. unfold hillshade.
  now rewrite (createGrid_valid _ _ _ Hv), (validateSunPosition_ok _ _ Ha Hz).
Qed.

(** Reading pixel [(x, y)] back from a rendered grid. *)
Lemma gridGetAt_renderGrid (w h : Z) (pixel : Z -> Z -> R) (x y : Z) :
  (0 <= x < w)%Z -> (0 <= y < h)%Z ->
  gridGetAt 0 (renderGrid w h pixel) (y * w + x) = pixel x y.
Proof.
  intros Hx Hy. unfold gridGetAt.
  replace (y * w + x <? 0)%Z with false by (symmetry; apply Z.ltb_ge; nia).
  now apply nth_rows.
Qed.






Lemma pixelAt_renderGrid (w h : Z) (pixel : Z -> Z -> R) (x y : Z) :
  (0 <= x < w)%Z -> (0 <= y < h)%Z ->
  pixelAt (renderGrid w h pixel) x y = pixel x y.
Proof.
  intros Hx Hy. unfold pixelAt. now apply gridGetAt_renderGrid.
Qed.

Lemma hillshadeSlopeAspect_returns (d : list R) (w h : Z)
      (cellSize altitude azimuth : R) :
  validDims d w h -> 0 <= altitude <= 90 -> 0 <= azimuth <= 360 ->
  hillshadeSlopeAspect d w h cellSize altitude azimuth
  = Some (renderGrid w h (fun x y =>
            computePixelHillshade (mkGrid d w h) x y cellSize
              (azimuthRad azimuth)
              (cos (zenithRad altitude)) (sin (zenithRad altitude)))).
Proof.
  intros Hv Ha Hz. unfold hillshadeSlopeAspect.
  now rewrite (createGrid_valid _ _ _ Hv), (validateSunPosition_ok _ _ Ha Hz).
Qed.

Lemma clamp_id (v : R) : 0 <= v <= 255 -> Rmax 0 (Rmin 255 v) = v.
Proof.
  intros Hv. rewrite Rmin_right by lra. apply Rmax_right. lra.
Qed.





(** The Sobel gradient at the middle of a one-column grid of three rows. *)
Lemma sobel_column (a0 a1 a2 : R) :
  sobelX (mkGrid [a0; a1; a2] 1 3) 0 1 = 0 /\
  sobelY (mkGrid [a0; a1; a2] 1 3) 0 1 = 4 * (a2 - a0).
Proof.
  unfold sobelX, sobelY, gridGet, gridGetAt. cbn.
  change (Pos.to_nat 1) with 1%nat. change (Pos.to_nat 2) with 2%nat.
  split; ring.
Qed.

Lemma atan2_up (v : R) : 0 < v -> atan2 v (- 0) = PI / 2.
Proof.
  intros Hv. unfold atan2. rewrite Ropp_0.
  destruct (Rlt_dec 0 0) as [H|_]; [lra|].
  destruct (Rlt_dec 0 v) as [_|H]; [reflexivity | lra].
Qed.


Lemma zenith_45 : zenithRad 45 = PI / 4.
Proof. unfold zenithRad. field. Qed.

(** The slope/aspect kernel on a gradient pointing down the rows
    ([dz/dx = 0], [dz/dy = m > 0]). *)
Lemma slope_aspect_column (grid : Grid R) (x y : Z)
      (cellSize azr cosZ sinZ m : R) :
  sobelX grid x y = 0 -> sobelY grid x y / (8 * cellSize) = m -> 0 < m ->
  computePixelHillshade grid x y cellSize azr cosZ sinZ
  = Rmax 0 (Rmin 255 (255 * (cosZ * (1 / sqrt (1 + m * m))
                             + sinZ * (m / sqrt (1 + m * m))
                               * cos (azr - PI / 2)))).
Proof.
  intros HX HY Hm. unfold computePixelHillshade. rewrite HX, HY.
  replace (0 / (8 * cellSize)) with 0 by (unfold Rdiv; ring).
  replace (0 * 0 + m * m) with (m * m) by ring.
  rewrite sqrt_square by lra. rewrite (atan2_up m Hm).
  destruct (Rlt_dec (PI / 2) 0) as [H|_]; [pose proof PI_RGT_0; lra|].
  rewrite cos_atan, sin_atan. reflexivity.
Qed.


(** The kernel in use on the same kind of gradient, above the threshold. *)
Lemma fast_column (grid : Grid R) (x y : Z) (gs sx sy sz flat m : R) :
  sobelX grid x y = 0 -> sobelY grid x y * gs = m ->
  FLAT_THRESHOLD_SQ <= m * m ->
  computePixelHillshadeFast grid x y gs sx sy sz flat
  = let illumination := 255 * ((- sy * m + sz) / sqrt (m * m + 1)) in
    if Rlt_dec illumination 0 then 0
    else if Rlt_dec 255 illumination then 255 else illumination.
Proof.
  intros HX HY Hm. unfold computePixelHillshadeFast. rewrite HX, HY.
  replace (0 * gs * (0 * gs) + m * m) with (m * m) by ring.
  destruct (Rlt_dec (m * m) FLAT_THRESHOLD_SQ) as [H|_]; [lra|].
  replace (- sx * (0 * gs) - sy * m + sz) with (- sy * m + sz) by ring.
  reflexivity.
Qed.

Lemma azimuth_north : azimuthRad 0 = PI / 2 + 2 * PI.
Proof. unfold azimuthRad. field. Qed.

(** Above the threshold the two kernels disagree on the sign of the
    north-south term.  One column [0; 0; 2] with unit cells, sun at altitude
    45 in the north: the slope/aspect kernel lights the middle pixel fully
    (255), the kernel in use leaves it dark (0). *)
Lemma hillshade_kernels_differ_in_sign_of_dzdy :
  exists fast slow : Grid R,
    hillshade [0; 0; 2] 1 3 1 45 0 = Some fast /\
    hillshadeSlopeAspect [0; 0; 2] 1 3 1 45 0 = Some slow /\
    pixelAt fast 0 1 = 0 /\
    pixelAt slow 0 1 = 255.
Proof.
  assert (Hv : validDims [0; 0; 2] 1 3) by (repeat split; reflexivity).
  rewrite (hillshade_returns _ _ _ 1 45 0 Hv) by lra.
  rewrite (hillshadeSlopeAspect_returns _ _ _ 1 45 0 Hv) by lra.
  do 2 eexists. split; [reflexivity|]. split; [reflexivity|].
  rewrite !pixelAt_renderGrid by lia.
  destruct (sobel_column 0 0 2) as [HX HY].
  assert (Hs2 : sqrt 2 * sqrt 2 = 2) by (apply sqrt_sqrt; lra).
  assert (Hp2 : 0 < sqrt 2) by (apply sqrt_lt_R0; lra).
  rewrite zenith_45, azimuth_north.
  rewrite sin_plus, cos_plus, sin_2PI, cos_2PI, sin_PI2, cos_PI2.
  rewrite sin_PI4, cos_PI4.
  split.
  - rewrite (fast_column _ _ _ _ _ _ _ _ 1 HX);
      [|rewrite HY; field|unfold FLAT_THRESHOLD_SQ; lra].
    cbv zeta. replace (1 * 1 + 1) with 2 by ring.
    replace (255 * ((- (1 / sqrt 2 * (1 * 1 + 0 * 0)) * 1 + 1 / sqrt 2)
                    / sqrt 2))
      with 0 by (field; lra).
    destruct (Rlt_dec 0 0) as [H|_]; [lra|].
    destruct (Rlt_dec 255 0) as [H|_]; [lra|]. reflexivity.
  - rewrite (slope_aspect_column _ _ _ _ _ _ _ 1 HX); [|rewrite HY; field|lra].
    replace (PI / 2 + 2 * PI - PI / 2) with (2 * PI) by field.
    rewrite cos_2PI. replace (1 + 1 * 1) with 2 by ring.
    replace (255 * (1 / sqrt 2 * (1 / sqrt 2) + 1 / sqrt 2 * (1 / sqrt 2) * 1))
      with 255.
    + apply clamp_id. lra.
    + field_simplify; [|lra]. rewrite <- Rsqr_pow2. unfold Rsqr.
      rewrite Hs2. field.
Qed.

End HillshadeProofs.

Module SmoothProofs.
Import ListFacts.
Import Smooth.

Example smoothOpenLine_two_points :
  smoothCoords [(0, 0); (4, 0)] (mkSmoothOptions (Some 1%Z) None) None
  = [(0, 0); (1, 0); (3, 0); (3, 0); (4, 0)].
Proof. reflexivity. Qed.

Lemma abs_eq (a : Q) : Num.abs a == Qabs a.
Proof. apply Qred_correct. Qed.

Lemma isClosedRing_apart (coords : list Position) :
  endsApart coords -> isClosedRing coords = false.
Proof.
  intros Hopen. unfold isClosedRing.
  destruct (length coords <? 4)%nat; [reflexivity|].
  apply not_true_is_false. intros Hc. apply Hopen.
  apply andb_true_iff in Hc. destruct Hc as [Hx Hy].
  apply ltb_lt in Hx, Hy. rewrite abs_eq, sub_eq in Hx, Hy. now split.
Qed.

Lemma smoothOpenLine_ends (coords : list Position) (its : Z) (fac : Q) :
  (2 <= length coords)%nat ->
  hd_error (smoothOpenLine coords its fac) = Some (nth 0 coords noPosition) /\
  last (smoothOpenLine coords its fac) noPosition
  = nth (length coords - 1) coords noPosition.
Proof.
  intros Hn. unfold smoothOpenLine.
  destruct ((its <=? 0)%Z || (length coords <? 2)%nat).
  - destruct coords as [|p coords]; [cbn in Hn; lia|]. split; [reflexivity|].
    apply last_nth.
  - split; [reflexivity|].
    rewrite app_assoc. apply last_last.
Qed.

(** C7. Chaikin endpoints: for every open polyline of at least two
    coordinates whose first and last points do not coincide within 1e-10,
    and for every [iterations] and [factor] option, smoothing returns a list
    whose first element is the original [coords[0]] and whose last element
    is the original [coords[n - 1]]. *)
Theorem smooth_open_line_keeps_endpoints :
  forall (coords : list Position) (options : SmoothOptions),
    (2 <= length coords)%nat ->
    endsApart coords ->
    hd_error (smoothCoords coords options None)
    = Some (nth 0 coords noPosition) /\
    last (smoothCoords coords options None) noPosition
    = nth (length coords - 1) coords noPosition.
Proof.
  intros coords options Hn Hopen. unfold smoothCoords.
  replace (length coords <? 2)%nat with false
    by (symmetry; apply Nat.ltb_ge; lia).
  rewrite (isClosedRing_apart _ Hopen). cbn [orb].
  now apply smoothOpenLine_ends.
Qed.

Lemma smooth_open_line_keeps_endpoints_witness :
  hd_error (smoothCoords [(0, 0); (4, 0); (4, 4); (0, 1)]
                         (mkSmoothOptions None None) None)
  = Some (0, 0) /\
  last (smoothCoords [(0, 0); (4, 0); (4, 4); (0, 1)]
                     (mkSmoothOptions None None) None) noPosition
  = (0, 1).
Proof.
  apply (smooth_open_line_keeps_endpoints
           [(0, 0); (4, 0); (4, 4); (0, 1)] (mkSmoothOptions None None)).
  - cbn. lia.
  - unfold endsApart. cbn. intros [_ H]. revert H. apply Qle_not_lt.
    discriminate.
Defined.

End SmoothProofs.

Module ContourProofs.
Import GeoJSON Contour.

Example traceLines_case_01 :
  traceLines [1; 0; 0; 0] 2 2 [1 # 2]
  = Some [lineString [(0, 1 # 2); (1 # 2, 0)] (levelProps (1 # 2))].
Proof. vm_compute. reflexivity. Qed.

Example traceLines_case_05 :
  traceLines [1; 0; 0; 1] 2 2 [1 # 2]
  = Some [lineString [(0, 1 # 2); (1 # 2, 1)] (levelProps (1 # 2));
          lineString [(1, 1 # 2); (1 # 2, 0)] (levelProps (1 # 2))].
Proof. vm_compute. reflexivity. Qed.

Lemma saddle_segments_disjoint :
  AppendixA.disjointSegments [AppendixA.lm; AppendixA.tm]
                             [AppendixA.rm; AppendixA.bm] /\
  AppendixA.disjointSegments [AppendixA.bm; AppendixA.lm]
                             [AppendixA.tm; AppendixA.rm].
Proof.
  split; intros p q Hp Hq [Hx Hy]; cbn in Hp, Hq;
    repeat match goal with
           | H : _ \/ _ |- _ => destruct H
           | H : False |- _ => destruct H
           end; subst; cbn in Hx, Hy; discriminate.
Qed.

(** C1. Marching-squares completeness on the 2 x 2 grid with corner values
    in {0, 1} and threshold 0.5: [traceLines] emits exactly the segments
    that the case table of Appendix A lists for the case index (bits TL=1,
    TR=2, BR=4, BL=8, set where the corner is [>= level]), each as one line
    carrying the level; cases 0 and 15 give no line, cases 5 and 10 give
    exactly two disjoint segments, every other case exactly one segment
    between edge midpoints. *)
Theorem marching_squares_case_table :
  forall tl tr br bl : Q,
    In tl [0; 1] -> In tr [0; 1] -> In br [0; 1] -> In bl [0; 1] ->
    let case := AppendixA.caseIndex tl tr br bl (1 # 2) in
    let listed := AppendixA.segments case AppendixA.lm AppendixA.tm
                                     AppendixA.rm AppendixA.bm in
    traceLines [tl; tr; bl; br] 2 2 [1 # 2]
    = Some (map (fun seg => lineString seg (levelProps (1 # 2))) listed) /\
    (case = 0%Z \/ case = 15%Z -> listed = []) /\
    (case = 5%Z \/ case = 10%Z ->
       exists s1 s2, listed = [s1; s2] /\ AppendixA.disjointSegments s1 s2) /\
    (~ In case [0; 5; 10; 15]%Z -> exists s, listed = [s]).
Proof.
  intros tl tr br bl Htl Htr Hbr Hbl.
  destruct saddle_segments_disjoint as [H5 H10].
  cbn in Htl, Htr, Hbr, Hbl.
  destruct Htl as [<-|[<-|[]]], Htr as [<-|[<-|[]]],
           Hbr as [<-|[<-|[]]], Hbl as [<-|[<-|[]]];
    (split; [vm_compute; reflexivity|]);
    cbn; (split; [|split]);
    try (intros [H|H]; try discriminate H; try reflexivity);
    try (now do 2 eexists; split; [reflexivity|]);
    try (intros _; now eexists);
    try (intros H; exfalso; apply H; cbn; tauto).
Qed.

Lemma marching_squares_case_table_witness :
  let case := AppendixA.caseIndex 1 0 1 0 (1 # 2) in
  let listed := AppendixA.segments case AppendixA.lm AppendixA.tm
                                   AppendixA.rm AppendixA.bm in
  traceLines [1; 0; 0; 1] 2 2 [1 # 2]
  = Some (map (fun seg => lineString seg (levelProps (1 # 2))) listed) /\
  (case = 0%Z \/ case = 15%Z -> listed = []) /\
  (case = 5%Z \/ case = 10%Z ->
     exists s1 s2, listed = [s1; s2] /\ AppendixA.disjointSegments s1 s2) /\
  (~ In case [0; 5; 10; 15]%Z -> exists s, listed = [s]).
Proof.
  apply (marching_squares_case_table 1 0 1 0); cbn; tauto.
Defined.

Example tracePolygons_S3 :
  tracePolygons [1; 0; 0; 1] 2 2 [1 # 2]
  = Some [polygon [[(0, 1 # 2); (1 # 2, 1); (1, 1); (1, 1 # 2); (1 # 2, 0);
                    (0, 0); (0, 1 # 2)]]
                  (levelProps (1 # 2))].
Proof. vm_compute. reflexivity. Qed.

End ContourProofs.

Module TransformProofs.
Import ListFacts.
Import GeoJSON Transform ClipSpec.

(** A square covering the tile with a square hole, as in the test suite
    (buffer 4, default tile size and extent). *)
Example clip_square_with_hole :
  transformAndClipPolygonFeatures
    [polygon [[(0, 0); (264, 0); (264, 264); (0, 264); (0, 0)];
              [(100, 100); (150, 100); (150, 150); (100, 150); (100, 100)]]
             (levelProps 128)]
    (mkTransformConfig 4 None None)
  = [polygon [[(0, 4096); (0, 0); (4096, 0); (4096, 4096); (0, 4096)];
              [(1536, 1536); (2336, 1536); (2336, 2336); (1536, 2336);
               (1536, 1536)]]
             (levelProps 128)].
Proof. vm_compute. reflexivity. Qed.

Lemma clipRingInto_push (config : TransformConfig)
      (acc : list (list Coordinate)) (ring : list Coordinate) :
  clipRingInto config acc ring
  = acc ++ (if (4 <=? length (clipped config ring))%nat
            then [reclosed (clipped config ring)] else []).
Proof.
  unfold clipRingInto, clipped.
  generalize (clipPolygonRingToBox (map (createTransform config) ring) 0 0
                                   (extentOf config) (extentOf config)).
  intros c. destruct (4 <=? length c)%nat; [|now rewrite app_nil_r].
  f_equal. unfold reclosed, Num.eqb.
  destruct (Qeq_bool _ _), (Qeq_bool _ _); reflexivity.
Qed.

(** Keeping the rings that pass a test, over any clipping function. *)
Lemma push_kept_rings (clip : list Coordinate -> list Coordinate) :
  forall (rs : list (list Coordinate)) (acc : list (list Coordinate)),
    fold_left (fun acc ring =>
                 acc ++ (if (4 <=? length (clip ring))%nat
                         then [reclosed (clip ring)] else []))
              rs acc
    = acc ++ map reclosed
               (filter (fun ring => (4 <=? length ring)%nat) (map clip rs)).
Proof.
  induction rs as [|r rs IH]; intros acc; cbn [fold_left map filter].
  - now rewrite app_nil_r.
  - rewrite IH. destruct (4 <=? length (clip r))%nat; cbn [map].
    + now rewrite <- app_assoc.
    + now rewrite app_nil_r.
Qed.

Lemma clipped_rings_survive (config : TransformConfig) (f : Feature) :
  fold_left (clipRingInto config) (ringsOf f) [] = survivingRings config f.
Proof.
  unfold survivingRings.
  rewrite (fold_left_same _ _ _ _ (clipRingInto_push config)).
  apply (push_kept_rings (clipped config) (ringsOf f) []).
Qed.

(** Feature by feature, the loop emits what [ClipSpec.emitted] lists. *)
Lemma clip_emits (features : list Feature) (config : TransformConfig) :
  transformAndClipPolygonFeatures features config
  = flat_map (emitted config) features.
Proof.
  unfold transformAndClipPolygonFeatures.
  enough (H : forall fs acc,
    fold_left
      (fun result feature =>
         let transformedRings :=
           fold_left (clipRingInto config) (ringsOf feature) [] in
         if (0 <? length transformedRings)%nat
         then result ++ [polygon transformedRings (propertiesOrEmpty feature)]
         else result) fs acc
    = acc ++ flat_map (emitted config) fs)
    by apply (H _ []).
  induction fs as [|f fs IH]; intros acc; cbn [fold_left flat_map].
  - now rewrite app_nil_r.
  - rewrite IH. cbv zeta. rewrite clipped_rings_survive. unfold emitted.
    destruct (survivingRings config f) as [|r rs].
    + reflexivity.
    + change (0 <? length (r :: rs))%nat with true. cbv iota.
      now rewrite <- app_assoc.
Qed.

Lemma reclosed_closed (ring : list Position) :
  (4 <= length ring)%nat ->
  (4 <= length (reclosed ring))%nat /\ closedExactly (reclosed ring).
Proof.
  intros Hlen. unfold reclosed.
  set (first := nth 0 ring noPosition).
  set (l := nth (length ring - 1) ring noPosition).
  assert (Hhd : forall tail, hd_error (ring ++ tail) = Some first).
  { intros tail. unfold first. destruct ring; [cbn in Hlen; lia|reflexivity]. }
  unfold closedExactly.
  destruct (Qeq_bool (fst first) (fst l) && Qeq_bool (snd first) (snd l)) eqn:E;
    cbv iota.
  - split; [exact Hlen|]. exists first. split.
    + rewrite <- (app_nil_r ring). apply Hhd.
    + rewrite ListFacts.last_nth.
      rewrite (nth_indep _ first noPosition) by lia.
      fold l. apply andb_true_iff in E. destruct E as [Ex Ey].
      apply Qeq_bool_iff in Ex, Ey. split; symmetry; assumption.
  - split; [rewrite length_app; cbn [length]; lia|].
    exists first. split; [apply Hhd|].
    rewrite last_last. split; reflexivity.
Qed.

Lemma emitted_rings_closed (config : TransformConfig) (f out : Feature) :
  In out (emitted config f) ->
  forall ring, In ring (ringsOf out) ->
               (4 <= length ring)%nat /\ closedExactly ring.
Proof.
  intros Hout ring Hin. unfold emitted in Hout.
  destruct (survivingRings config f) as [|r rs] eqn:E; [destruct Hout|].
  destruct Hout as [<-|[]]. cbn [ringsOf geometry] in Hin.
  rewrite <- E in Hin. unfold survivingRings in Hin.
  apply in_map_iff in Hin. destruct Hin as (c & <- & Hc).
  apply filter_In in Hc. destruct Hc as [_ Hc].
  apply Nat.leb_le in Hc. now apply reclosed_closed.
Qed.




End TransformProofs.

Module RingClosureProofs.
Import ListFacts.
Import GridModel GeoJSON Contour.

Lemma length_setNth {A : Type} (i : nat) (v : A) (l : list A) :
  length (setNth i v l) = length l.
Proof.
  revert i. induction l as [|a l IH]; intros [|i]; cbn; auto.
Qed.

Lemma nth_setNth_same {A : Type} (i : nat) (v d : A) (l : list A) :
  (i < length l)%nat -> nth i (setNth i v l) d = v.
Proof.
  revert i. induction l as [|a l IH]; intros [|i] Hi; cbn in *;
    try lia; auto. apply IH. lia.
Qed.

Lemma hd_setNth {A : Type} (i : nat) (v : A) (l : list A) :
  (0 < i)%nat -> hd_error (setNth i v l) = hd_error l.
Proof.
  destruct l as [|a l], i as [|i]; intros Hi; cbn; auto; lia.
Qed.

Lemma storedRing_closed (r : list Coordinate) :
  storedRing r -> closedExactly r.
Proof.
  intros (_ & first & Hhd & Hlast). exists first.
  rewrite Hlast. split; [exact Hhd | split; reflexivity].
Qed.

Lemma collectPolys_stored (lines : list (list Coordinate)) (p : Poly) :
  In p (collectPolys lines) -> storedRing (ring p).
Proof.
  unfold collectPolys. rewrite in_flat_map. intros (line & _ & Hp).
  destruct (length (closeRing line) <? 4)%nat eqn:E; [destruct Hp|].
  apply Nat.ltb_ge in E. destruct Hp as [<-|[]]. cbn [ring].
  set (r0 := closeRing line) in *. split.
  - now rewrite length_setNth.
  - exists (nth 0 r0 noCoordinate). split.
    + rewrite hd_setNth by lia. destruct r0; [cbn in E; lia | reflexivity].
    + rewrite ListFacts.last_nth, length_setNth.
      apply nth_setNth_same. lia.
Qed.

Lemma In_insertByArea (p x : Poly) (l : list Poly) :
  In x (insertByArea p l) -> x = p \/ In x l.
Proof.
  induction l as [|q l IH]; cbn.
  - intros [<-|[]]. now left.
  - destruct (Num.ltb (area p) (area q)); cbn.
    + intros [<-|H]; [right; now left|].
      destruct (IH H) as [->|H']; [now left | right; now right].
    + intros [<-|H]; [now left | now right].
Qed.

Lemma In_sortByArea (x : Poly) (l : list Poly) :
  In x (sortByArea l) -> In x l.
Proof.
  induction l as [|p l IH]; cbn; [auto|].
  intros H. apply In_insertByArea in H. destruct H as [->|H]; auto.
Qed.

Lemma collectHoles_stored (polys : list Poly) (i : nat) (used : list nat) :
  (forall p, In p polys -> storedRing (ring p)) ->
  forall r, In r (fst (collectHoles polys i used)) -> storedRing r.
Proof.
  intros Hpolys. unfold collectHoles.
  apply (fold_left_keeps
           (fun acc : list (list Coordinate) * list nat =>
              forall r, In r (fst acc) -> storedRing r)).
  - intros r [].
  - intros [holes used'] j Hj Hacc.
    destruct (existsb (Nat.eqb j) used'); [exact Hacc|].
    destruct (isInsidePolygon _ _ _); [|exact Hacc].
    cbn [fst] in *. intros r Hr. apply in_app_or in Hr.
    destruct Hr as [Hr|[<-|[]]]; [now apply Hacc|].
    apply Hpolys. apply nth_In. apply in_seq in Hj. lia.
Qed.

Lemma assignHoles_stored (polys : list Poly) (level : Q) :
  (forall p, In p polys -> storedRing (ring p)) ->
  forall f, In f (assignHoles polys level) ->
  forall r, In r (ringsOf f) -> storedRing r.
Proof.
  intros Hpolys. unfold assignHoles.
  apply (fold_left_keeps
           (fun acc : list Feature * list nat =>
              forall f, In f (fst acc) ->
              forall r, In r (ringsOf f) -> storedRing r)).
  - intros f [].
  - intros [result used] i Hi Hacc.
    destruct (existsb (Nat.eqb i) used); [exact Hacc|].
    pose proof (collectHoles_stored polys i used Hpolys) as Hholes.
    destruct (collectHoles polys i used) as [holes used'].
    cbn [fst] in *. intros f Hf. apply in_app_or in Hf.
    destruct Hf as [Hf|[<-|[]]]; [now apply Hacc|].
    cbn [ringsOf polygon geometry]. intros r [<-|Hr]; [|now apply Hholes].
    apply Hpolys. apply nth_In. apply in_seq in Hi. lia.
Qed.

Lemma buildPolygonsWithHoles_stored (lines : list (list Coordinate))
      (level : Q) (f : Feature) (r : list Coordinate) :
  In f (buildPolygonsWithHoles lines level) -> In r (ringsOf f) ->
  storedRing r.
Proof.
  unfold buildPolygonsWithHoles. intros Hf Hr.
  apply (assignHoles_stored (sortByArea (collectPolys lines)) level) with f;
    [|exact Hf|exact Hr].
  intros p Hp. apply (collectPolys_stored lines). now apply In_sortByArea.
Qed.

(** C4. Ring closure: every ring of every polygon emitted by
    [tracePolygons], and every ring of every polygon emitted by
    [transformAndClipPolygonFeatures], has its first and its last position
    equal as exact values, not merely within the 1e-10 tolerance. *)
Theorem ring_closure :
  (forall (data : list Q) (width height : Z) (levels : list Q)
          (features : list Feature),
      tracePolygons data width height levels = Some features ->
      forall f, In f features ->
      forall r, In r (ringsOf f) -> closedExactly r) /\
  (forall (features : list Feature) (config : Transform.TransformConfig),
      forall f, In f (Transform.transformAndClipPolygonFeatures
                        features config) ->
      forall r, In r (ringsOf f) -> closedExactly r).
Proof.
  split.
  - intros data w h levels features Htrace f Hf r Hr.
    unfold tracePolygons in Htrace.
    destruct (createGrid data w h) as [grid|]; [|discriminate].
    injection Htrace as <-. apply in_flat_map in Hf.
    destruct Hf as (level & _ & Hf).
    apply storedRing_closed.
    exact (buildPolygonsWithHoles_stored _ _ _ _ Hf Hr).
  - intros features config f Hf r Hr.
    rewrite TransformProofs.clip_emits in Hf. apply in_flat_map in Hf.
    destruct Hf as (f0 & _ & Hf).
    exact (proj2 (TransformProofs.emitted_rings_closed config f0 f Hf r Hr)).
Qed.

Lemma ring_closure_witness :
  closedExactly [(0, 1 # 2); (1 # 2, 1); (1, 1); (1, 1 # 2); (1 # 2, 0);
                 (0, 0); (0, 1 # 2)] /\
  closedExactly [(0, 4096); (0, 0); (4096, 0); (4096, 4096); (0, 4096)].
Proof.
  split.
  - apply (proj1 ring_closure [1; 0; 0; 1] 2%Z 2%Z [1 # 2] _
                 ContourProofs.tracePolygons_S3 _ (or_introl eq_refl)).
    left. reflexivity.
  - apply (proj2 ring_closure
             [polygon [[(0, 0); (264, 0); (264, 264); (0, 264); (0, 0)]]
                      (levelProps 128)]
             (Transform.mkTransformConfig 4 None None)
             (polygon [[(0, 4096); (0, 0); (4096, 0); (4096, 4096);
                        (0, 4096)]] (levelProps 128))).
    + vm_compute. left. reflexivity.
    + left. reflexivity.
Defined.

End RingClosureProofs.

Module FetcherProofs.
Import ListFacts.
Import Fetcher.

Lemma promiseAll_outcome {A : Type} (ps : list (Result A)) :
  (exists l, promiseAll ps = Returns l /\
             length l = length ps /\
             forall i, (i < length ps)%nat ->
                       forall d d', nth i ps d = Returns (nth i l d')) \/
  (exists e, promiseAll ps = Throws e /\ In (Throws e) ps).
Proof.
  induction ps as [|p ps IH].
  - left. exists []. repeat split; auto. cbn. lia.
  - destruct p as [a|e].
    + destruct IH as [(l & Hl & Hlen & Hnth)|(e & He & Hin)].
      * left. exists (a :: l). cbn. rewrite Hl. cbn.
        repeat split; [now rewrite Hlen|].
        intros [|i] Hi d d'; [reflexivity|]. apply Hnth. lia.
      * right. exists e. cbn. rewrite He. split; [reflexivity | now right].
    + right. exists e. split; [reflexivity | now left].
Qed.

Section Errors.

Variable upstream : Upstream.
Variable sourceTileSize : Z.
Variable coord : TileCoord.

(** What [fetch3x3Neighborhood] amounts to: it throws exactly when one of
    the nine requests throws, and otherwise returns their nine results. *)
Lemma fetch3x3_outcome :
  (exists tiles,
      fetch3x3Neighborhood upstream (z coord) (x coord) (y coord)
      = Returns tiles /\
      fetchTilePixels upstream (z coord) (x coord) (y coord) = Returns (center tiles) /\
      fetchTilePixels upstream (z coord) (x coord - 1) (y coord) = Returns (left tiles) /\
      fetchTilePixels upstream (z coord) (x coord + 1) (y coord) = Returns (right tiles) /\
      fetchTilePixels upstream (z coord) (x coord) (y coord - 1) = Returns (top tiles) /\
      fetchTilePixels upstream (z coord) (x coord) (y coord + 1) = Returns (bottom tiles) /\
      fetchTilePixels upstream (z coord) (x coord - 1) (y coord - 1)
      = Returns (topLeft tiles) /\
      fetchTilePixels upstream (z coord) (x coord + 1) (y coord - 1)
      = Returns (topRight tiles) /\
      fetchTilePixels upstream (z coord) (x coord - 1) (y coord + 1)
      = Returns (bottomLeft tiles) /\
      fetchTilePixels upstream (z coord) (x coord + 1) (y coord + 1)
      = Returns (bottomRight tiles)) \/
  (raisesError (fetch3x3Neighborhood upstream (z coord) (x coord) (y coord)) /\
   (requestThrows upstream (z coord) (x coord) (y coord) \/
    exists n, In n (neighbours coord) /\
              requestThrows upstream (z coord) (fst n) (snd n))).
Proof.
  unfold fetch3x3Neighborhood, raisesError, requestThrows, neighbours.
  destruct (fetchTilePixels upstream (z coord) (x coord) (y coord)) as [c|e] eqn:E0;
    [|right; split; [now exists e | left; now exists e]].
  cbn [bind].
  destruct (fetchTilePixels upstream (z coord) (x coord - 1) (y coord)) as [t1|e] eqn:E1;
    [|right; split; [now exists e|right; eexists (_, _);
        split; [left; reflexivity|exists e; exact E1]]].
  destruct (fetchTilePixels upstream (z coord) (x coord + 1) (y coord)) as [t2|e] eqn:E2;
    [|right; split; [now exists e|right; eexists (_, _);
        split; [right; left; reflexivity|exists e; exact E2]]].
  destruct (fetchTilePixels upstream (z coord) (x coord) (y coord - 1)) as [t3|e] eqn:E3;
    [|right; split; [now exists e|right; eexists (_, _);
        split; [do 2 right; left; reflexivity|exists e; exact E3]]].
  destruct (fetchTilePixels upstream (z coord) (x coord) (y coord + 1)) as [t4|e] eqn:E4;
    [|right; split; [now exists e|right; eexists (_, _);
        split; [do 3 right; left; reflexivity|exists e; exact E4]]].
  cbn [promiseAll bind].
  destruct (fetchTilePixels upstream (z coord) (x coord - 1) (y coord - 1))
    as [t5|e] eqn:E5;
    [|right; split; [now exists e|right; eexists (_, _);
        split; [do 4 right; left; reflexivity|exists e; exact E5]]].
  destruct (fetchTilePixels upstream (z coord) (x coord + 1) (y coord - 1))
    as [t6|e] eqn:E6;
    [|right; split; [now exists e|right; eexists (_, _);
        split; [do 5 right; left; reflexivity|exists e; exact E6]]].
  destruct (fetchTilePixels upstream (z coord) (x coord - 1) (y coord + 1))
    as [t7|e] eqn:E7;
    [|right; split; [now exists e|right; eexists (_, _);
        split; [do 6 right; left; reflexivity|exists e; exact E7]]].
  destruct (fetchTilePixels upstream (z coord) (x coord + 1) (y coord + 1))
    as [t8|e] eqn:E8;
    [|right; split; [now exists e|right; eexists (_, _);
        split; [do 7 right; left; reflexivity|exists e; exact E8]]].
  left. eexists. cbn. repeat split; reflexivity.
Qed.

End Errors.

Lemma byteAt_writeByte_other (canvas : Canvas) (index value j : Z) :
  j <> index -> byteAt (writeByte canvas index value) j = byteAt canvas j.
Proof.
  intros Hj. unfold writeByte.
  destruct ((0 <=? index)%Z && (index <? canvasLength canvas)%Z);
    [|reflexivity].
  cbn [byteAt]. now rewrite (proj2 (Z.eqb_neq j index) Hj).
Qed.

Lemma copyPixel_other (tile : TilePixels) (cs offX offY ty tx : Z)
      (canvas : Canvas) (j : Z) :
  (forall k, (0 <= k < 4)%Z ->
             j <> (((offY + ty) * cs + (offX + tx)) * 4 + k)%Z) ->
  byteAt (copyPixel tile cs offX offY ty tx canvas) j = byteAt canvas j.
Proof.
  intros Hj. unfold copyPixel.
  rewrite !byteAt_writeByte_other; [reflexivity| | | |].
  - specialize (Hj 0%Z). lia.
  - apply (Hj 1%Z). lia.
  - apply (Hj 2%Z). lia.
  - apply (Hj 3%Z). lia.
Qed.

(** The four bytes of a canvas pixel determine the pixel. *)
Lemma pixel_index_injective (cs p a q b k k' : Z) :
  (0 <= a < cs)%Z -> (0 <= b < cs)%Z -> (0 <= k < 4)%Z -> (0 <= k' < 4)%Z ->
  ((p * cs + a) * 4 + k = (q * cs + b) * 4 + k')%Z ->
  p = q /\ a = b.
Proof.
  intros Ha Hb Hk Hk' H.
  assert (H1 : (p * cs + a = q * cs + b)%Z) by lia.
  assert (H2 : ((p - q) * cs = b - a)%Z) by lia.
  assert (H3 : (p - q = 0)%Z) by nia.
  lia.
Qed.

(** Copying a tile leaves every pixel outside its rectangle as it was. *)
Lemma copyTile_outside (tile : option TilePixels) (canvas : Canvas)
      (cs offX offY px py k : Z) :
  (0 <= k < 4)%Z -> (0 <= px < cs)%Z ->
  (forall t, tile = Some t ->
     (0 <= offX)%Z /\ (offX + pwidth t <= cs)%Z /\
     ~ ((offX <= px < offX + pwidth t)%Z /\
        (offY <= py < offY + pheight t)%Z)) ->
  byteAt (copyTileToCanvas tile canvas cs offX offY) ((py * cs + px) * 4 + k)
  = byteAt canvas ((py * cs + px) * 4 + k).
Proof.
  intros Hk Hpx Htile. destruct tile as [t|]; [|reflexivity].
  destruct (Htile t eq_refl) as (Hoff & Hfit & Hout).
  unfold copyTileToCanvas.
  apply (ListFacts.fold_left_keeps
           (fun c => byteAt c ((py * cs + px) * 4 + k)
                     = byteAt canvas ((py * cs + px) * 4 + k)));
    [reflexivity|].
  intros c ty Hty Hc.
  apply (ListFacts.fold_left_keeps
           (fun c => byteAt c ((py * cs + px) * 4 + k)
                     = byteAt canvas ((py * cs + px) * 4 + k)));
    [exact Hc|].
  intros c' tx Htx Hc'. rewrite copyPixel_other; [exact Hc'|].
  intros k' Hk' Heq.
  apply ListFacts.In_zrange in Hty, Htx.
  apply pixel_index_injective in Heq; try lia.
Qed.

Section Stitching.

Variable sourceTileSize : Z.
Hypothesis size_pos : (0 < sourceTileSize)%Z.

(** A slot whose tile is missing stays zero, whatever the other tiles
    hold. *)
Lemma stitch_keeps_missing_slot (tiles : Neighborhood) (slot : Z * Z)
      (px py k : Z) :
  In slot slots -> tileAt tiles slot = None ->
  neighborhoodFits sourceTileSize tiles ->
  inSlot sourceTileSize slot px py -> (0 <= k < 4)%Z ->
  byteAt (fst (stitchTiles sourceTileSize tiles))
         ((py * (sourceTileSize * 3) + px) * 4 + k) = 0%Z.
Proof.
  intros Hslot Hnone Hfit [Hx Hy] Hk.
  assert (Hfits : forall slot' t, In slot' slots ->
            tileAt tiles slot' = Some t ->
            (0 <= pwidth t <= sourceTileSize)%Z /\
            (0 <= pheight t <= sourceTileSize)%Z) by exact Hfit.
  unfold stitchTiles. cbn [fst].
  cbn in Hslot.
  repeat match goal with
         | H : _ \/ _ |- _ => destruct H as [<-|H]
         | H : False |- _ => destruct H
         end;
    cbn [tileAt fst snd] in *;
    repeat (rewrite copyTile_outside;
            [ | lia | lia
              | intros t Ht;
                first [ congruence
                      | let slot' :=
                          lazymatch type of Ht with
                          | topLeft _ = _ => constr:((0, 0)%Z)
                          | top _ = _ => constr:((1, 0)%Z)
                          | topRight _ = _ => constr:((2, 0)%Z)
                          | left _ = _ => constr:((0, 1)%Z)
                          | center _ = _ => constr:((1, 1)%Z)
                          | right _ = _ => constr:((2, 1)%Z)
                          | bottomLeft _ = _ => constr:((0, 2)%Z)
                          | bottom _ = _ => constr:((1, 2)%Z)
                          | bottomRight _ = _ => constr:((2, 2)%Z)
                          end in
                        destruct (Hfits slot' t) as [? ?];
                        [cbn; tauto | exact Ht | lia] ] ]);
    reflexivity.
Qed.

End Stitching.

Section FetchTile.

Variable upstream : Upstream.
Variable sourceTileSize : Z.
Variable coord : TileCoord.
Variable bufferPx : Z.
Hypothesis buffer_pos : (0 < bufferPx)%Z.
Hypothesis size_pos : (0 < sourceTileSize)%Z.

Lemma fetchTile_buffered :
  fetchTile upstream sourceTileSize coord bufferPx
  = bind (fetch3x3Neighborhood upstream (z coord) (x coord) (y coord))
         (fun tiles =>
            match center tiles with
            | None => Throws FailedToFetchCenterTile
            | Some _ =>
                Returns (sampleFromStitched sourceTileSize
                           (stitchTiles sourceTileSize tiles)
                           (TILE_SIZE + 2 * bufferPx) bufferPx)
            end).
Proof.
  unfold fetchTile.
  now replace (bufferPx =? 0)%Z with false by (symmetry; apply Z.eqb_neq; lia).
Qed.

Lemma fetchTile_raises_iff :
  raisesError (fetchTile upstream sourceTileSize coord bufferPx) <->
  ~ centerDecodes upstream coord \/
  exists n, In n (neighbours coord) /\
            requestThrows upstream (z coord) (fst n) (snd n).
Proof.
  rewrite fetchTile_buffered.
  destruct (fetch3x3_outcome upstream coord)
    as [(tiles & -> & Hc & H1 & H2 & H3 & H4 & H5 & H6 & H7 & H8)
       |((e & ->) & Hthrows)].
  - cbn [bind]. split.
    + intros [e He]. left. intros [p Hp]. rewrite Hc in Hp.
      injection Hp as Hp. rewrite Hp in He. discriminate He.
    + intros [Hno|(n & Hn & e & He)].
      * destruct (center tiles) as [p|]; [|now eexists].
        exfalso. apply Hno. now exists p.
      * exfalso. cbn in Hn.
        repeat match goal with
               | H : _ \/ _ |- _ => destruct H as [<-|H]
               | H : False |- _ => destruct H
               end; cbn [fst snd] in He; congruence.
  - cbn [bind]. split; [|intros _; now exists e].
    intros _. destruct Hthrows as [(e' & He')|Hn]; [|now right].
    left. intros [p Hp]. congruence.
Qed.

Lemma fits_from_upstream (tiles : Neighborhood) :
  tilesFit upstream sourceTileSize ->
  fetchTilePixels upstream (z coord) (x coord) (y coord)
  = Returns (center tiles) ->
  fetchTilePixels upstream (z coord) (x coord - 1) (y coord)
  = Returns (left tiles) ->
  fetchTilePixels upstream (z coord) (x coord + 1) (y coord)
  = Returns (right tiles) ->
  fetchTilePixels upstream (z coord) (x coord) (y coord - 1)
  = Returns (top tiles) ->
  fetchTilePixels upstream (z coord) (x coord) (y coord + 1)
  = Returns (bottom tiles) ->
  fetchTilePixels upstream (z coord) (x coord - 1) (y coord - 1)
  = Returns (topLeft tiles) ->
  fetchTilePixels upstream (z coord) (x coord + 1) (y coord - 1)
  = Returns (topRight tiles) ->
  fetchTilePixels upstream (z coord) (x coord - 1) (y coord + 1)
  = Returns (bottomLeft tiles) ->
  fetchTilePixels upstream (z coord) (x coord + 1) (y coord + 1)
  = Returns (bottomRight tiles) ->
  neighborhoodFits sourceTileSize tiles.
Proof.
  intros Hfit Hc H1 H2 H3 H4 H5 H6 H7 H8 slot t Hslot Ht.
  assert (Hdec : forall zz xx yy o,
            fetchTilePixels upstream zz xx yy = Returns o -> o = Some t ->
            upstream zz xx yy = Decodes t).
  { intros zz xx yy o Ho ->. unfold fetchTilePixels in Ho.
    destruct (_ || _ || _ || _); [discriminate|].
    destruct (upstream zz xx yy); try discriminate. congruence. }
  cbn in Hslot.
  repeat match goal with
         | H : _ \/ _ |- _ => destruct H as [<-|H]
         | H : False |- _ => destruct H
         end; cbn [tileAt] in Ht;
    lazymatch type of Ht with
    | topLeft _ = _ => exact (Hfit _ _ _ _ (Hdec _ _ _ _ H5 Ht))
    | top _ = _ => exact (Hfit _ _ _ _ (Hdec _ _ _ _ H3 Ht))
    | topRight _ = _ => exact (Hfit _ _ _ _ (Hdec _ _ _ _ H6 Ht))
    | left _ = _ => exact (Hfit _ _ _ _ (Hdec _ _ _ _ H1 Ht))
    | center _ = _ => exact (Hfit _ _ _ _ (Hdec _ _ _ _ Hc Ht))
    | right _ = _ => exact (Hfit _ _ _ _ (Hdec _ _ _ _ H2 Ht))
    | bottomLeft _ = _ => exact (Hfit _ _ _ _ (Hdec _ _ _ _ H7 Ht))
    | bottom _ = _ => exact (Hfit _ _ _ _ (Hdec _ _ _ _ H4 Ht))
    | bottomRight _ = _ => exact (Hfit _ _ _ _ (Hdec _ _ _ _ H8 Ht))
    end.
Qed.

Example sea_floor : terrariumToElevation 0 0 0 = -32768.
Proof. reflexivity. Qed.

(** An output pixel sampled from a slot whose tile is missing reads the
    elevation of three zero bytes. *)
Lemma sampled_from_missing_slot (tiles : Neighborhood) (slot : Z * Z)
      (ox oy : Z) :
  In slot slots -> tileAt tiles slot = None ->
  neighborhoodFits sourceTileSize tiles ->
  (0 <= ox < TILE_SIZE + 2 * bufferPx)%Z ->
  (0 <= oy < TILE_SIZE + 2 * bufferPx)%Z ->
  inSlot sourceTileSize slot
         (sourceIndex sourceTileSize (sourceTileSize * 3) bufferPx ox)
         (sourceIndex sourceTileSize (sourceTileSize * 3) bufferPx oy) ->
  elevationAt (sampleFromStitched sourceTileSize
                 (stitchTiles sourceTileSize tiles)
                 (TILE_SIZE + 2 * bufferPx) bufferPx) ox oy
  = -32768.
Proof.
  intros Hslot Hnone Hfit Hox Hoy Hin.
  pose proof (fun k => stitch_keeps_missing_slot sourceTileSize size_pos
                         tiles slot _ _ k Hslot Hnone Hfit Hin) as Hzero.
  assert (Hst : stitchTiles sourceTileSize tiles
                = (fst (stitchTiles sourceTileSize tiles),
                   (sourceTileSize * 3)%Z)) by reflexivity.
  revert Hzero. rewrite Hst. cbn [fst]. clear Hst.
  generalize (fst (stitchTiles sourceTileSize tiles)). intros canvas Hzero.
  unfold elevationAt, sampleFromStitched. cbn [grid width].
  rewrite nth_rows by assumption.
  set (px := sourceIndex sourceTileSize (sourceTileSize * 3) bufferPx ox) in *.
  set (py := sourceIndex sourceTileSize (sourceTileSize * 3) bufferPx oy) in *.
  rewrite (Hzero 1%Z), (Hzero 2%Z) by lia.
  pose proof (Hzero 0%Z ltac:(lia)) as H0. rewrite Z.add_0_r in H0.
  rewrite H0. reflexivity.
Qed.

End FetchTile.

(** C6 (as amended). For every tile coordinate and every [bufferPx > 0],
    [fetchTile] raises an error if and only if the centre tile cannot be
    fetched and decoded or one of the eight neighbour requests throws (the
    fetch rejects or the decoder throws on the body).  A neighbour that is
    missing - outside [0, 2^z) or answered with a status that is not ok -
    is not an error: the grid returned has (256 + 2 bufferPx)^2 values, and
    when no decoded tile is larger than the source tile size the slot of
    the missing neighbour in the stitched canvas stays zero, so that every
    output pixel sampled from it holds the elevation of three zero bytes,
    -32768. *)
Theorem fetchTile_errors_and_zero_fill :
  forall (upstream : Upstream) (sourceTileSize : Z) (coord : TileCoord)
         (bufferPx : Z),
    (0 < bufferPx)%Z -> (0 < sourceTileSize)%Z ->
    (raisesError (fetchTile upstream sourceTileSize coord bufferPx) <->
     ~ centerDecodes upstream coord \/
     exists n, In n (neighbours coord) /\
               requestThrows upstream (z coord) (fst n) (snd n)) /\
    (forall g,
        fetchTile upstream sourceTileSize coord bufferPx = Returns g ->
        width g = (256 + 2 * bufferPx)%Z /\
        height g = (256 + 2 * bufferPx)%Z /\
        Fetcher.bufferPx g = bufferPx /\
        length (grid g)
        = Z.to_nat ((256 + 2 * bufferPx) * (256 + 2 * bufferPx)) /\
        (tilesFit upstream sourceTileSize ->
         forall address slot,
           In (address, slot) (neighbourSlots coord) ->
           tileMissing upstream (z coord) (fst address) (snd address) ->
           forall ox oy,
             (0 <= ox < 256 + 2 * bufferPx)%Z ->
             (0 <= oy < 256 + 2 * bufferPx)%Z ->
             inSlot sourceTileSize slot
               (sourceIndex sourceTileSize (sourceTileSize * 3) bufferPx ox)
               (sourceIndex sourceTileSize (sourceTileSize * 3) bufferPx oy) ->
             elevationAt g ox oy = -32768)).
Proof.
  intros upstream s coord b Hb Hs. split.
  - now apply fetchTile_raises_iff.
  - intros g Hg. rewrite (fetchTile_buffered upstream s coord b Hb) in Hg.
    destruct (fetch3x3_outcome upstream coord)
      as [(tiles & Htiles & Hc & H1 & H2 & H3 & H4 & H5 & H6 & H7 & H8)
         |((e & He) & _)];
      [|rewrite He in Hg; discriminate Hg].
    rewrite Htiles in Hg. cbn [bind] in Hg.
    destruct (center tiles) as [p|] eqn:Ecenter; [|discriminate Hg].
    injection Hg as <-. rewrite <- Ecenter in Hc.
    split; [reflexivity|]. split; [reflexivity|]. split; [reflexivity|].
    split.
    + unfold sampleFromStitched. cbn [stitchTiles grid].
      rewrite length_rows. unfold TILE_SIZE.
      now rewrite Z2Nat.inj_mul by lia.
    + intros Hfit address slot Hin Hmiss ox oy Hox Hoy Hslot.
      apply (sampled_from_missing_slot s b Hs tiles slot); try assumption.
      * cbn in Hin.
        repeat match goal with
               | H : _ \/ _ |- _ => destruct H as [H|H]
               | H : False |- _ => destruct H
               end; injection Hin as _ <-; cbn; tauto.
      * unfold tileMissing in Hmiss. cbn in Hin.
        repeat match goal with
               | H : _ \/ _ |- _ => destruct H as [H|H]
               | H : False |- _ => destruct H
               end; injection Hin as <- <-; cbn [fst snd tileAt] in *;
          congruence.
      * now apply (fits_from_upstream upstream s coord tiles Hfit).
Qed.

(** The claim of C6 fails for a neighbour whose request throws: the centre
    tile 10/512/512 is fetched and decoded, the body of its west neighbour
    makes the decoder throw (or its fetch rejects), and [fetchTile] raises
    that error. *)
Lemma fetchTile_raises_on_failed_neighbour :
  centerDecodes upstreamWithCorruptNeighbour (mkTileCoord 10 512 512) /\
  fetchTile upstreamWithCorruptNeighbour 512 (mkTileCoord 10 512 512) 8
  = Throws DecodeError /\
  centerDecodes upstreamWithUnreachableNeighbour (mkTileCoord 10 512 512) /\
  fetchTile upstreamWithUnreachableNeighbour 512 (mkTileCoord 10 512 512) 8
  = Throws NetworkError.
Proof.
  split; [|split; [|split]].
  - exists seaLevelTile. vm_compute. reflexivity.
  - vm_compute. reflexivity.
  - exists seaLevelTile. vm_compute. reflexivity.
  - vm_compute. reflexivity.
Qed.

Lemma upstreamWorld_fits : tilesFit upstreamWorld 512.
Proof.
  intros z x y pixels. unfold upstreamWorld.
  destruct (_ && _ && _); [|discriminate].
  intros H. injection H as <-. cbn. lia.
Qed.

Lemma fetchTile_errors_and_zero_fill_witness :
  (raisesError (fetchTile upstreamWorld 512 (mkTileCoord 0 0 0) 8) <->
   ~ centerDecodes upstreamWorld (mkTileCoord 0 0 0) \/
   exists n, In n (neighbours (mkTileCoord 0 0 0)) /\
             requestThrows upstreamWorld 0 (fst n) (snd n)) /\
  exists g,
    fetchTile upstreamWorld 512 (mkTileCoord 0 0 0) 8 = Returns g /\
    width g = 272%Z /\
    length (grid g) = Z.to_nat (272 * 272) /\
    elevationAt g 0 0 = -32768.
Proof.
  destruct (fetchTile_errors_and_zero_fill
              upstreamWorld 512 (mkTileCoord 0 0 0) 8
              ltac:(lia) ltac:(lia)) as [Hiff Hret].
  split; [exact Hiff|].
  assert (Hg : exists g,
             fetchTile upstreamWorld 512 (mkTileCoord 0 0 0) 8 = Returns g).
  { rewrite (fetchTile_buffered upstreamWorld 512 (mkTileCoord 0 0 0) 8)
      by lia.
    cbn [z x y].
    replace (fetch3x3Neighborhood upstreamWorld 0 0 0)
      with (Returns (mkNeighborhood (Some seaLevelTile) None None None None
                                    None None None None))
      by (vm_compute; reflexivity).
    cbn [bind center]. now eexists. }
  destruct Hg as [g Hg]. exists g. split; [exact Hg|].
  destruct (Hret g Hg) as (Hw & _ & _ & Hlen & Hzero).
  split; [exact Hw|]. split; [exact Hlen|].
  apply (Hzero upstreamWorld_fits (-1, -1)%Z (0, 0)%Z).
  - cbn. tauto.
  - vm_compute. reflexivity.
  - lia.
  - lia.
  - vm_compute. repeat split; discriminate.
Defined.

End FetcherProofs.

(** The [while (changed)] loop of [extendChain] stops: the fuel it is given
    in [mergeSegments] is never used up. *)
Module MergeTermination.
Import Contour.

Lemma nth_setNth_other {A : Type} (i j : nat) (v d : A) (l : list A) :
  i <> j -> nth j (setNth i v l) d = nth j l d.
Proof.
  revert i j. induction l as [|a l IH]; intros [|i] [|j] Hij; cbn;
    try reflexivity; try lia.
  apply IH. lia.
Qed.

Lemma unmerged_is_valid (cs : list Chain) (i : nat) :
  merged (nth i cs noChain) = false -> (i < length cs)%nat.
Proof.
  intros H. destruct (Nat.lt_ge_cases i (length cs)) as [Hlt|Hge]; [exact Hlt|].
  rewrite nth_overflow in H by exact Hge. discriminate H.
Qed.

Lemma unmergedCount_le (cs : list Chain) :
  (unmergedCount cs <= length cs)%nat.
Proof. apply filter_length_le. Qed.

Lemma unmergedCount_pos (cs : list Chain) (i : nat) :
  merged (nth i cs noChain) = false -> (0 < unmergedCount cs)%nat.
Proof.
  intros H. pose proof (unmerged_is_valid _ _ H) as Hv.
  assert (Hin : In (nth i cs noChain)
                   (filter (fun c => negb (merged c)) cs)).
  { apply filter_In. split; [now apply nth_In | now rewrite H]. }
  unfold unmergedCount.
  destruct (filter _ cs); [destruct Hin | cbn; lia].
Qed.

Lemma unmergedCount_setNth (cs : list Chain) (i : nat) (v : Chain) :
  (i < length cs)%nat ->
  (unmergedCount (setNth i v cs)
   + (if merged (nth i cs noChain) then 0 else 1)
   = unmergedCount cs + (if merged v then 0 else 1))%nat.
Proof.
  unfold unmergedCount. revert i.
  induction cs as [|c cs IH]; intros [|i] Hi; cbn [length] in Hi; try lia.
  - cbn [setNth nth filter]. destruct (merged c), (merged v); cbn; lia.
  - cbn [setNth nth filter]. specialize (IH i ltac:(lia)).
    destruct (merged c); cbn [negb length]; lia.
Qed.

Lemma findCandidate_some (st : MergeState) (chain : nat)
      (candidates : option (list nat)) (other : nat) :
  findCandidate st chain candidates = Some other ->
  other <> chain /\ merged (getChain st other) = false.
Proof.
  unfold findCandidate. intros H. apply find_some in H. destruct H as [_ H].
  apply negb_true_iff, orb_false_iff in H. destruct H as [Hne Hm].
  split; [now apply Nat.eqb_neq | exact Hm].
Qed.

(** Absorbing a chain merges exactly one more chain and keeps the
    extended chain alive. *)
Lemma absorb_measure (st : MergeState) (chain other : nat) (atEnd : bool)
      (newCoords : list Coordinate) (newKey : Key) :
  other <> chain ->
  merged (getChain st other) = false ->
  merged (getChain st chain) = false ->
  let st' := absorb st chain other atEnd newCoords newKey in
  (unmergedCount (chains st') + 1 = unmergedCount (chains st))%nat /\
  length (chains st') = length (chains st) /\
  merged (getChain st' chain) = false.
Proof.
  intros Hne Ho Hc. unfold getChain in Ho, Hc.
  pose proof (unmerged_is_valid _ _ Ho) as Hov.
  pose proof (unmerged_is_valid _ _ Hc) as Hcv.
  set (c' := if atEnd
             then mkChain newCoords (startKey (getChain st chain)) newKey
                          (merged (getChain st chain))
             else mkChain newCoords newKey (endKey (getChain st chain))
                          (merged (getChain st chain))).
  set (o' := mkChain (coords (getChain st other)) (startKey (getChain st other))
                     (endKey (getChain st other)) true).
  assert (Hchains : chains (absorb st chain other atEnd newCoords newKey)
                    = setNth other o' (setNth chain c' (chains st)))
    by (unfold absorb; destruct atEnd; reflexivity).
  assert (Hc' : merged c' = false)
    by (unfold c', getChain; destruct atEnd; cbn [merged]; exact Hc).
  cbv zeta. unfold getChain. rewrite Hchains.
  pose proof (unmergedCount_setNth (chains st) chain c' Hcv) as H1.
  rewrite Hc, Hc' in H1.
  pose proof (unmergedCount_setNth (setNth chain c' (chains st)) other o'
                ltac:(now rewrite RingClosureProofs.length_setNth)) as H2.
  rewrite (nth_setNth_other chain other) in H2 by lia.
  rewrite Ho in H2. cbn [merged o'] in H2.
  repeat split.
  - lia.
  - now rewrite !RingClosureProofs.length_setNth.
  - rewrite (nth_setNth_other other chain) by exact Hne.
    rewrite RingClosureProofs.nth_setNth_same by exact Hcv. exact Hc'.
Qed.

Lemma extendStep_measure (st st' : MergeState) (chain : nat) :
  extendStep st chain = Some st' ->
  merged (getChain st chain) = false ->
  (unmergedCount (chains st') + 1 = unmergedCount (chains st))%nat /\
  length (chains st') = length (chains st) /\
  merged (getChain st' chain) = false.
Proof.
  unfold extendStep. cbv zeta. intros Hstep Hc.
  destruct (findCandidate st chain
              (indexGet (byStart st) (endKey (getChain st chain))))
    as [other|] eqn:E1;
    [match type of Hstep with
     | Some ?a = Some _ => replace st' with a by congruence
     end;
     destruct (findCandidate_some _ _ _ _ E1); now apply absorb_measure|].
  destruct (findCandidate st chain
              (indexGet (byEnd st) (endKey (getChain st chain))))
    as [other|] eqn:E2;
    [match type of Hstep with
     | Some ?a = Some _ => replace st' with a by congruence
     end;
     destruct (findCandidate_some _ _ _ _ E2); now apply absorb_measure|].
  destruct (findCandidate st chain
              (indexGet (byEnd st) (startKey (getChain st chain))))
    as [other|] eqn:E3;
    [match type of Hstep with
     | Some ?a = Some _ => replace st' with a by congruence
     end;
     destruct (findCandidate_some _ _ _ _ E3); now apply absorb_measure|].
  destruct (findCandidate st chain
              (indexGet (byStart st) (startKey (getChain st chain))))
    as [other|] eqn:E4;
    [match type of Hstep with
     | Some ?a = Some _ => replace st' with a by congruence
     end;
     destruct (findCandidate_some _ _ _ _ E4); now apply absorb_measure|].
  discriminate Hstep.
Qed.

(** With as much fuel as there are chains, [extendChain] reaches the turn
    in which nothing changes. *)
Theorem extendChain_settles :
  forall (fuel : nat) (st : MergeState) (chain : nat),
    merged (getChain st chain) = false ->
    (unmergedCount (chains st) <= fuel)%nat ->
    extendStep (extendChain fuel st chain) chain = None /\
    length (chains (extendChain fuel st chain)) = length (chains st).
Proof.
  induction fuel as [|fuel IH]; intros st chain Hc Hfuel.
  - exfalso. pose proof (unmergedCount_pos _ _ Hc). lia.
  - cbn [extendChain]. destruct (extendStep st chain) as [st'|] eqn:E.
    + destruct (extendStep_measure _ _ _ E Hc) as (Hm & Hlen & Hc').
      destruct (IH st' chain Hc' ltac:(lia)) as [Hnone Hlen'].
      split; [exact Hnone | congruence].
    + split; [exact E | reflexivity].
Qed.

Lemma extendChain_settles_in_mergeSegments (st : MergeState) (chain : nat) :
  merged (getChain st chain) = false ->
  extendStep (extendChain (length (chains st)) st chain) chain = None.
Proof.
  intros Hc. apply extendChain_settles; [exact Hc | apply unmergedCount_le].
Qed.

End MergeTermination.

Module ArrayFacts.
Import ListFacts TypedArray.

Lemma length_update {A : Type} (i : nat) (v : A) (l : list A) :
  length (update i v l) = length l.
Proof.
  revert i. induction l as [|a l IH]; intros [|i]; cbn; auto.
Qed.

Lemma nth_update {A : Type} (i k : nat) (v d : A) (l : list A) :
  nth k (update i v l) d
  = if (k =? i)%nat && (i <? length l)%nat then v else nth k l d.
Proof.
  revert i k. induction l as [|a l IH]; intros i k.
  - cbn. destruct i; rewrite andb_false_r; reflexivity.
  - destruct i as [|i], k as [|k]; cbn [update nth length]; try reflexivity.
    rewrite IH. reflexivity.
Qed.

Lemma length_store {A : Type} (l : list A) (i : Z) (v : A) :
  length (store l i v) = length l.
Proof.
  unfold store. destruct (i <? 0)%Z; [reflexivity | apply length_update].
Qed.

(** Reading an array after one write. *)
Lemma nth_store {A : Type} (l : list A) (i : Z) (v d : A) (k : nat) :
  nth k (store l i v) d
  = if (Z.of_nat k =? i)%Z && (k <? length l)%nat then v else nth k l d.
Proof.
  unfold store. destruct (Z.ltb_spec i 0) as [Ei|Ei].
  - destruct (Z.eqb_spec (Z.of_nat k) i) as [Ek|Ek]; [lia | reflexivity].
  - rewrite nth_update.
    destruct (Z.eqb_spec (Z.of_nat k) i) as [Ek|Ek].
    + replace (k =? Z.to_nat i)%nat with true by (symmetry; apply Nat.eqb_eq; lia).
      cbn [andb].
      replace (Z.to_nat i) with k by lia.
      reflexivity.
    + replace (k =? Z.to_nat i)%nat with false
        by (symmetry; apply Nat.eqb_neq; lia).
      reflexivity.
Qed.

Lemma fold_left_flat_map {A B C : Type} (f : A -> C -> A) (g : B -> list C)
      (l : list B) (a : A) :
  fold_left f (flat_map g l) a
  = fold_left (fun a b => fold_left f (g b) a) l a.
Proof.
  revert a. induction l as [|b l IH]; intros a; [reflexivity|].
  cbn [flat_map fold_left]. now rewrite fold_left_app, IH.
Qed.

Lemma fold_left_same_in {A B : Type} (f g : A -> B -> A) (l : list B) (a : A) :
  (forall a b, In b l -> f a b = g a b) -> fold_left f l a = fold_left g l a.
Proof.
  revert a. induction l as [|b l IH]; intros a Hfg; [reflexivity|].
  cbn [fold_left]. rewrite Hfg by (now left). apply IH.
  intros a' b' Hb'. apply Hfg. now right.
Qed.

(** A pass of writes over a list of items.  When the value written at an
    index is a function [g] of the index, the entry at [k] afterwards is
    [g k] if [k] was written, and untouched if not. *)
Lemma length_fold_store {A B : Type} (idx : B -> Z) (val : B -> A)
      (items : list B) (l : list A) :
  length (fold_left (fun r b => store r (idx b) (val b)) items l) = length l.
Proof.
  revert l. induction items as [|b bs IH]; intros l; [reflexivity|].
  cbn [fold_left]. now rewrite IH, length_store.
Qed.

Lemma nth_fold_store {A B : Type} (idx : B -> Z) (val : B -> A) (g : Z -> A)
      (items : list B) (l : list A) (d : A) (k : nat) :
  (forall b, In b items -> val b = g (idx b)) ->
  nth k (fold_left (fun r b => store r (idx b) (val b)) items l) d
  = if existsb (fun b => (idx b =? Z.of_nat k)%Z) items && (k <? length l)%nat
    then g (Z.of_nat k) else nth k l d.
Proof.
  revert l.
  induction items as [|b bs IH]; intros l Hg; [reflexivity|].
  cbn [fold_left existsb]. rewrite IH by (intros; apply Hg; now right).
  rewrite length_store, nth_store.
  destruct (existsb _ bs && (k <? length l)%nat) eqn:E.
  - apply andb_true_iff in E as [E1 E2]. rewrite E1, E2, orb_true_r.
    reflexivity.
  - rewrite (Z.eqb_sym (Z.of_nat k)).
    destruct (Z.eqb_spec (idx b) (Z.of_nat k)) as [Ew|Ew]; cbn [orb andb].
    + destruct (k <? length l)%nat; [|reflexivity].
      rewrite (Hg b) by (now left). now rewrite Ew.
    + apply andb_false_iff in E as [E|E]; rewrite E; [|rewrite andb_false_r];
        reflexivity.
Qed.

Lemma In_cells (w h x y : Z) :
  In (x, y) (cells w h) <-> (0 <= x < w)%Z /\ (0 <= y < h)%Z.
Proof.
  unfold cells. rewrite in_flat_map. split.
  - intros (y' & Hy' & Hin). apply in_map_iff in Hin as (x' & Heq & Hx').
    injection Heq as <- <-. apply In_zrange in Hy', Hx'. lia.
  - intros [Hx Hy]. exists y. split; [now apply In_zrange|].
    apply in_map_iff. exists x. split; [reflexivity | now apply In_zrange].
Qed.

(** The two nested loops as one pass over the cells. *)
Lemma loops_cells {A : Type} (step : A -> Z -> Z -> A) (w h : Z) (a : A) :
  fold_left (fun a y => fold_left (fun a x => step a x y) (zrange w) a)
            (zrange h) a
  = fold_left (fun a c => step a (fst c) (snd c)) (cells w h) a.
Proof.
  unfold cells. rewrite fold_left_flat_map.
  apply fold_left_same. intros a' y.
  generalize (zrange w). intros xs. revert a'.
  induction xs as [|x xs IH]; intros a'; [reflexivity|].
  cbn [map fold_left fst snd]. apply IH.
Qed.

(** A linear index below [w * h] is the index of exactly one cell. *)
Lemma cell_of_index (w h k : Z) :
  (0 < w)%Z -> (0 <= k < w * h)%Z ->
  (0 <= k mod w < w)%Z /\ (0 <= k / w < h)%Z /\ (k = k / w * w + k mod w)%Z.
Proof.
  intros Hw Hk.
  pose proof (Z.mod_pos_bound k w Hw).
  pose proof (Z.div_mod k w ltac:(lia)).
  split; [lia|]. split; [|lia].
  split; [apply Z.div_pos; lia|].
  apply Z.div_lt_upper_bound; lia.
Qed.

Lemma index_of_cell (w h x y : Z) :
  (0 <= x < w)%Z -> (0 <= y < h)%Z ->
  (0 <= y * w + x < w * h)%Z /\ ((y * w + x) mod w = x)%Z
  /\ ((y * w + x) / w = y)%Z.
Proof.
  intros Hx Hy. split; [nia|]. split.
  - rewrite Z.add_comm, Z.mod_add by lia. apply Z.mod_small; lia.
  - rewrite Z.add_comm, Z.div_add by lia. rewrite Z.div_small by lia. lia.
Qed.

Lemma quad_index (i j : Z) :
  (0 <= j < 4)%Z -> ((i * 4 + j) / 4 = i)%Z /\ ((i * 4 + j) mod 4 = j)%Z.
Proof.
  intros Hj. split; symmetry.
  - apply (Z.div_unique _ 4 i j); lia.
  - apply (Z.mod_unique _ 4 i j); lia.
Qed.

End ArrayFacts.

Module GridFacts.
Import ListFacts ArrayFacts TypedArray GridModel GridOps.

Lemma createGrid_inv {A : Type} (d : list A) (w h : Z) (grid : Grid A) :
  createGrid d w h = Some grid ->
  grid = mkGrid d w h /\ (0 < w)%Z /\ (0 < h)%Z
  /\ Z.of_nat (length d) = (w * h)%Z.
Proof.
  unfold createGrid.
  destruct (length d =? 0)%nat; [discriminate|].
  destruct ((w <=? 0) || (h <=? 0))%Z eqn:E1; [discriminate|].
  destruct (Z.of_nat (length d) =? w * h)%Z eqn:E2; [|discriminate].
  cbn [negb]. intros H. injection H as <-.
  apply orb_false_iff in E1 as [E1a E1b]. repeat split; lia.
Qed.

Lemma createGrid_ok {A : Type} (d : list A) (w h : Z) :
  (0 < w)%Z -> (0 < h)%Z -> Z.of_nat (length d) = (w * h)%Z ->
  createGrid d w h = Some (mkGrid d w h).
Proof.
  intros Hw Hh Hlen. unfold createGrid.
  replace (length d =? 0)%nat with false by (symmetry; apply Nat.eqb_neq; nia).
  replace ((w <=? 0) || (h <=? 0))%Z with false
    by (symmetry; apply orb_false_iff; lia).
  replace (Z.of_nat (length d) =? w * h)%Z with true by lia.
  reflexivity.
Qed.

(** On a grid built by [createGrid], [gridGet] inside the bounds reads the
    cell at [y * width + x]. *)
Lemma gridGet_inside {A : Type} (undef : A) (d : list A) (w h x y : Z) :
  (0 <= x < w)%Z -> (0 <= y < h)%Z ->
  gridGet undef (mkGrid d w h) x y = nth (Z.to_nat (y * w + x)) d undef.
Proof.
  intros Hx Hy. unfold gridGet, gridGetAt. cbn [width height data].
  rewrite (Z.max_r 0), Z.min_r by lia. rewrite (Z.max_r 0), Z.min_r by lia.
  replace (y * w + x <? 0)%Z with false by nia. reflexivity.
Qed.

(** The data [gridMap] leaves, read at a linear index. *)
Lemma gridMap_nth (d : list Q) (w h : Z) (fn : Q -> Z -> Z -> Q) (k : nat) :
  (0 < w)%Z -> (0 < h)%Z -> Z.of_nat (length d) = (w * h)%Z ->
  (k < length d)%nat ->
  nth k (data (gridMap (mkGrid d w h) fn)) 0
  = fn (nth k d 0) (Z.of_nat k mod w)%Z (Z.of_nat k / w)%Z.
Proof.
  intros Hw Hh Hlen Hk. unfold gridMap. cbn [data width height].
  rewrite loops_cells.
  set (g := fun i : Z => fn (gridGetAt 0 (mkGrid d w h) i) (i mod w)%Z (i / w)%Z).
  rewrite (fold_left_same_in _
             (fun r c => store r (snd c * w + fst c)%Z
                               (g (snd c * w + fst c)%Z))).
  2:{ intros r [x y] Hin. apply In_cells in Hin as [Hx Hy]. cbn [fst snd].
      unfold g. destruct (index_of_cell w h x y Hx Hy) as (_ & -> & ->).
      reflexivity. }
  rewrite (nth_fold_store (fun c => (snd c * w + fst c)%Z) _ g)
    by reflexivity.
  rewrite repeat_length.
  replace (k <? length d)%nat with true by (symmetry; apply Nat.ltb_lt; lia).
  rewrite andb_true_r.
  destruct (cell_of_index w h (Z.of_nat k) Hw ltac:(lia)) as (Hx & Hy & Hxy).
  replace (existsb _ _) with true.
  - unfold g, gridGetAt. cbn [data].
    replace (Z.of_nat k <? 0)%Z with false by lia. now rewrite Nat2Z.id.
  - symmetry. apply existsb_exists.
    exists ((Z.of_nat k mod w)%Z, (Z.of_nat k / w)%Z).
    cbn [fst snd]. split; [now apply In_cells | lia].
Qed.

Lemma gridMap_length (grid : Grid Q) (fn : Q -> Z -> Z -> Q) :
  length (data (gridMap grid fn)) = length (data grid).
Proof.
  unfold gridMap. cbn [data]. rewrite loops_cells.
  apply (fold_left_keeps (fun r => length r = length (data grid))).
  - apply repeat_length.
  - intros r c _ Hr. now rewrite length_store.
Qed.

End GridFacts.

Module ElevationGridFacts.
Import ListFacts ArrayFacts GridFacts TypedArray GridModel GridOps.
Import Elevation ElevationGrid ElevationProofs.

Lemma decodeElevation_returns (p : list Z) (w h : Z) (enc : TerrainEncoding) :
  (0 < w)%Z -> (0 < h)%Z ->
  exists g, decodeElevation (mkImageData p w h) enc = Some g
            /\ width g = w /\ height g = h
            /\ Z.of_nat (length (data g)) = (w * h)%Z
            /\ forall k, (Z.of_nat k < w * h)%Z ->
                 nth k (data g) 0
                 = decodeWith enc (Num.ofZ (load 0%Z p (Z.of_nat k * 4)))
                                  (Num.ofZ (load 0%Z p (Z.of_nat k * 4 + 1)))
                                  (Num.ofZ (load 0%Z p (Z.of_nat k * 4 + 2))).
Proof.
  intros Hw Hh. unfold decodeElevation, newArray. cbn [pixels imageWidth imageHeight].
  replace (w * h <? 0)%Z with false by nia.
  eexists. split; [reflexivity|]. cbn [width height data].
  split; [reflexivity|]. split; [reflexivity|].
  rewrite loops_cells.
  set (g := fun i : Z =>
              decodeWith enc (Num.ofZ (load 0%Z p (i * 4)))
                             (Num.ofZ (load 0%Z p (i * 4 + 1)))
                             (Num.ofZ (load 0%Z p (i * 4 + 2)))).
  split.
  - rewrite (length_fold_store (fun c => (snd c * w + fst c)%Z)
               (fun c => g (snd c * w + fst c)%Z)).
    rewrite repeat_length. nia.
  - intros k Hk.
    rewrite (nth_fold_store (fun c => (snd c * w + fst c)%Z)
               (fun c => g (snd c * w + fst c)%Z) g) by reflexivity.
    rewrite repeat_length.
    replace (k <? Z.to_nat (w * h))%nat with true
      by (symmetry; apply Nat.ltb_lt; lia).
    rewrite andb_true_r.
    destruct (cell_of_index w h (Z.of_nat k) Hw ltac:(lia)) as (Hx & Hy & Hxy).
    replace (existsb _ _) with true; [reflexivity|].
    symmetry. apply existsb_exists.
    exists ((Z.of_nat k mod w)%Z, (Z.of_nat k / w)%Z).
    cbn [fst snd]. split; [now apply In_cells | lia].
Qed.

Lemma encodeElevation_returns (d : list Q) (w h : Z) (enc : TerrainEncoding) :
  (0 < w)%Z -> (0 < h)%Z -> Z.of_nat (length d) = (w * h)%Z ->
  exists img, encodeElevation (mkGrid d w h) enc = Some img
              /\ imageWidth img = w /\ imageHeight img = h
              /\ Z.of_nat (length (pixels img)) = (w * h * 4)%Z
              /\ forall k j, (Z.of_nat k < w * h)%Z -> (0 <= j < 4)%Z ->
                   load 0%Z (pixels img) (Z.of_nat k * 4 + j)
                   = channel (encodeWith enc (nth k d 0)) j.
Proof.
  intros Hw Hh Hlen. unfold encodeElevation, newArray.
  cbn [data width height].
  replace (w * h * 4 <? 0)%Z with false by nia.
  eexists. split; [reflexivity|]. cbn [pixels imageWidth imageHeight].
  split; [reflexivity|]. split; [reflexivity|].
  rewrite loops_cells.
  set (idx := fun b : (Z * Z) * Z =>
                ((snd (fst b) * w + fst (fst b)) * 4 + snd b)%Z).
  set (val := fun b : (Z * Z) * Z =>
                channel (encodeWith enc
                           (load 0 d (snd (fst b) * w + fst (fst b)))) (snd b)).
  set (writes := fun c : Z * Z => [(c, 0%Z); (c, 1%Z); (c, 2%Z); (c, 3%Z)]).
  rewrite (fold_left_same _
             (fun px c => fold_left (fun r b => store r (idx b) (val b))
                                    (writes c) px)).
  2:{ intros px [x y]. unfold writes, idx, val. cbn [fold_left fst snd].
      destruct (encodeWith enc (load 0 d (y * w + x))) as [[r g] b].
      cbn [channel]. now rewrite Z.add_0_r. }
  rewrite <- fold_left_flat_map.
  set (g := fun i : Z => channel (encodeWith enc (load 0 d (i / 4))) (i mod 4)).
  assert (Hval : forall b, In b (flat_map writes (cells w h)) ->
                           val b = g (idx b)).
  { intros b Hb. apply in_flat_map in Hb as (c & _ & Hb).
    assert (Hj : (0 <= snd b < 4)%Z /\ fst b = c).
    { unfold writes in Hb. cbn in Hb.
      destruct Hb as [<-|[<-|[<-|[<-|[]]]]]; cbn; split; (lia || reflexivity). }
    unfold val, g, idx. destruct Hj as [Hj ->].
    destruct (quad_index (snd c * w + fst c) (snd b) Hj) as [-> ->].
    reflexivity. }
  split.
  - rewrite length_fold_store, repeat_length. nia.
  - intros k j Hk Hj. unfold load.
    replace (Z.of_nat k * 4 + j <? 0)%Z with false by lia.
    rewrite (nth_fold_store idx val g _ _ _ _ Hval).
    rewrite repeat_length.
    replace (_ <? Z.to_nat (w * h * 4))%nat with true
      by (symmetry; apply Nat.ltb_lt; lia).
    rewrite andb_true_r.
    destruct (cell_of_index w h (Z.of_nat k) Hw ltac:(lia)) as (Hx & Hy & Hxy).
    replace (existsb _ _) with true.
    + unfold g. rewrite Z2Nat.id by lia.
      destruct (quad_index (Z.of_nat k) j Hj) as [-> ->]. unfold load.
      replace (Z.of_nat k <? 0)%Z with false by lia.
      now rewrite Nat2Z.id.
    + symmetry. apply existsb_exists.
      exists (((Z.of_nat k mod w)%Z, (Z.of_nat k / w)%Z), j).
      split.
      * apply in_flat_map. exists ((Z.of_nat k mod w)%Z, (Z.of_nat k / w)%Z).
        split; [now apply In_cells|].
        unfold writes. cbn.
        assert (j = 0 \/ j = 1 \/ j = 2 \/ j = 3)%Z as [->|[->|[->| ->]]] by lia;
          auto.
      * unfold idx. cbn [fst snd]. apply Z.eqb_eq.
        rewrite Z2Nat.id by lia. lia.
Qed.


Lemma toUint8Clamp_byte (n : Z) : isByte n -> toUint8Clamp (inject_Z n) = n.
Proof.
  intros [H0 H255]. unfold toUint8Clamp, Num.leb, Num.geb.
  destruct (Qle_bool (inject_Z n) 0) eqn:E0.
  - apply Qle_bool_iff in E0. change 0 with (inject_Z 0) in E0.
    rewrite <- Zle_Qle in E0. lia.
  - destruct (Qle_bool 255 (inject_Z n)) eqn:E1.
    + apply Qle_bool_iff in E1. change 255 with (inject_Z 255) in E1.
      rewrite <- Zle_Qle in E1. lia.
    + unfold Num.floor. rewrite Qfloor_Z.
      replace (Num.ltb (inject_Z n - inject_Z n) (1 # 2)) with true;
        [reflexivity|].
      symmetry. apply ltb_lt. lra.
Qed.



Lemma inject_Z_lt (a b : Z) : inject_Z a < inject_Z b -> (a < b)%Z.
Proof. intros H. rewrite <- Zlt_Qlt in H. exact H. Qed.

Lemma inject_Z_le (a b : Z) : inject_Z a <= inject_Z b -> (a <= b)%Z.
Proof. intros H. rewrite <- Zle_Qle in H. exact H. Qed.



Lemma floor_unique (x : Q) (n : Z) :
  inject_Z n <= x -> x < inject_Z n + 1 -> Qfloor x = n.
Proof.
  intros Hlo Hhi. destruct (floor_bounds x) as [H1 H2].
  apply Z.le_antisymm.
  - apply Z.lt_succ_r. apply inject_Z_lt. unfold Z.succ.
    rewrite inject_Z_plus. change (inject_Z 1) with 1. lra.
  - rewrite <- (Qfloor_Z n). now apply Qfloor_resp_le.
Qed.

(** The three bytes of a 24-bit value, cut out by shifts and masks. *)
Lemma bytes_split (r g b : Z) :
  isByte r -> isByte g -> isByte b ->
  let v := (r * 65536 + g * 256 + b)%Z in
  Z.land (Z.shiftr v 16) 255 = r /\ Z.land (Z.shiftr v 8) 255 = g
  /\ Z.land v 255 = b.
Proof.
  intros Hr Hg Hb. cbv zeta. set (v := (r * 65536 + g * 256 + b)%Z).
  unfold isByte in *.
  change 255%Z with (Z.ones 8).
  rewrite !Z.land_ones, !Z.shiftr_div_pow2 by lia.
  change (2 ^ 16)%Z with 65536%Z. change (2 ^ 8)%Z with 256%Z.
  assert (H16 : (v / 65536 = r)%Z).
  { symmetry. apply (Z.div_unique _ 65536 r (g * 256 + b)); unfold v; lia. }
  assert (H8 : (v / 256 = r * 256 + g)%Z).
  { symmetry. apply (Z.div_unique _ 256 (r * 256 + g) b); unfold v; lia. }
  rewrite H16, H8. repeat split; symmetry.
  - apply (Z.mod_unique _ 256 0 r); lia.
  - apply (Z.mod_unique _ 256 r g); lia.
  - apply (Z.mod_unique _ 256 (r * 256 + g) b); unfold v; lia.
Qed.

(** Encoding what was decoded from three bytes gives the bytes back. *)
Lemma encodeMapbox_decodeMapbox (r g b : Z) :
  isByte r -> isByte g -> isByte b ->
  encodeMapbox (decodeMapbox (inject_Z r) (inject_Z g) (inject_Z b))
  = (inject_Z r, inject_Z g, inject_Z b).
Proof.
  intros Hr Hg Hb. unfold encodeMapbox.
  set (v := (r * 65536 + g * 256 + b)%Z).
  assert (Hround : Num.round
            ((decodeMapbox (inject_Z r) (inject_Z g) (inject_Z b)
              +! MAPBOX_OFFSET) *! 10) = v).
  { unfold Num.round. apply floor_unique.
    - unfold decodeMapbox, MAPBOX_OFFSET.
      rewrite mul_eq, add_eq, sub_eq, div_eq, !add_eq, !mul_eq.
      unfold v. rewrite !inject_Z_plus, !inject_Z_mult.
      change (inject_Z 65536) with 65536. change (inject_Z 256) with 256.
      setoid_replace ((inject_Z r * 256 * 256 + inject_Z g * 256 + inject_Z b) / 10)
        with ((inject_Z r * 256 * 256 + inject_Z g * 256 + inject_Z b) * (1 # 10))
        by field.
      lra.
    - unfold decodeMapbox, MAPBOX_OFFSET.
      rewrite mul_eq, add_eq, sub_eq, div_eq, !add_eq, !mul_eq.
      unfold v. rewrite !inject_Z_plus, !inject_Z_mult.
      change (inject_Z 65536) with 65536. change (inject_Z 256) with 256.
      setoid_replace ((inject_Z r * 256 * 256 + inject_Z g * 256 + inject_Z b) / 10)
        with ((inject_Z r * 256 * 256 + inject_Z g * 256 + inject_Z b) * (1 # 10))
        by field.
      lra. }
  rewrite Hround.
  rewrite toInt32_small by (unfold v, isByte in *; lia).
  unfold v. destruct (bytes_split r g b Hr Hg Hb) as (-> & -> & ->).
  reflexivity.
Qed.

Lemma encodeTerrarium_decodeTerrarium (r g b : Z) :
  isByte r -> isByte g -> isByte b ->
  encodeTerrarium (decodeTerrarium (inject_Z r) (inject_Z g) (inject_Z b))
  = (inject_Z r, inject_Z g, inject_Z b).
Proof.
  unfold isByte. intros Hr Hg Hb.
  assert (Hr' : 0 <= inject_Z r <= 255).
  { change 0 with (inject_Z 0). change 255 with (inject_Z 255).
    rewrite <- !Zle_Qle. lia. }
  assert (Hg' : 0 <= inject_Z g <= 255).
  { change 0 with (inject_Z 0). change 255 with (inject_Z 255).
    rewrite <- !Zle_Qle. lia. }
  assert (Hb' : 0 <= inject_Z b <= 255).
  { change 0 with (inject_Z 0). change 255 with (inject_Z 255).
    rewrite <- !Zle_Qle. lia. }
  unfold encodeTerrarium.
  set (adjusted := decodeTerrarium (inject_Z r) (inject_Z g) (inject_Z b)
                   +! TERRARIUM_OFFSET).
  assert (Ha : adjusted
               == inject_Z r * 256 + inject_Z g + inject_Z b * (1 # 256)).
  { unfold adjusted, decodeTerrarium, TERRARIUM_OFFSET.
    rewrite add_eq, sub_eq, !add_eq, mul_eq, div_eq.
    setoid_replace (inject_Z b / 256) with (inject_Z b * (1 # 256)) by field.
    ring. }
  assert (Hfr : Num.floor (adjusted /! 256) = r).
  { unfold Num.floor. apply floor_unique; rewrite div_eq, Ha;
      setoid_replace ((inject_Z r * 256 + inject_Z g + inject_Z b * (1 # 256)) / 256)
        with ((inject_Z r * 256 + inject_Z g + inject_Z b * (1 # 256)) * (1 # 256))
        by field; lra. }
  assert (Hfg : Num.floor (Num.rem adjusted 256) = g).
  { unfold Num.floor, Num.rem.
    assert (Ht : Num.trunc (adjusted / 256) = r).
    { rewrite trunc_floor.
      - rewrite <- Hfr. unfold Num.floor. apply Qfloor_comp. now rewrite div_eq.
      - rewrite Ha. apply Qle_shift_div_l; lra. }
    rewrite Ht. apply floor_unique; rewrite Qred_correct, Ha; lra. }
  rewrite Hfr, Hfg. unfold Num.ofZ.
  assert (Hfb : Num.floor ((adjusted -! inject_Z r *! 256 -! inject_Z g) *! 256)
                = b).
  { unfold Num.floor.
    apply floor_unique; rewrite mul_eq, !sub_eq, mul_eq, Ha; lra. }
  rewrite Hfb. reflexivity.
Qed.

End ElevationGridFacts.

Module GridProofs.
Import ListFacts ArrayFacts GridFacts TypedArray GridModel GridOps.
Import Elevation ElevationGrid ElevationProofs ElevationGridFacts.

(** X1. On a grid built by [createGrid], [gridGet] at any integer
    position returns an element of the data: inside the bounds the cell at
    [y * width + x], outside the bounds the value of the nearest border
    cell. *)
Theorem gridGet_replicates_the_border :
  forall (A : Type) (undef : A) (d : list A) (w h : Z) (grid : Grid A),
    createGrid d w h = Some grid ->
    forall x y : Z,
      In (gridGet undef grid x y) d /\
      ((0 <= x < w)%Z -> (0 <= y < h)%Z ->
       gridGet undef grid x y = nth (Z.to_nat (y * w + x)) d undef) /\
      gridGet undef grid x y
      = gridGet undef grid (Z.max 0 (Z.min (w - 1) x))
                           (Z.max 0 (Z.min (h - 1) y)).
Proof.
  intros A undef d w h grid Hgrid x y.
  apply createGrid_inv in Hgrid as (-> & Hw & Hh & Hlen).
  set (cx := Z.max 0 (Z.min (w - 1) x)).
  set (cy := Z.max 0 (Z.min (h - 1) y)).
  assert (Hcx : (0 <= cx < w)%Z) by (unfold cx; lia).
  assert (Hcy : (0 <= cy < h)%Z) by (unfold cy; lia).
  assert (Hclamp : gridGet undef (mkGrid d w h) x y
                   = gridGet undef (mkGrid d w h) cx cy).
  { unfold gridGet. cbn [width height]. fold cx cy.
    rewrite (Z.max_r 0 (Z.min (w - 1) cx)), (Z.min_r (w - 1) cx) by lia.
    rewrite (Z.max_r 0 (Z.min (h - 1) cy)), (Z.min_r (h - 1) cy) by lia.
    reflexivity. }
  split; [|split].
  - rewrite Hclamp, gridGet_inside by assumption.
    apply nth_In. nia.
  - intros Hx Hy. now apply gridGet_inside.
  - exact Hclamp.
Qed.

Lemma gridGet_replicates_the_border_witness :
  In (gridGet 0%Z (mkGrid [1; 2; 3; 4; 5; 6]%Z 3 2) (-5) 7) [1; 2; 3; 4; 5; 6]%Z.
Proof.
  apply (gridGet_replicates_the_border Z 0%Z [1; 2; 3; 4; 5; 6]%Z 3 2 _ eq_refl).
Defined.

Lemma gridMap_cells (d : list Q) (w h : Z) (grid : Grid Q)
      (fn : Q -> Z -> Z -> Q) :
  createGrid d w h = Some grid ->
  createGrid (data (gridMap grid fn)) w h = Some (gridMap grid fn) /\
  forall x y, (0 <= x < w)%Z -> (0 <= y < h)%Z ->
    gridGet 0 (gridMap grid fn) x y = fn (gridGet 0 grid x y) x y.
Proof.
  intros Hgrid.
  apply createGrid_inv in Hgrid as (-> & Hw & Hh & Hlen).
  pose proof (gridMap_length (mkGrid d w h) fn) as Hl. cbn [data] in Hl.
  split.
  - rewrite createGrid_ok by (rewrite ?Hl; assumption). reflexivity.
  - intros x y Hx Hy.
    change (gridMap (mkGrid d w h) fn)
      with (mkGrid (data (gridMap (mkGrid d w h) fn)) w h).
    rewrite !gridGet_inside by assumption.
    destruct (index_of_cell w h x y Hx Hy) as (Hi & Hmod & Hdiv).
    rewrite gridMap_nth by (try assumption; lia).
    rewrite Z2Nat.id by lia. now rewrite Hmod, Hdiv.
Qed.

(** X2. [gridMap] on a grid built by [createGrid] returns a grid of the
    same dimensions that [createGrid] accepts, whose cell [(x, y)] holds
    [fn] applied to the source cell and its coordinates. *)
Theorem gridMap_maps_every_cell :
  forall (d : list Q) (w h : Z) (grid : Grid Q) (fn : Q -> Z -> Z -> Q),
    createGrid d w h = Some grid ->
    createGrid (data (gridMap grid fn)) w h = Some (gridMap grid fn) /\
    forall x y, (0 <= x < w)%Z -> (0 <= y < h)%Z ->
      gridGet 0 (gridMap grid fn) x y = fn (gridGet 0 grid x y) x y.
Proof.
  intros d w h grid fn. apply gridMap_cells.
Qed.

Lemma gridMap_maps_every_cell_witness :
  gridGet 0 (gridMap (mkGrid [1; 2; 3; 4] 2 2)
                     (fun v x y => v +! Num.ofZ (x + 10 * y))) 1 1
  = gridGet 0 (mkGrid [1; 2; 3; 4] 2 2) 1 1 +! Num.ofZ (1 + 10 * 1).
Proof.
  apply (proj2 (gridMap_maps_every_cell [1; 2; 3; 4] 2 2 _
                  (fun v x y => v +! Num.ofZ (x + 10 * y)) eq_refl)); lia.
Defined.



(** X4. [clampGrid(grid, min, max)] with [min <= max] leaves every cell
    within [[min, max]]: a cell already in the range is unchanged, a
    smaller one becomes [min], a larger one [max]. *)
Theorem clampGrid_clamps_every_cell :
  forall (d : list Q) (w h : Z) (grid : Grid Q) (min max : Q),
    createGrid d w h = Some grid -> min <= max ->
    forall x y, (0 <= x < w)%Z -> (0 <= y < h)%Z ->
      let v := gridGet 0 grid x y in
      let c := gridGet 0 (clampGrid grid min max) x y in
      (min <= c /\ c <= max) /\
      (min <= v /\ v <= max -> c == v) /\
      (v < min -> c == min) /\ (max < v -> c == max).
Proof.
  intros d w h grid lo hi Hgrid Hle x y Hx Hy. cbv zeta. unfold clampGrid.
  destruct (gridMap_cells d w h grid
              (fun v _ _ => Num.max lo (Num.min hi v)) Hgrid) as [_ Hcell].
  rewrite Hcell by assumption.
  set (v := gridGet 0 grid x y).
  unfold Num.max, Num.min.
  destruct (Num.ltb v hi) eqn:E1;
    [apply ltb_lt in E1 | apply ltb_ge in E1];
    destruct (Num.ltb lo _) eqn:E2;
    [apply ltb_lt in E2 | apply ltb_ge in E2
     | apply ltb_lt in E2 | apply ltb_ge in E2].
  all: repeat split; intros; try reflexivity; lra.
Qed.

Lemma clampGrid_clamps_every_cell_witness :
  gridGet 0 (clampGrid (mkGrid [-3; 40; 700; 12] 2 2) 0 255) 0 1 == 255.
Proof.
  apply (clampGrid_clamps_every_cell [-3; 40; 700; 12] 2 2 _ 0 255 eq_refl);
    [discriminate | lia | lia | reflexivity].
Defined.

End GridProofs.

Module ElevationGridProofs.
Import ListFacts ArrayFacts GridFacts TypedArray GridModel GridOps.
Import Elevation ElevationGrid ElevationProofs ElevationGridFacts.





(** X6. Decoding an RGBA image and encoding the result again reproduces
    the red, green and blue bytes of every pixel exactly; the alpha byte
    becomes 255. *)
Theorem decoded_image_encodes_to_the_same_bytes :
  forall (enc : TerrainEncoding) (p : list Z) (w h : Z),
    (0 < w)%Z -> (0 < h)%Z -> Z.of_nat (length p) = (w * h * 4)%Z ->
    (forall v, In v p -> isByte v) ->
    exists decoded img,
      decodeElevation (mkImageData p w h) enc = Some decoded /\
      encodeElevation decoded enc = Some img /\
      imageWidth img = w /\ imageHeight img = h /\
      length (pixels img) = length p /\
      forall k j, (0 <= k < w * h)%Z -> (0 <= j < 4)%Z ->
        load 0%Z (pixels img) (k * 4 + j)
        = if (j =? 3)%Z then 255%Z else load 0%Z p (k * 4 + j).
Proof.
  intros enc p w h Hw Hh Hlen Hbytes.
  destruct (decodeElevation_returns p w h enc Hw Hh)
    as ([dd dw dh] & Hdec & Hdw & Hdh & Hdlen & Hd).
  cbn [data width height] in *. subst dw dh.
  destruct (encodeElevation_returns dd w h enc Hw Hh Hdlen)
    as ([q iw ih] & Henc & Hiw & Hih & Hqlen & Hq).
  cbn [pixels imageWidth imageHeight] in *. subst iw ih.
  exists (mkGrid dd w h), (mkImageData q w h).
  cbn [pixels imageWidth imageHeight].
  repeat split; try assumption; [lia|].
  intros k j Hk Hj.
  assert (Hload : forall c, (0 <= c < 4)%Z ->
                            isByte (load 0%Z p (k * 4 + c))).
  { intros c Hc. unfold load.
    replace (k * 4 + c <? 0)%Z with false by lia.
    apply Hbytes, nth_In. lia. }
  pose proof (Hq (Z.to_nat k) j ltac:(lia) Hj) as Hqk.
  pose proof (Hd (Z.to_nat k) ltac:(lia)) as Hdk.
  rewrite Z2Nat.id in Hqk, Hdk by lia.
  rewrite Hqk, Hdk.
  pose proof (Hload 0%Z ltac:(lia)) as H0. rewrite Z.add_0_r in H0.
  pose proof (Hload 1%Z ltac:(lia)) as H1.
  pose proof (Hload 2%Z ltac:(lia)) as H2.
  assert (Hrgb : encodeWith enc
                   (decodeWith enc (Num.ofZ (load 0%Z p (k * 4)))
                                   (Num.ofZ (load 0%Z p (k * 4 + 1)))
                                   (Num.ofZ (load 0%Z p (k * 4 + 2))))
                 = (inject_Z (load 0%Z p (k * 4)),
                    inject_Z (load 0%Z p (k * 4 + 1)),
                    inject_Z (load 0%Z p (k * 4 + 2)))).
  { destruct enc; cbn [encodeWith decodeWith]; unfold Num.ofZ.
    - now apply encodeMapbox_decodeMapbox.
    - now apply encodeTerrarium_decodeTerrarium. }
  rewrite Hrgb. cbn [channel].
  assert (j = 0 \/ j = 1 \/ j = 2 \/ j = 3)%Z as [->|[->|[->| ->]]] by lia;
    cbn [Z.eqb Pos.eqb]; rewrite ?toUint8Clamp_byte by assumption;
    rewrite ?Z.add_0_r; reflexivity.
Qed.

Lemma decoded_image_encodes_to_the_same_bytes_witness :
  exists decoded img,
    decodeElevation (mkImageData [1; 134; 160; 7; 131; 232; 0; 9]%Z 2 1) mapbox
    = Some decoded /\
    encodeElevation decoded mapbox = Some img /\
    imageWidth img = 2%Z /\ imageHeight img = 1%Z /\
    length (pixels img) = 8%nat /\
    forall k j, (0 <= k < 2 * 1)%Z -> (0 <= j < 4)%Z ->
      load 0%Z (pixels img) (k * 4 + j)
      = if (j =? 3)%Z then 255%Z
        else load 0%Z [1; 134; 160; 7; 131; 232; 0; 9]%Z (k * 4 + j).
Proof.
  apply (decoded_image_encodes_to_the_same_bytes mapbox
           [1; 134; 160; 7; 131; 232; 0; 9]%Z 2 1); try lia; try reflexivity.
  intros v Hv. unfold isByte. cbn in Hv.
  repeat (destruct Hv as [<-|Hv]; [lia|]). destruct Hv.
Defined.

End ElevationGridProofs.

Module ZoomProofs.
Import ListFacts Levels LevelsProofs Zoom.

Lemma leb_le (a b : Q) : Num.leb a b = true <-> a <= b.
Proof. apply Qle_bool_iff. Qed.

Lemma leb_gt (a b : Q) : Num.leb a b = false <-> b < a.
Proof.
  unfold Num.leb. split; intros H.
  - apply Qnot_le_lt. intros Hle. apply Qle_bool_iff in Hle. congruence.
  - destruct (Qle_bool a b) eqn:E; [|reflexivity].
    apply Qle_bool_iff in E. exfalso. apply (Qlt_not_le _ _ H E).
Qed.

Lemma contour_interval_values (zoom : Q) :
  In (getContourInterval zoom) [2000; 1000; 500; 250; 100; 50; 10].
Proof.
  unfold getContourInterval.
  repeat (match goal with |- context [if ?c then _ else _] => destruct c end);
    cbn; auto 10.
Qed.

Lemma hillshade_interval_values (zoom : Q) :
  In (getHillshadeInterval zoom) [32; 21; 16].
Proof.
  unfold getHillshadeInterval.
  repeat (match goal with |- context [if ?c then _ else _] => destruct c end);
    cbn; auto.
Qed.

(** The contour levels of a zoom, and how the interval varies. *)
Lemma contour_levels_facts :
  (forall zoom : Q,
     let interval := getContourInterval zoom in
     10 <= interval <= 2000 /\
     exists levels : list Q,
       (length levels <= 950)%nat /\
       (forall fuel, (950 < fuel)%nat ->
          generateLevels fuel MIN_ELEVATION MAX_ELEVATION interval
          = Some levels) /\
       (forall k, (k < length levels)%nat ->
          nth k levels 0 == -500 + inject_Z (Z.of_nat k) * interval) /\
       (forall k : nat,
          -500 + inject_Z (Z.of_nat k) * interval < 9000
          <-> (k < length levels)%nat)) /\
  (forall z1 z2 : Z,
     (z1 <= z2)%Z ->
     getContourInterval (inject_Z z2) <= getContourInterval (inject_Z z1)).
Proof.
  split.
  - intros zoom interval.
    assert (Hrange : 10 <= interval <= 2000).
    { pose proof (contour_interval_values zoom) as H. fold interval in H.
      cbn in H.
      repeat (destruct H as [<-|H]; [split; discriminate|]). destruct H. }
    split; [exact Hrange|].
    assert (Hpos : 0 < interval) by lra.
    destruct (loop_runs MAX_ELEVATION interval Hpos 950 MIN_ELEVATION [])
      as (ls & Hlen & Hrun & Hnth & Hiff).
    { unfold MAX_ELEVATION, MIN_ELEVATION.
      change (inject_Z (Z.of_nat 950)) with 950. lra. }
    exists ls. split; [exact Hlen|]. split; [|split].
    + intros fuel Hf. unfold generateLevels. rewrite Hrun by lia. reflexivity.
    + exact Hnth.
    + exact Hiff.
  - intros z1 z2 Hz.
    assert (Hcase : forall z : Z,
      getContourInterval (inject_Z z)
      = if (z <=? 2)%Z then 2000 else if (z <=? 7)%Z then 1000
        else if (z <=? 9)%Z then 500 else if (z <=? 11)%Z then 250
        else if (z <=? 13)%Z then 100 else if (z =? 14)%Z then 50 else 10).
    { intros z. unfold getContourInterval, Num.leb, Num.eqb.
      assert (Hle : forall n : Z, Qle_bool (inject_Z z) (inject_Z n)
                                  = (z <=? n)%Z).
      { intros n. destruct (Z.leb_spec z n) as [H|H].
        - apply Qle_bool_iff. now rewrite <- Zle_Qle.
        - destruct (Qle_bool _ _) eqn:E; [|reflexivity].
          apply Qle_bool_iff in E. rewrite <- Zle_Qle in E. lia. }
      assert (Heq : Qeq_bool (inject_Z z) (inject_Z 14) = (z =? 14)%Z).
      { destruct (Z.eqb_spec z 14) as [->|H]; [reflexivity|].
        destruct (Qeq_bool _ _) eqn:E; [|reflexivity].
        apply Qeq_bool_iff in E. unfold Qeq in E. cbn in E. lia. }
      change 2 with (inject_Z 2) at 1. change 7 with (inject_Z 7) at 1.
      change 9 with (inject_Z 9) at 1. change 11 with (inject_Z 11) at 1.
      change 13 with (inject_Z 13) at 1. change 14 with (inject_Z 14) at 1.
      now rewrite !Hle, Heq. }
    rewrite !Hcase.
    repeat (match goal with
            | |- context [(?a <=? ?b)%Z] => destruct (Z.leb_spec a b)
            | |- context [(?a =? ?b)%Z] => destruct (Z.eqb_spec a b)
            end); try lia; discriminate.
Qed.

(** X7. For every zoom the contour interval lies between 10 and 2000 and
    the level loop over [[-500, 9000)] with it terminates: it returns the
    levels [-500 + k * interval] below 9000, at most 950 of them; and the
    interval does not grow with an integral zoom. *)
Theorem contour_levels_at_every_zoom :
  (forall zoom : Q,
     let interval := getContourInterval zoom in
     10 <= interval <= 2000 /\
     exists levels : list Q,
       (length levels <= 950)%nat /\
       (forall fuel, (950 < fuel)%nat ->
          generateLevels fuel MIN_ELEVATION MAX_ELEVATION interval
          = Some levels) /\
       (forall k, (k < length levels)%nat ->
          nth k levels 0 == -500 + inject_Z (Z.of_nat k) * interval) /\
       (forall k : nat,
          -500 + inject_Z (Z.of_nat k) * interval < 9000
          <-> (k < length levels)%nat)) /\
  (forall z1 z2 : Z,
     (z1 <= z2)%Z ->
     getContourInterval (inject_Z z2) <= getContourInterval (inject_Z z1)).
Proof. exact contour_levels_facts. Qed.

Lemma contour_levels_at_every_zoom_witness :
  getContourInterval (inject_Z 14) <= getContourInterval (inject_Z 3).
Proof.
  apply (proj2 contour_levels_at_every_zoom 3 14)%Z. lia.
Defined.

End ZoomProofs.

Module ContourRouteProofs.
Import ListFacts GridModel GeoJSON Levels LevelsProofs Zoom ZoomProofs.
Import GridFacts ContourRoute.

(** The features of [traceLines] are lines labelled with one of the
    levels. *)
Lemma traceLines_features (d : list Q) (w h : Z) (levels : list Q)
      (contours : list Feature) :
  Contour.traceLines d w h levels = Some contours ->
  forall f, In f contours ->
    exists level coords,
      In level levels /\ f = lineString coords (levelProps level).
Proof.
  unfold Contour.traceLines. destruct (createGrid d w h) as [grid|]; [|discriminate].
  intros H f Hf. injection H as <-.
  apply in_flat_map in Hf as (level & Hlevel & Hf).
  apply in_map_iff in Hf as (coords & <- & _).
  now exists level, coords.
Qed.

(** An integral quotient is its own truncation. *)
Lemma trunc_integer (x : Q) (n : Z) : x == inject_Z n -> Num.trunc x = n.
Proof.
  destruct x as [a b]. unfold Qeq, Num.trunc. cbn. intros H.
  rewrite Z.mul_1_r in H. rewrite H. apply Z.quot_mul. lia.
Qed.

(** [a % b === 0] exactly when [a] is an integral multiple of [b]. *)
Lemma rem_zero (a b : Q) :
  0 < b ->
  (Num.eqb (Num.rem a b) 0 = true <-> exists n : Z, a == inject_Z n * b).
Proof.
  intros Hb. unfold Num.eqb, Num.rem. rewrite Qeq_bool_iff, Qred_correct.
  split.
  - intros H. exists (Num.trunc (a / b)). lra.
  - intros [n Hn].
    assert (Hq : a / b == inject_Z n).
    { rewrite Hn. field. lra. }
    rewrite (trunc_integer _ _ Hq). lra.
Qed.

Lemma isIndex_multiple (level interval : Q) :
  0 < interval ->
  (isIndex level interval = true
   <-> exists n : Z, level == inject_Z n * (5 * interval)).
Proof.
  intros Hpos. unfold isIndex. rewrite rem_zero.
  - split; intros [n Hn]; exists n; rewrite Hn, mul_eq; ring.
  - rewrite mul_eq. lra.
Qed.

(** X8. [processContours] on a grid [createGrid] accepts, at any zoom:
    every feature it returns is a line with exactly the properties
    [level] and [index]; the level is one of [-500 + k * interval] below
    9000; [index] is true exactly when the level is an integral multiple
    of five intervals, which no level is at zoom 7 and below. *)
Theorem processContours_marks_index_contours :
  forall (fuel : nat) (d : list Q) (w h : Z) (grid : Grid Q) (zoom : Q),
    (950 < fuel)%nat -> createGrid d w h = Some grid ->
    let interval := getContourInterval zoom in
    exists features,
      processContours fuel d w h zoom = Some (Some features) /\
      forall f, In f features ->
        exists coords level,
          geometry f = LineString coords /\
          properties f
          = Some [("level"%string, PNumber level);
                  ("index"%string, PBool (isIndex level interval))] /\
          (exists k : nat,
             level == -500 + inject_Z (Z.of_nat k) * interval
             /\ level < 9000) /\
          (isIndex level interval = true
           <-> exists n : Z, level == inject_Z n * (5 * interval)) /\
          (zoom <= 7 -> isIndex level interval = false).
Proof.
  intros fuel d w h grid zoom Hfuel Hgrid interval.
  destruct (proj1 contour_levels_facts zoom)
    as (Hrange & levels & Hlen & Hrun & Hnth & Hiff).
  fold interval in Hrange, Hrun, Hnth, Hiff.
  assert (Hpos : 0 < interval) by lra.
  unfold processContours. fold interval. rewrite (Hrun fuel Hfuel).
  destruct (Contour.traceLines d w h levels) as [contours|] eqn:Htrace.
  2:{ unfold Contour.traceLines in Htrace. now rewrite Hgrid in Htrace. }
  eexists. split; [reflexivity|].
  intros f Hf. apply in_map_iff in Hf as (contour & <- & Hc).
  destruct (traceLines_features _ _ _ _ _ Htrace _ Hc)
    as (level & coords & Hlevel & ->).
  exists coords, level. cbn [lineString geometry properties levelProps levelOf].
  cbn [String.eqb Ascii.eqb Bool.eqb withIndex app].
  split; [reflexivity|]. split; [reflexivity|].
  apply (In_nth _ _ 0) in Hlevel as (k & Hk & Hklevel).
  pose proof (Hnth k Hk) as Hval. rewrite Hklevel in Hval.
  assert (Hbelow : level < 9000).
  { rewrite Hval. now apply Hiff. }
  split; [exists k; split; assumption|].
  split; [now apply isIndex_multiple|].
  intros Hzoom.
  destruct (isIndex level interval) eqn:E; [|reflexivity]. exfalso.
  apply isIndex_multiple in E as [n Hn]; [|exact Hpos].
  assert (Hint : interval = 2000 \/ interval = 1000).
  { unfold interval, getContourInterval.
    destruct (Num.leb zoom 2); [now left|].
    replace (Num.leb zoom 7) with true; [now right|].
    symmetry. now apply leb_le. }
  rewrite Hval in Hn.
  destruct Hint as [Hi|Hi]; rewrite Hi in Hn;
    [change 2000 with (inject_Z 2000) in Hn
    |change 1000 with (inject_Z 1000) in Hn];
    change (-500) with (inject_Z (-500)) in Hn;
    change 5 with (inject_Z 5) in Hn;
    rewrite <- !inject_Z_mult, <- inject_Z_plus in Hn;
    rewrite inject_Z_injective in Hn; lia.
Qed.

Lemma processContours_marks_index_contours_witness :
  exists features,
    processContours 951 [240; 260; 240; 260] 2 2 14 = Some (Some features) /\
    forall f, In f features ->
      exists coords level,
        geometry f = LineString coords /\
        properties f
        = Some [("level"%string, PNumber level);
                ("index"%string,
                 PBool (isIndex level (getContourInterval 14)))] /\
        (exists k : nat,
           level == -500 + inject_Z (Z.of_nat k) * getContourInterval 14
           /\ level < 9000) /\
        (isIndex level (getContourInterval 14) = true
         <-> exists n : Z, level == inject_Z n * (5 * getContourInterval 14)) /\
        (14 <= 7 -> isIndex level (getContourInterval 14) = false).
Proof.
  apply (processContours_marks_index_contours 951 [240; 260; 240; 260] 2 2
           (mkGrid [240; 260; 240; 260] 2 2) 14);
    [lia | reflexivity].
Defined.

End ContourRouteProofs.

Module HillshadeFacts.
Import ListFacts GridFacts.
Import Reals Lra.
Import GridModel Hillshade HillshadeProofs.
Local Open Scope R_scope.

Lemma validDims_of_createGrid (d : list R) (w h : Z) (grid : Grid R) :
  createGrid d w h = Some grid -> validDims d w h /\ grid = mkGrid d w h.
Proof.
  intros H. apply createGrid_inv in H as (-> & Hw & Hh & Hlen).
  repeat split; assumption.
Qed.







Lemma hillshade_unfold (d : list R) (w h : Z) (cellSize altitude azimuth : R) :
  hillshade d w h cellSize altitude azimuth
  = match createGrid d w h with
    | None => None
    | Some grid =>
        if validateSunPosition altitude azimuth then
          Some (renderGrid w h (fun x y =>
            computePixelHillshadeFast grid x y (1 / (8 * cellSize))
              (sin (zenithRad altitude) * cos (azimuthRad azimuth))
              (sin (zenithRad altitude) * sin (azimuthRad azimuth))
              (cos (zenithRad altitude))
              (255 * cos (zenithRad altitude))))
        else None
    end.
Proof. reflexivity. Qed.

End HillshadeFacts.

Module HillshadeInvariance.
Import ListFacts GridFacts.
Import Reals Lra.
Import GridModel Hillshade HillshadeProofs HillshadeFacts.
Local Open Scope R_scope.






(** X11. [hillshade] throws exactly when [createGrid] rejects the data
    (empty, a dimension that is not positive, or a length other than
    [width * height]) or the sun position is outside [0, 90] x [0, 360]. *)
Theorem hillshade_throws_exactly_on_invalid_input :
  forall (d : list R) (w h : Z) (cellSize altitude azimuth : R),
    hillshade d w h cellSize altitude azimuth = None <->
    ~ (validDims d w h /\ 0 <= altitude <= 90 /\ 0 <= azimuth <= 360).
Proof.
  intros d w h cellSize altitude azimuth.
  assert (Hval : validateSunPosition altitude azimuth = true
                 <-> 0 <= altitude <= 90 /\ 0 <= azimuth <= 360).
  { split; [|intros []; now apply validateSunPosition_ok].
    unfold validateSunPosition.
    repeat (destruct (Rlt_dec _ _); [discriminate|]). intros _. lra. }
  rewrite hillshade_unfold.
  destruct (createGrid d w h) as [grid|] eqn:Hgrid.
  - apply validDims_of_createGrid in Hgrid as [Hv _].
    destruct (validateSunPosition altitude azimuth) eqn:E.
    + split; [discriminate|]. intros Hn. exfalso. apply Hn.
      split; [exact Hv | now apply Hval].
    + split; [|reflexivity]. intros _ (_ & Hs). apply Hval in Hs. congruence.
  - split; [|reflexivity]. intros _ (Hv & _).
    rewrite (createGrid_valid _ _ _ Hv) in Hgrid. discriminate.
Qed.

End HillshadeInvariance.

Module HillshadeImageProofs.
Import ListFacts ArrayFacts GridFacts.
Import Reals Lra.
Import GridModel TypedArray ElevationGrid.
Import Hillshade HillshadeProofs HillshadeFacts HillshadeImage Baseline.
Local Open Scope R_scope.









End HillshadeImageProofs.

Module CellFacts.
Import ListFacts GridModel GeoJSON Contour ContourMeasures.

(** The interpolation parameter is clamped into [[EPSILON, 1 - EPSILON]]. *)
Lemma clamp_t (t0 : Q) :
  let t := Num.max EPSILON (Num.min (1 -! EPSILON) t0) in
  EPSILON <= t /\ t <= 1 - EPSILON.
Proof.
  cbv zeta. unfold Num.max, Num.min.
  assert (He : 1 -! EPSILON == 1 - EPSILON) by apply sub_eq.
  assert (Hlt : EPSILON < 1 - EPSILON) by reflexivity.
  destruct (Num.ltb t0 (1 -! EPSILON)) eqn:E1;
    [apply ltb_lt in E1 | apply ltb_ge in E1];
    destruct (Num.ltb EPSILON _) eqn:E2;
    [apply ltb_lt in E2 | apply ltb_ge in E2
     | apply ltb_lt in E2 | apply ltb_ge in E2];
    rewrite ?He in *; split; lra.
Qed.

(** The crossing point lies on the edge it is interpolated along. *)
Lemma interpolate_between (grid : Grid Q) (level : Q) (x1 y1 x2 y2 : Z) :
  (x1 <= x2)%Z -> (y1 <= y2)%Z ->
  let p := interpolate grid level x1 y1 x2 y2 in
  inject_Z x1 <= fst p /\ fst p <= inject_Z x2 /\
  inject_Z y1 <= snd p /\ snd p <= inject_Z y2.
Proof.
  intros Hx Hy. cbv zeta. unfold interpolate. cbv zeta.
  match goal with
  | |- context [Num.min (1 -! EPSILON) ?e] => set (t0 := e)
  end.
  destruct (clamp_t t0) as [Ht1 Ht2].
  set (t := Num.max EPSILON (Num.min (1 -! EPSILON) t0)) in *.
  cbn [fst snd]. unfold Num.ofZ.
  rewrite !add_eq, !mul_eq, !sub_eq.
  assert (He : 0 < EPSILON) by reflexivity.
  assert (Hdx : 0 <= inject_Z x2 - inject_Z x1).
  { rewrite Zle_Qle in Hx. lra. }
  assert (Hdy : 0 <= inject_Z y2 - inject_Z y1).
  { rewrite Zle_Qle in Hy. lra. }
  repeat split; nra.
Qed.

Lemma inCell_corner (x y dx dy : Z) :
  (0 <= dx <= 1)%Z -> (0 <= dy <= 1)%Z ->
  inCell x y (Num.ofZ (x + dx), Num.ofZ (y + dy)).
Proof.
  intros Hdx Hdy. unfold inCell, Num.ofZ. cbn [fst snd].
  rewrite <- !Zle_Qle. lia.
Qed.

Lemma inCell_interpolate (grid : Grid Q) (level : Q) (x y dx1 dy1 dx2 dy2 : Z) :
  (0 <= dx1 <= dx2)%Z -> (dx2 <= 1)%Z -> (0 <= dy1 <= dy2)%Z -> (dy2 <= 1)%Z ->
  inCell x y (interpolate grid level (x + dx1) (y + dy1) (x + dx2) (y + dy2)).
Proof.
  intros Hx1 Hx2 Hy1 Hy2.
  destruct (interpolate_between grid level (x + dx1) (y + dy1) (x + dx2)
              (y + dy2) ltac:(lia) ltac:(lia)) as (H1 & H2 & H3 & H4).
  unfold inCell.
  assert (inject_Z x <= inject_Z (x + dx1)) by (rewrite <- Zle_Qle; lia).
  assert (inject_Z (x + dx2) <= inject_Z (x + 1)) by (rewrite <- Zle_Qle; lia).
  assert (inject_Z y <= inject_Z (y + dy1)) by (rewrite <- Zle_Qle; lia).
  assert (inject_Z (y + dy2) <= inject_Z (y + 1)) by (rewrite <- Zle_Qle; lia).
  repeat split; eapply Qle_trans; eassumption.
Qed.

(** Every segment of a cell has two ends, both in the cell. *)
Lemma processCellMarching_segments (grid : Grid Q) (level : Q) (x y : Z)
      (forPolygons : bool) (seg : list Coordinate) :
  In seg (processCellMarching grid level x y forPolygons) ->
  length seg = 2%nat /\ forall p, In p seg -> inCell x y p.
Proof.
  unfold processCellMarching. cbv zeta.
  pose proof (inCell_corner x y 0 1 ltac:(lia) ltac:(lia)) as Htl.
  pose proof (inCell_corner x y 1 1 ltac:(lia) ltac:(lia)) as Htr.
  pose proof (inCell_corner x y 1 0 ltac:(lia) ltac:(lia)) as Hbr.
  pose proof (inCell_corner x y 0 0 ltac:(lia) ltac:(lia)) as Hbl.
  pose proof (inCell_interpolate grid level x y 0 1 1 1
                ltac:(lia) ltac:(lia) ltac:(lia) ltac:(lia)) as Htm.
  pose proof (inCell_interpolate grid level x y 1 0 1 1
                ltac:(lia) ltac:(lia) ltac:(lia) ltac:(lia)) as Hrm.
  pose proof (inCell_interpolate grid level x y 0 0 1 0
                ltac:(lia) ltac:(lia) ltac:(lia) ltac:(lia)) as Hbm.
  pose proof (inCell_interpolate grid level x y 0 0 0 1
                ltac:(lia) ltac:(lia) ltac:(lia) ltac:(lia)) as Hlm.
  rewrite !Z.add_0_r in *.
  generalize dependent (interpolate grid level x (y + 1) (x + 1) (y + 1)).
  generalize dependent (interpolate grid level (x + 1) y (x + 1) (y + 1)).
  generalize dependent (interpolate grid level x y (x + 1) y).
  generalize dependent (interpolate grid level x y x (y + 1)).
  generalize dependent (Num.ofZ x, Num.ofZ (y + 1)).
  generalize dependent (Num.ofZ (x + 1), Num.ofZ (y + 1)).
  generalize dependent (Num.ofZ (x + 1), Num.ofZ y).
  generalize dependent (Num.ofZ x, Num.ofZ y).
  intros bl Hbl br Hbr tr Htr tl Htl lm Hlm bm Hbm rm Hrm tm Htm.
  generalize (forPolygons && (y =? height grid - 2)%Z).
  generalize (forPolygons && (x =? width grid - 2)%Z).
  generalize (forPolygons && (y =? 0)%Z).
  generalize (forPolygons && (x =? 0)%Z).
  intros atLeft atBottom atRight atTop.
  destruct (valueAt grid (y * width grid + x) >=! level),
           (valueAt grid (y * width grid + (x + 1)) >=! level),
           (valueAt grid ((y + 1) * width grid + (x + 1)) >=! level),
           (valueAt grid ((y + 1) * width grid + x) >=! level);
    cbn [Z.lor Pos.lor Pos.succ];
    destruct atLeft, atBottom, atRight, atTop; cbn [pushIf app In];
    intros Hin;
    repeat match goal with
           | H : _ \/ _ |- _ => destruct H as [<-|H]
           | H : False |- _ => destruct H
           end;
    (split; [reflexivity|]);
    intros p [<-|[<-|[]]]; assumption.
Qed.

End CellFacts.

Module MergeFacts.
Import ListFacts GridModel GeoJSON Contour ContourMeasures.
Import RingClosureProofs MergeTermination.

Lemma In_setNth {A : Type} (i : nat) (v x : A) (l : list A) :
  In x (setNth i v l) -> x = v \/ In x l.
Proof.
  revert i. induction l as [|a l IH]; intros [|i]; cbn; try tauto.
  - intros [<-|H]; auto.
  - intros [<-|H]; auto. destruct (IH i H); auto.
Qed.

Lemma list_sum_cons (a : nat) (l : list nat) :
  list_sum (a :: l) = (a + list_sum l)%nat.
Proof. reflexivity. Qed.

Lemma liveEdges_setNth (cs : list Chain) (i : nat) (v : Chain) :
  (i < length cs)%nat ->
  (liveEdges (setNth i v cs)
   + (if merged (nth i cs noChain) then 0
      else length (coords (nth i cs noChain)) - 1)
   = liveEdges cs + (if merged v then 0 else length (coords v) - 1))%nat.
Proof.
  unfold liveEdges. revert i.
  induction cs as [|c cs IH]; intros [|i] Hi; cbn [length] in Hi; try lia.
  - cbn [setNth nth map]. rewrite !list_sum_cons.
    destruct (merged c), (merged v); lia.
  - cbn [setNth nth map]. rewrite !list_sum_cons. specialize (IH i ltac:(lia)).
    destruct (merged c); lia.
Qed.

Section Invariant.

(** A property of positions that all input positions have. *)
Variable P : Coordinate -> Prop.

Lemma In_tl {A : Type} (x : A) (l : list A) : In x (tl l) -> In x l.
Proof. destruct l; cbn; auto. Qed.

Lemma In_removelast {A : Type} (x : A) (l : list A) :
  In x (removelast l) -> In x l.
Proof.
  induction l as [|a l IH]; [auto|]. destruct l as [|b l]; [cbn; tauto|].
  change (removelast (a :: b :: l)) with (a :: removelast (b :: l)).
  intros [<-|H]; [now left | right; apply IH, H].
Qed.

Lemma length_tl {A : Type} (l : list A) : length (tl l) = (length l - 1)%nat.
Proof. destruct l; cbn; lia. Qed.

Lemma length_removelast {A : Type} (l : list A) :
  length (removelast l) = (length l - 1)%nat.
Proof.
  induction l as [|a l IH]; [reflexivity|]. destruct l as [|b l]; [reflexivity|].
  change (removelast (a :: b :: l)) with (a :: removelast (b :: l)).
  cbn [length] in *. lia.
Qed.

(** The four ways two chains are joined. *)
Lemma joined_cases (c o : list Coordinate) :
  (1 <= length o)%nat ->
  joined c o (c ++ tl o) /\
  joined c o (c ++ rev (removelast o)) /\
  joined c o (removelast o ++ c) /\
  joined c o (rev (tl o) ++ c).
Proof.
  intros Ho. unfold joined.
  repeat split;
    rewrite ?length_app, ?length_rev, ?length_tl, ?length_removelast; try lia;
    intros p Hp; apply in_app_or in Hp; destruct Hp as [Hp|Hp]; auto;
    right; rewrite <- ?in_rev in Hp;
    (apply In_tl in Hp || apply In_removelast in Hp); exact Hp.
Qed.

Lemma absorb_chains (st : MergeState) (chain other : nat) (atEnd : bool)
      (newCoords : list Coordinate) (newKey : Key) :
  exists c' o',
    chains (absorb st chain other atEnd newCoords newKey)
    = setNth other o' (setNth chain c' (chains st))
    /\ coords c' = newCoords /\ merged c' = merged (getChain st chain)
    /\ merged o' = true.
Proof.
  unfold absorb. destruct atEnd; do 2 eexists; split; try reflexivity;
    cbn [coords merged]; auto.
Qed.

Lemma absorb_sound (st : MergeState) (chain other : nat) (atEnd : bool)
      (newCoords : list Coordinate) (newKey : Key) :
  other <> chain ->
  merged (getChain st other) = false ->
  merged (getChain st chain) = false ->
  joined (coords (getChain st chain)) (coords (getChain st other)) newCoords ->
  sound P (chains st) ->
  sound P (chains (absorb st chain other atEnd newCoords newKey)) /\
  liveEdges (chains (absorb st chain other atEnd newCoords newKey))
  = liveEdges (chains st).
Proof.
  intros Hne Ho Hc [Hlen Hsub] Hs.
  pose proof (unmerged_is_valid _ _ Ho) as Hov.
  pose proof (unmerged_is_valid _ _ Hc) as Hcv.
  destruct (absorb_chains st chain other atEnd newCoords newKey)
    as (c' & o' & -> & Hc'coords & Hc'm & Ho'm).
  unfold getChain in *.
  destruct (Hs _ (nth_In _ noChain Hcv) Hc) as [Hclen HcP].
  destruct (Hs _ (nth_In _ noChain Hov) Ho) as [Holen HoP].
  split.
  - intros x Hx Hxm. apply In_setNth in Hx. destruct Hx as [->|Hx]; [congruence|].
    apply In_setNth in Hx. destruct Hx as [->|Hx]; [|now apply Hs].
    rewrite Hc'coords. split; [lia|].
    intros p Hp. destruct (Hsub p Hp); auto.
  - pose proof (liveEdges_setNth (chains st) chain c' Hcv) as H1.
    rewrite Hc in H1. rewrite Hc'm, Hc, Hc'coords in H1.
    pose proof (liveEdges_setNth (setNth chain c' (chains st)) other o'
                  ltac:(now rewrite length_setNth)) as H2.
    rewrite (nth_setNth_other chain other) in H2 by lia.
    rewrite Ho, Ho'm in H2. lia.
Qed.

Lemma extendStep_sound (st st' : MergeState) (chain : nat) :
  extendStep st chain = Some st' ->
  merged (getChain st chain) = false ->
  sound P (chains st) ->
  sound P (chains st') /\ liveEdges (chains st') = liveEdges (chains st).
Proof.
  unfold extendStep. cbv zeta. intros Hstep Hc Hs.
  assert (Hjoin : forall other, merged (getChain st other) = false ->
            joined (coords (getChain st chain)) (coords (getChain st other))
                   (coords (getChain st chain) ++ tl (coords (getChain st other)))
            /\ joined (coords (getChain st chain)) (coords (getChain st other))
                   (coords (getChain st chain)
                    ++ rev (removelast (coords (getChain st other))))
            /\ joined (coords (getChain st chain)) (coords (getChain st other))
                   (removelast (coords (getChain st other))
                    ++ coords (getChain st chain))
            /\ joined (coords (getChain st chain)) (coords (getChain st other))
                   (rev (tl (coords (getChain st other)))
                    ++ coords (getChain st chain))).
  { intros other Ho. apply joined_cases.
    pose proof (unmerged_is_valid _ _ Ho) as Hov.
    destruct (Hs _ (nth_In _ noChain Hov) Ho) as [Hlen _].
    unfold getChain. lia. }
  destruct (findCandidate st chain
              (indexGet (byStart st) (endKey (getChain st chain))))
    as [other|] eqn:E1;
    [match type of Hstep with
     | Some ?a = Some _ => replace st' with a by congruence
     end;
     destruct (findCandidate_some _ _ _ _ E1) as [Hne Ho];
     apply absorb_sound; try assumption; apply (Hjoin other Ho)|].
  destruct (findCandidate st chain
              (indexGet (byEnd st) (endKey (getChain st chain))))
    as [other|] eqn:E2;
    [match type of Hstep with
     | Some ?a = Some _ => replace st' with a by congruence
     end;
     destruct (findCandidate_some _ _ _ _ E2) as [Hne Ho];
     apply absorb_sound; try assumption; apply (Hjoin other Ho)|].
  destruct (findCandidate st chain
              (indexGet (byEnd st) (startKey (getChain st chain))))
    as [other|] eqn:E3;
    [match type of Hstep with
     | Some ?a = Some _ => replace st' with a by congruence
     end;
     destruct (findCandidate_some _ _ _ _ E3) as [Hne Ho];
     apply absorb_sound; try assumption; apply (Hjoin other Ho)|].
  destruct (findCandidate st chain
              (indexGet (byStart st) (startKey (getChain st chain))))
    as [other|] eqn:E4;
    [match type of Hstep with
     | Some ?a = Some _ => replace st' with a by congruence
     end;
     destruct (findCandidate_some _ _ _ _ E4) as [Hne Ho];
     apply absorb_sound; try assumption; apply (Hjoin other Ho)|].
  discriminate Hstep.
Qed.

Lemma extendChain_sound (fuel : nat) :
  forall (st : MergeState) (chain : nat),
    merged (getChain st chain) = false ->
    sound P (chains st) ->
    sound P (chains (extendChain fuel st chain))
    /\ liveEdges (chains (extendChain fuel st chain)) = liveEdges (chains st)
    /\ length (chains (extendChain fuel st chain)) = length (chains st).
Proof.
  induction fuel as [|fuel IH]; intros st chain Hc Hs; [auto|].
  cbn [extendChain]. destruct (extendStep st chain) as [st'|] eqn:E; [|auto].
  destruct (extendStep_sound _ _ _ E Hc Hs) as [Hs' He'].
  destruct (extendStep_measure _ _ _ E Hc) as (_ & Hlen & Hc').
  destruct (IH st' chain Hc' Hs') as (H1 & H2 & H3).
  split; [exact H1|]. split; congruence.
Qed.

Lemma initialChains_sound (segments : list (list Coordinate)) :
  (forall seg, In seg segments ->
     (2 <= length seg)%nat /\ forall p, In p seg -> P p) ->
  sound P (initialChains segments)
  /\ liveEdges (initialChains segments) = edgeCount segments
  /\ length (initialChains segments) = length segments.
Proof.
  intros Hseg. unfold initialChains. split; [|split].
  - intros c Hc _. apply in_map_iff in Hc as (seg & <- & Hin).
    cbn [coords]. now apply Hseg.
  - unfold liveEdges, edgeCount. rewrite map_map. reflexivity.
  - apply length_map.
Qed.

Lemma mergeSegments_nonempty (segments : list (list Coordinate)) :
  segments <> [] ->
  mergeSegments segments
  = let chains0 := initialChains segments in
    let ids := seq 0 (length chains0) in
    let st0 :=
      fold_left (fun st i =>
                   let c := nth i chains0 noChain in
                   mkMergeState (chains st)
                                (addToIndex (byStart st) (startKey c) i)
                                (addToIndex (byEnd st) (endKey c) i))
                ids (mkMergeState chains0 [] []) in
    let st1 :=
      fold_left (fun st i =>
                   if merged (getChain st i) then st
                   else extendChain (length (chains st)) st i)
                ids st0 in
    map coords (filter (fun c => negb (merged c)) (chains st1)).
Proof.
  destruct segments; [congruence | reflexivity].
Qed.

(** What [mergeSegments] keeps: chain list and the two measures. *)
Lemma mergeSegments_sound (segments : list (list Coordinate)) :
  (forall seg, In seg segments ->
     (2 <= length seg)%nat /\ forall p, In p seg -> P p) ->
  let lines := mergeSegments segments in
  (forall line, In line lines ->
     (2 <= length line)%nat /\ forall p, In p line -> P p) /\
  edgeCount lines = edgeCount segments /\
  (length lines <= length segments)%nat.
Proof.
  intros Hseg. cbv zeta.
  destruct segments as [|s0 rest] eqn:Esegs.
  { cbn. split; [intros line []|]. split; [reflexivity | lia]. }
  rewrite <- Esegs in *.
  rewrite mergeSegments_nonempty by (rewrite Esegs; discriminate).
  clear Esegs s0 rest. cbv zeta.
  destruct (initialChains_sound segments Hseg) as (Hs0 & He0 & Hl0).
  set (chains0 := initialChains segments) in *.
  set (ids := seq 0 (length chains0)).
  set (st0 := fold_left _ ids (mkMergeState chains0 [] [])).
  assert (Hst0 : chains st0 = chains0).
  { unfold st0.
    apply (fold_left_keeps (fun st => chains st = chains0)); [reflexivity|].
    intros st i _ H. exact H. }
  set (st1 := fold_left _ ids st0).
  assert (Hst1 : sound P (chains st1)
                 /\ liveEdges (chains st1) = edgeCount segments
                 /\ length (chains st1) = length segments).
  { unfold st1.
    apply (fold_left_keeps
             (fun st => sound P (chains st)
                        /\ liveEdges (chains st) = edgeCount segments
                        /\ length (chains st) = length segments)).
    - rewrite Hst0. auto.
    - intros st i _ (Hs & He & Hl).
      destruct (merged (getChain st i)) eqn:Em; [auto|].
      destruct (extendChain_sound (length (chains st)) st i Em Hs)
        as (H1 & H2 & H3).
      split; [exact H1|]. split; congruence. }
  destruct Hst1 as (Hs1 & He1 & Hl1).
  split; [|split].
  - intros line Hline. apply in_map_iff in Hline as (c & <- & Hc).
    apply filter_In in Hc as [Hc Hm]. apply negb_true_iff in Hm.
    now apply Hs1.
  - rewrite <- He1. unfold edgeCount, liveEdges. rewrite map_map.
    generalize (chains st1). intros cs.
    induction cs as [|c cs IH]; [reflexivity|].
    cbn [filter map]. destruct (merged c); cbn [negb map];
      rewrite ?list_sum_cons; lia.
  - rewrite length_map, <- Hl1. apply filter_length_le.
Qed.

End Invariant.

End MergeFacts.

Module PolygonFacts.
Import ListFacts GridModel GeoJSON Contour ContourMeasures.
Import RingClosureProofs MergeFacts.

Section RingPredicate.

(** A property of rings that every ring of [polys] has. *)
Variable R : list Coordinate -> Prop.

Lemma collectHoles_rings (polys : list Poly) (i : nat) (used : list nat) :
  (forall p, In p polys -> R (ring p)) ->
  forall r, In r (fst (collectHoles polys i used)) -> R r.
Proof.
  intros Hpolys. unfold collectHoles.
  apply (fold_left_keeps
           (fun acc : list (list Coordinate) * list nat =>
              forall r, In r (fst acc) -> R r)).
  - intros r [].
  - intros [holes used'] j Hj Hacc.
    destruct (existsb (Nat.eqb j) used'); [exact Hacc|].
    destruct (isInsidePolygon _ _ _); [|exact Hacc].
    cbn [fst] in *. intros r Hr. apply in_app_or in Hr.
    destruct Hr as [Hr|[<-|[]]]; [now apply Hacc|].
    apply Hpolys. apply nth_In. apply in_seq in Hj. lia.
Qed.

Lemma assignHoles_rings (polys : list Poly) (level : Q) :
  (forall p, In p polys -> R (ring p)) ->
  forall f, In f (assignHoles polys level) ->
    properties f = Some (levelProps level) /\
    ringsOf f <> [] /\
    forall r, In r (ringsOf f) -> R r.
Proof.
  intros Hpolys. unfold assignHoles.
  apply (fold_left_keeps
           (fun acc : list Feature * list nat =>
              forall f, In f (fst acc) ->
                properties f = Some (levelProps level) /\
                ringsOf f <> [] /\
                forall r, In r (ringsOf f) -> R r)).
  - intros f [].
  - intros [result used] i Hi Hacc.
    destruct (existsb (Nat.eqb i) used); [exact Hacc|].
    pose proof (collectHoles_rings polys i used Hpolys) as Hholes.
    destruct (collectHoles polys i used) as [holes used'].
    cbn [fst] in *. intros f Hf. apply in_app_or in Hf.
    destruct Hf as [Hf|[<-|[]]]; [now apply Hacc|].
    cbn [ringsOf polygon geometry properties].
    split; [reflexivity|]. split; [discriminate|].
    intros r [<-|Hr]; [|now apply Hholes].
    apply Hpolys. apply nth_In. apply in_seq in Hi. lia.
Qed.

End RingPredicate.

Lemma closeRing_points (line : list Coordinate) (p : Coordinate) :
  In p (closeRing line) -> In p line.
Proof.
  unfold closeRing. destruct line as [|a l].
  - vm_compute. auto.
  - destruct (negb _); [|auto].
    intros H. apply in_app_or in H. destruct H as [H|[<-|[]]]; [exact H|].
    now left.
Qed.

(** The rings the polygon builder keeps are made of positions of the
    lines it was given, and have at least four of them. *)
Lemma collectPolys_points (lines : list (list Coordinate)) (poly : Poly) :
  In poly (collectPolys lines) ->
  (4 <= length (ring poly))%nat /\
  forall p, In p (ring poly) -> exists line, In line lines /\ In p line.
Proof.
  unfold collectPolys. rewrite in_flat_map. intros (line & Hline & Hp).
  destruct (length (closeRing line) <? 4)%nat eqn:E; [destruct Hp|].
  apply Nat.ltb_ge in E. destruct Hp as [<-|[]]. cbn [ring].
  split; [now rewrite length_setNth|].
  intros p Hp. exists line. split; [exact Hline|].
  apply In_setNth in Hp. destruct Hp as [->|Hp].
  - apply closeRing_points. apply nth_In. lia.
  - now apply closeRing_points.
Qed.

Lemma buildPolygonsWithHoles_points (lines : list (list Coordinate))
      (level : Q) (f : Feature) :
  In f (buildPolygonsWithHoles lines level) ->
  properties f = Some (levelProps level) /\
  ringsOf f <> [] /\
  forall r, In r (ringsOf f) ->
    (4 <= length r)%nat /\
    forall p, In p r -> exists line, In line lines /\ In p line.
Proof.
  unfold buildPolygonsWithHoles. intros Hf.
  apply (assignHoles_rings
           (fun r => (4 <= length r)%nat /\
                     forall p, In p r -> exists line, In line lines /\ In p line)
           (sortByArea (collectPolys lines)) level); [|exact Hf].
  intros p Hp. apply collectPolys_points. now apply In_sortByArea.
Qed.

End PolygonFacts.

Module TracerProofs.
Import ListFacts GridFacts GridModel GeoJSON Contour ContourMeasures.
Import CellFacts MergeFacts PolygonFacts.

Lemma collectSegments_segments (grid : Grid Q) (level : Q) (forPolygons : bool)
      (seg : list Coordinate) :
  In seg (collectSegments grid level forPolygons) ->
  length seg = 2%nat /\
  forall p, In p seg -> inGrid (width grid) (height grid) p.
Proof.
  unfold collectSegments. intros H.
  apply in_flat_map in H as (y & Hy & H).
  apply in_flat_map in H as (x & Hx & H).
  apply In_zrange in Hx, Hy.
  destruct (processCellMarching_segments _ _ _ _ _ _ H) as [Hlen Hcell].
  split; [exact Hlen|]. intros p Hp.
  destruct (Hcell p Hp) as (H1 & H2 & H3 & H4). unfold inGrid.
  assert (0 <= inject_Z x) by (change 0 with (inject_Z 0); rewrite <- Zle_Qle; lia).
  assert (0 <= inject_Z y) by (change 0 with (inject_Z 0); rewrite <- Zle_Qle; lia).
  assert (inject_Z (x + 1) <= inject_Z (width grid - 1))
    by (rewrite <- Zle_Qle; lia).
  assert (inject_Z (y + 1) <= inject_Z (height grid - 1))
    by (rewrite <- Zle_Qle; lia).
  split; [apply Qle_trans with (inject_Z x); assumption|].
  split; [apply Qle_trans with (inject_Z (x + 1)); assumption|].
  split; [apply Qle_trans with (inject_Z y); assumption|].
  apply Qle_trans with (inject_Z (y + 1)); assumption.
Qed.




(** The lines of one level: at least two positions each, all in the
    grid. *)
Lemma level_lines_in_grid (grid : Grid Q) (level : Q) (forPolygons : bool)
      (line : list Coordinate) :
  In line (mergeSegments (collectSegments grid level forPolygons)) ->
  (2 <= length line)%nat /\
  forall p, In p line -> inGrid (width grid) (height grid) p.
Proof.
  intros Hline.
  destruct (mergeSegments_sound (inGrid (width grid) (height grid))
              (collectSegments grid level forPolygons)) as (H & _ & _).
  - intros seg Hseg.
    destruct (collectSegments_segments _ _ _ _ Hseg) as [Hlen Hin].
    split; [lia | exact Hin].
  - now apply H.
Qed.

(** X15. Traced geometry stays inside the grid.  Every feature of
    [traceLines] is a line of at least two positions labelled with one of
    the levels, every feature of [tracePolygons] a polygon of rings of at
    least four positions labelled likewise, and every position of either
    lies in the rectangle [[0, width - 1] x [0, height - 1]] of the grid
    nodes. *)
Theorem traced_features_stay_in_the_grid :
  forall (d : list Q) (w h : Z) (levels : list Q) (features : list Feature),
    (traceLines d w h levels = Some features ->
     forall f, In f features ->
       exists coords level,
         f = lineString coords (levelProps level) /\ In level levels /\
         (2 <= length coords)%nat /\
         forall p, In p coords -> inGrid w h p) /\
    (tracePolygons d w h levels = Some features ->
     forall f, In f features ->
       exists rings level,
         f = polygon rings (levelProps level) /\ In level levels /\
         rings <> [] /\
         forall r, In r rings ->
           (4 <= length r)%nat /\ forall p, In p r -> inGrid w h p).
Proof.
  intros d w h levels features. split.
  - unfold traceLines.
    destruct (createGrid d w h) as [grid|] eqn:Hgrid; [|discriminate].
    apply createGrid_inv in Hgrid as (-> & _).
    intros H f Hf. injection H as <-.
    apply in_flat_map in Hf as (level & Hlevel & Hf).
    apply in_map_iff in Hf as (coords & <- & Hc).
    exists coords, level. split; [reflexivity|]. split; [exact Hlevel|].
    exact (level_lines_in_grid _ _ _ _ Hc).
  - unfold tracePolygons.
    destruct (createGrid d w h) as [grid|] eqn:Hgrid; [|discriminate].
    apply createGrid_inv in Hgrid as (-> & _).
    intros H f Hf. injection H as <-.
    apply in_flat_map in Hf as (level & Hlevel & Hf).
    destruct (buildPolygonsWithHoles_points _ _ _ Hf) as (Hprops & Hne & Hrings).
    destruct f as [[coords|rings] props]; cbn [ringsOf geometry properties] in *;
      [congruence|].
    exists rings, level. subst props.
    split; [reflexivity|]. split; [exact Hlevel|]. split; [exact Hne|].
    intros r Hr. destruct (Hrings r Hr) as [Hlen Hpts].
    split; [exact Hlen|]. intros p Hp.
    destruct (Hpts p Hp) as (line & Hline & Hpl).
    exact (proj2 (level_lines_in_grid _ _ _ _ Hline) p Hpl).
Qed.

Lemma traced_features_stay_in_the_grid_witness :
  exists coords level,
    lineString [(0, 1 # 2); (1 # 2, 0)] (levelProps (1 # 2))
    = lineString coords (levelProps level) /\ In level [1 # 2] /\
    (2 <= length coords)%nat /\
    forall p, In p coords -> inGrid 2 2 p.
Proof.
  apply (proj1 (traced_features_stay_in_the_grid [1; 0; 0; 0] 2 2 [1 # 2]
                  [lineString [(0, 1 # 2); (1 # 2, 0)] (levelProps (1 # 2))])).
  - vm_compute. reflexivity.
  - now left.
Defined.

Lemma flat_map_nil {A B : Type} (f : A -> list B) (l : list A) :
  (forall x, In x l -> f x = []) -> flat_map f l = [].
Proof.
  induction l as [|a l IH]; intros H; [reflexivity|].
  cbn [flat_map]. rewrite (H a) by (now left). apply IH.
  intros x Hx. apply H. now right.
Qed.

Lemma valueAt_In (d : list Q) (w h x y : Z) :
  Z.of_nat (length d) = (w * h)%Z -> (0 <= x < w)%Z -> (0 <= y < h)%Z ->
  In (valueAt (mkGrid d w h) (y * w + x)) d.
Proof.
  intros Hlen Hx Hy. unfold valueAt, gridGetAt. cbn [data].
  replace (y * w + x <? 0)%Z with false by nia.
  apply nth_In. nia.
Qed.

Lemma geb_true (a b : Q) : b <= a -> Num.geb a b = true.
Proof. intros H. now apply Qle_bool_iff. Qed.

Lemma geb_false (a b : Q) : a < b -> Num.geb a b = false.
Proof.
  intros H. unfold Num.geb. destruct (Qle_bool b a) eqn:E; [|reflexivity].
  apply Qle_bool_iff in E. lra.
Qed.

(** A cell whose corners are all on one side of the level has no line. *)
Lemma cell_without_crossing (d : list Q) (w h x y : Z) (level : Q)
      (forPolygons : bool) :
  Z.of_nat (length d) = (w * h)%Z ->
  (0 <= x < w - 1)%Z -> (0 <= y < h - 1)%Z ->
  (forall v, In v d -> v < level)
  \/ (forPolygons = false /\ forall v, In v d -> level <= v) ->
  processCellMarching (mkGrid d w h) level x y forPolygons = [].
Proof.
  intros Hlen Hx Hy Hside. unfold processCellMarching. cbv zeta.
  cbn [width height].
  pose proof (valueAt_In d w h x y Hlen ltac:(lia) ltac:(lia)) as H1.
  pose proof (valueAt_In d w h (x + 1) y Hlen ltac:(lia) ltac:(lia)) as H2.
  pose proof (valueAt_In d w h (x + 1) (y + 1) Hlen ltac:(lia) ltac:(lia)) as H3.
  pose proof (valueAt_In d w h x (y + 1) Hlen ltac:(lia) ltac:(lia)) as H4.
  destruct Hside as [Hlow|[-> Hhigh]].
  - rewrite !geb_false by (now apply Hlow). reflexivity.
  - rewrite !geb_true by (now apply Hhigh). reflexivity.
Qed.

Lemma no_crossing_no_segments (d : list Q) (w h : Z) (level : Q)
      (forPolygons : bool) :
  Z.of_nat (length d) = (w * h)%Z ->
  (forall v, In v d -> v < level)
  \/ (forPolygons = false /\ forall v, In v d -> level <= v) ->
  collectSegments (mkGrid d w h) level forPolygons = [].
Proof.
  intros Hlen Hside. unfold collectSegments. cbn [width height].
  apply flat_map_nil. intros y Hy. apply flat_map_nil. intros x Hx.
  apply In_zrange in Hx, Hy. now apply cell_without_crossing.
Qed.

(** X16. A level with every grid value on one side of it traces nothing:
    [traceLines] returns no feature when each level is above every value
    or at most every value, and [tracePolygons] returns no feature when
    each level is above every value. *)
Theorem level_outside_the_values_traces_nothing :
  forall (d : list Q) (w h : Z) (grid : Grid Q) (levels : list Q),
    createGrid d w h = Some grid ->
    ((forall level, In level levels ->
        (forall v, In v d -> v < level) \/ (forall v, In v d -> level <= v)) ->
     traceLines d w h levels = Some []) /\
    ((forall level, In level levels -> forall v, In v d -> v < level) ->
     tracePolygons d w h levels = Some []).
Proof.
  intros d w h grid levels Hgrid.
  unfold traceLines, tracePolygons. rewrite Hgrid.
  apply createGrid_inv in Hgrid as (-> & Hw & Hh & Hlen).
  split; intros Hside; f_equal; apply flat_map_nil; intros level Hlevel.
  - rewrite no_crossing_no_segments; [reflexivity | exact Hlen |].
    destruct (Hside level Hlevel) as [H|H]; [now left | right; now split].
  - rewrite no_crossing_no_segments; [reflexivity | exact Hlen |].
    left. now apply Hside.
Qed.

Lemma level_outside_the_values_traces_nothing_witness :
  traceLines [10; 20; 30; 40] 2 2 [5; 50] = Some [] /\
  tracePolygons [10; 20; 30; 40] 2 2 [50; 60] = Some [].
Proof.
  split.
  - apply (proj1 (level_outside_the_values_traces_nothing
                    [10; 20; 30; 40] 2 2 _ [5; 50] eq_refl)).
    intros level [<-|[<-|[]]]; [right | left];
      intros v [<-|[<-|[<-|[<-|[]]]]]; (discriminate || reflexivity).
  - apply (proj2 (level_outside_the_values_traces_nothing
                    [10; 20; 30; 40] 2 2 _ [50; 60] eq_refl)).
    intros level [<-|[<-|[]]];
      intros v [<-|[<-|[<-|[<-|[]]]]]; reflexivity.
Defined.

End TracerProofs.

Module ClipFacts.
Import ListFacts GeoJSON Transform ClipSpec TransformLines TransformProofs.
Import ZoomProofs.

Lemma geb_ge (a b : Q) : Num.geb a b = true <-> b <= a.
Proof. apply Qle_bool_iff. Qed.

Lemma geb_lt (a b : Q) : Num.geb a b = false <-> a < b.
Proof. apply (leb_gt b a). Qed.

Lemma gtb_gt (a b : Q) : Num.gtb a b = true <-> b < a.
Proof.
  unfold Num.gtb. rewrite negb_true_iff. apply leb_gt.
Qed.

Lemma gtb_le (a b : Q) : Num.gtb a b = false <-> a <= b.
Proof.
  unfold Num.gtb. rewrite negb_false_iff. apply leb_le.
Qed.






Lemma isInsideEdge_spec (p : Position) (edge : Edge) (e : Q) :
  isInsideEdge p edge e = true <->
  match edge with
  | left => e <= fst p
  | right => fst p <= e
  | top => e <= snd p
  | bottom => snd p <= e
  end.
Proof.
  destruct edge; cbn [isInsideEdge]; (apply geb_ge || apply leb_le).
Qed.





End ClipFacts.

Module TransformFacts.
Import ListFacts ArrayFacts GeoJSON Transform ClipSpec TransformLines LineSpec.
Import TransformProofs ZoomProofs ClipFacts.




(** Listing the entries of a list by index gives the list. *)
Lemma push_all {A : Type} (d : A) (l : list A) :
  fold_left (fun out i => out ++ [nth i l d]) (seq 0 (length l)) [] = l.
Proof.
  rewrite (fold_left_push (fun i => [nth i l d])). cbn [app].
  enough (H : forall pre, flat_map (fun i => [nth i (pre ++ l) d])
                                   (seq (length pre) (length l)) = l)
    by apply (H []).
  induction l as [|a l IH]; intros pre; [reflexivity|].
  cbn [length seq flat_map app].
  rewrite app_nth2, Nat.sub_diag by lia. cbn [nth]. f_equal.
  specialize (IH (pre ++ [a])).
  rewrite length_app, Nat.add_1_r, <- app_assoc in IH. exact IH.
Qed.

(** A ring on the inner side of an edge passes unchanged. *)
Lemma clipPolygonAgainstEdge_id (ring : list Position) (edge : Edge) (e : Q) :
  (forall p, In p ring -> isInsideEdge p edge e = true) ->
  clipPolygonAgainstEdge ring edge e = ring.
Proof.
  intros Hin. unfold clipPolygonAgainstEdge. cbv zeta.
  rewrite (fold_left_same_in _ (fun out i => out ++ [nth i ring noPosition])).
  - apply push_all.
  - intros out i Hi. apply in_seq in Hi.
    rewrite !Hin; [reflexivity | |]; apply nth_In;
      [apply Nat.mod_upper_bound|]; lia.
Qed.

Lemma clipPolygonRingToBox_id (ring : list Position) (minX minY maxX maxY : Q) :
  (forall p, In p ring -> inBox minX minY maxX maxY p) ->
  clipPolygonRingToBox ring minX minY maxX maxY = ring.
Proof.
  intros Hin. unfold clipPolygonRingToBox. cbv zeta.
  rewrite !clipPolygonAgainstEdge_id; try reflexivity;
    intros p Hp;
    rewrite ?clipPolygonAgainstEdge_id in Hp;
    try (apply isInsideEdge_spec; apply (Hin p Hp));
    intros q Hq;
    rewrite ?clipPolygonAgainstEdge_id in Hq;
    try (apply isInsideEdge_spec; apply (Hin q Hq));
    intros r Hr;
    rewrite ?clipPolygonAgainstEdge_id in Hr;
    try (apply isInsideEdge_spec; apply (Hin r Hr));
    intros s Hs; apply isInsideEdge_spec; apply (Hin s Hs).
Qed.

Lemma createTransform_compat (config : TransformConfig) (a b : Position) :
  fst a == fst b -> snd a == snd b ->
  fst (createTransform config a) == fst (createTransform config b) /\
  snd (createTransform config a) == snd (createTransform config b).
Proof.
  intros Hx Hy. unfold createTransform. cbn [fst snd].
  rewrite !mul_eq, !sub_eq, Hx, Hy. split; reflexivity.
Qed.

(** A closed ring stays closed when moved, so reclosing adds nothing. *)
Lemma reclosed_moved (config : TransformConfig) (ring : list Position) :
  (1 <= length ring)%nat -> closedExactly ring ->
  reclosed (map (createTransform config) ring)
  = map (createTransform config) ring.
Proof.
  intros Hlen (first & Hhd & Hx & Hy). unfold reclosed.
  rewrite length_map.
  rewrite !(nth_indep _ noPosition (createTransform config noPosition))
    by (rewrite length_map; lia).
  rewrite !map_nth.
  assert (Hfirst : nth 0 ring noPosition = first).
  { destruct ring; [discriminate|]. now injection Hhd. }
  assert (Hlast : nth (length ring - 1) ring noPosition = last ring first).
  { rewrite ListFacts.last_nth. apply nth_indep. lia. }
  rewrite Hfirst, Hlast.
  destruct (createTransform_compat config first (last ring first))
    as [Hx' Hy']; [now symmetry | now symmetry|].
  apply Qeq_bool_iff in Hx', Hy'. now rewrite Hx', Hy'.
Qed.

Lemma surviving_inside (config : TransformConfig) (rings : list (list Position)) :
  (forall ring, In ring rings ->
     (4 <= length ring)%nat /\ closedExactly ring /\
     forall p, In p ring ->
       inBox 0 0 (extentOf config) (extentOf config)
             (createTransform config p)) ->
  map reclosed
      (filter (fun ring => (4 <=? length ring)%nat)
              (map (clipped config) rings))
  = map (map (createTransform config)) rings.
Proof.
  induction rings as [|ring rings IH]; intros H; [reflexivity|].
  destruct (H ring (or_introl eq_refl)) as (Hlen & Hclosed & Hin).
  assert (Hc : clipped config ring = map (createTransform config) ring).
  { unfold clipped. apply clipPolygonRingToBox_id.
    intros p Hp. apply in_map_iff in Hp as (q & <- & Hq). now apply Hin. }
  cbn [map filter]. rewrite !Hc, length_map.
  replace (4 <=? length ring)%nat with true by (symmetry; now apply Nat.leb_le).
  cbn [map]. rewrite reclosed_moved by (assumption || lia).
  f_equal. apply IH. intros r Hr. apply H. now right.
Qed.

(** X19. A polygon inside the tile is only rescaled.  When every ring of
    a polygon has at least four positions, is closed, and lies in the tile
    after the transform, [transformAndClipPolygonFeatures] returns that
    one polygon with every position transformed and nothing else changed,
    which is also what [transformPolygon] returns. *)
Theorem polygon_inside_the_tile_is_only_rescaled :
  forall (rings : list (list Position)) (props : option Properties)
         (config : TransformConfig),
    rings <> [] ->
    (forall ring, In ring rings ->
       (4 <= length ring)%nat /\ closedExactly ring /\
       forall p, In p ring ->
         inBox 0 0 (extentOf config) (extentOf config)
               (createTransform config p)) ->
    let moved :=
      polygon (map (map (createTransform config)) rings)
              (match props with Some p => p | None => [] end) in
    transformAndClipPolygonFeatures [mkFeature (Polygon rings) props] config
    = [moved] /\
    transformPolygon rings props config = Some moved.
Proof.
  intros rings props config Hne Hrings. cbv zeta. split.
  - rewrite clip_emits. cbn [flat_map]. rewrite app_nil_r.
    unfold emitted, survivingRings. cbn [ringsOf geometry].
    rewrite surviving_inside by exact Hrings.
    destruct rings as [|r rs]; [congruence|]. reflexivity.
  - destruct rings as [|r rs]; [congruence|]. reflexivity.
Qed.

Lemma polygon_inside_the_tile_is_only_rescaled_witness :
  transformAndClipPolygonFeatures
    [mkFeature (Polygon [[(108, 108); (158, 108); (158, 158); (108, 158);
                          (108, 108)]])
               (Some (levelProps 128))]
    (mkTransformConfig 8 None None)
  = [polygon (map (map (createTransform (mkTransformConfig 8 None None)))
                  [[(108, 108); (158, 108); (158, 158); (108, 158);
                    (108, 108)]])
             (levelProps 128)] /\
  transformPolygon [[(108, 108); (158, 108); (158, 158); (108, 158);
                     (108, 108)]]
                   (Some (levelProps 128)) (mkTransformConfig 8 None None)
  = Some (polygon (map (map (createTransform (mkTransformConfig 8 None None)))
                       [[(108, 108); (158, 108); (158, 158); (108, 158);
                         (108, 108)]])
                  (levelProps 128)).
Proof.
  apply (polygon_inside_the_tile_is_only_rescaled
           [[(108, 108); (158, 108); (158, 158); (108, 158); (108, 108)]]
           (Some (levelProps 128)) (mkTransformConfig 8 None None)).
  - discriminate.
  - intros ring [<-|[]]. split; [cbn; lia|]. split.
    + exists (108, 108). repeat split; reflexivity.
    + intros p Hp. cbn in Hp.
      repeat (destruct Hp as [<-|Hp];
              [repeat split; (discriminate || reflexivity)|]).
      destruct Hp.
Defined.

End TransformFacts.

Module LineClipProofs.
Import ListFacts ArrayFacts GeoJSON Transform ClipSpec TransformLines LineSpec.
Import TransformProofs ZoomProofs ClipFacts TransformFacts.

Lemma insideBox_spec (minX minY maxX maxY : Q) (p : Position) :
  insideBox minX minY maxX maxY p = true <-> inBox minX minY maxX maxY p.
Proof.
  unfold insideBox, inBox. rewrite !andb_true_iff, !geb_ge, !leb_le. tauto.
Qed.

Lemma insideBox_false (minX minY maxX maxY : Q) (p : Position) :
  insideBox minX minY maxX maxY p = false <-> ~ inBox minX minY maxX maxY p.
Proof.
  rewrite <- insideBox_spec. destruct (insideBox _ _ _ _ p); split;
    congruence.
Qed.

Lemma push_kept {A B : Type} (test : A -> bool) (g : A -> B) (l : list A)
      (acc : list B) :
  fold_left (fun result x => if test x then result ++ [g x] else result) l acc
  = acc ++ map g (filter test l).
Proof.
  revert acc. induction l as [|x l IH]; intros acc; cbn [fold_left filter map].
  - now rewrite app_nil_r.
  - rewrite IH. destruct (test x); [|reflexivity].
    cbn [map]. now rewrite <- app_assoc.
Qed.

(** Feature by feature, the loop emits what [LineSpec.pieces] lists. *)
Lemma clipLines_emits (features : list Feature) (config : TransformConfig) :
  transformAndClipFeatures features config
  = flat_map (pieces config) features.
Proof.
  unfold transformAndClipFeatures. cbv zeta.
  enough (H : forall fs acc,
    fold_left
      (fun result feature =>
         match geometry feature with
         | LineString coords =>
             fold_left
               (fun result segment =>
                  if (2 <=? length segment)%nat
                  then result ++ [lineString segment (propertiesOrEmpty feature)]
                  else result)
               (clipLineToBox (map (createTransform config) coords) 0 0
                              (extentOf config) (extentOf config))
               result
         | Polygon _ => result
         end) fs acc
    = acc ++ flat_map (pieces config) fs)
    by apply (H _ []).
  induction fs as [|f fs IH]; intros acc; cbn [fold_left flat_map].
  - now rewrite app_nil_r.
  - rewrite IH. unfold pieces at 2.
    destruct (geometry f) as [coords|rings].
    + rewrite (push_kept (fun segment => (2 <=? length segment)%nat)
                 (fun segment => lineString segment (propertiesOrEmpty f))).
      now rewrite <- app_assoc.
    + reflexivity.
Qed.

Lemma firstn_snoc {A : Type} (d : A) (l : list A) (k : nat) :
  (k < length l)%nat -> firstn (S k) l = firstn k l ++ [nth k l d].
Proof.
  revert k. induction l as [|a l IH]; intros k Hk; [cbn in Hk; lia|].
  destruct k as [|k]; [reflexivity|].
  cbn [firstn nth app]. f_equal. apply IH. cbn in Hk. lia.
Qed.

(** A polyline inside the box comes back whole. *)
Lemma clipLineToBox_inside (coords : list Position) (minX minY maxX maxY : Q) :
  (2 <= length coords)%nat ->
  (forall p, In p coords -> inBox minX minY maxX maxY p) ->
  clipLineToBox coords minX minY maxX maxY = [coords].
Proof.
  intros Hlen Hin. unfold clipLineToBox.
  replace (length coords <? 2)%nat with false
    by (symmetry; apply Nat.ltb_ge; lia).
  assert (Hloop : forall k, (k <= length coords - 1)%nat ->
            fold_left (clipStep coords minX minY maxX maxY) (seq 0 k) ([], [])
            = ([], match k with O => [] | S _ => firstn (S k) coords end)).
  { induction k as [|k IH]; intros Hk; [reflexivity|].
    rewrite seq_S, fold_left_app, IH by lia. cbn [fold_left Nat.add].
    unfold clipStep.
    rewrite !(proj2 (insideBox_spec _ _ _ _ _))
      by (apply Hin, nth_In; lia).
    cbn [andb]. f_equal.
    rewrite (firstn_snoc noPosition coords (S k)) by lia.
    rewrite Nat.add_1_r. f_equal.
    destruct k as [|k].
    - unfold startWith. cbn [length Nat.eqb app].
      destruct coords as [|a l]; [cbn in Hlen; lia | reflexivity].
    - unfold startWith.
      replace (length (firstn (S (S k)) coords) =? 0)%nat with false;
        [reflexivity|].
      symmetry. apply Nat.eqb_neq. rewrite length_firstn. lia. }
  rewrite (Hloop (length coords - 1)%nat) by lia.
  destruct (length coords - 1)%nat eqn:E; [lia|].
  replace (S (S n)) with (length coords) by lia.
  rewrite firstn_all. unfold pushSegment.
  replace (2 <=? length coords)%nat with true
    by (symmetry; apply Nat.leb_le; lia).
  reflexivity.
Qed.

(** A polyline with no position in the box leaves nothing. *)
Lemma clipLineToBox_outside (coords : list Position)
      (minX minY maxX maxY : Q) :
  (forall p, In p coords -> ~ inBox minX minY maxX maxY p) ->
  clipLineToBox coords minX minY maxX maxY = [].
Proof.
  intros Hout. unfold clipLineToBox.
  destruct (length coords <? 2)%nat eqn:E; [reflexivity|].
  apply Nat.ltb_ge in E.
  assert (Hloop :
    fold_left (clipStep coords minX minY maxX maxY)
              (seq 0 (length coords - 1)) ([], []) = ([], [])).
  { apply (fold_left_keeps (fun st => st = ([], []))); [reflexivity|].
    intros st i Hi ->. apply in_seq in Hi. unfold clipStep.
    rewrite !(proj2 (insideBox_false _ _ _ _ _))
      by (apply Hout, nth_In; lia).
    reflexivity. }
  rewrite Hloop. reflexivity.
Qed.

(** X20. Lines after clipping.  Every feature
    [transformAndClipFeatures] returns is a line of at least two positions
    carrying the properties of the line feature it was cut from; polygon
    features yield nothing; a line that lies in the tile after the
    transform is returned whole, only rescaled; a line with no position in
    the tile is dropped. *)
Theorem lines_after_clipping :
  (forall (features : list Feature) (config : TransformConfig) (f : Feature),
     In f (transformAndClipFeatures features config) ->
     exists source coords segment,
       In source features /\ geometry source = LineString coords /\
       f = lineString segment (propertiesOrEmpty source) /\
       (2 <= length segment)%nat) /\
  (forall (rings : list (list Position)) (props : option Properties)
          (config : TransformConfig),
     transformAndClipFeatures [mkFeature (Polygon rings) props] config = []) /\
  (forall (coords : list Position) (props : option Properties)
          (config : TransformConfig),
     (2 <= length coords)%nat ->
     (forall p, In p coords ->
        inBox 0 0 (extentOf config) (extentOf config)
              (createTransform config p)) ->
     transformAndClipFeatures [mkFeature (LineString coords) props] config
     = [lineString (map (createTransform config) coords)
                   (match props with Some p => p | None => [] end)]) /\
  (forall (coords : list Position) (props : option Properties)
          (config : TransformConfig),
     (forall p, In p coords ->
        ~ inBox 0 0 (extentOf config) (extentOf config)
                (createTransform config p)) ->
     transformAndClipFeatures [mkFeature (LineString coords) props] config
     = []).
Proof.
  split; [|split; [|split]].
  - intros features config f Hf. rewrite clipLines_emits in Hf.
    apply in_flat_map in Hf as (source & Hsource & Hf).
    unfold pieces in Hf. destruct (geometry source) as [coords|rings] eqn:Eg;
      [|destruct Hf].
    apply in_map_iff in Hf as (segment & <- & Hseg).
    apply filter_In in Hseg as [_ Hlen]. apply Nat.leb_le in Hlen.
    exists source, coords, segment. auto.
  - intros rings props config. now rewrite clipLines_emits.
  - intros coords props config Hlen Hin. rewrite clipLines_emits.
    cbn [flat_map]. rewrite app_nil_r. unfold pieces. cbn [geometry].
    rewrite clipLineToBox_inside.
    + cbn [filter]. rewrite length_map.
      replace (2 <=? length coords)%nat with true
        by (symmetry; now apply Nat.leb_le).
      reflexivity.
    + now rewrite length_map.
    + intros p Hp. apply in_map_iff in Hp as (q & <- & Hq). now apply Hin.
  - intros coords props config Hout. rewrite clipLines_emits.
    cbn [flat_map]. rewrite app_nil_r. unfold pieces. cbn [geometry].
    rewrite clipLineToBox_outside; [reflexivity|].
    intros p Hp. apply in_map_iff in Hp as (q & <- & Hq). now apply Hout.
Qed.

Lemma lines_after_clipping_witness :
  transformAndClipFeatures
    [mkFeature (LineString [(10, 10); (100, 40); (200, 264)])
               (Some (levelProps 500))]
    (mkTransformConfig 8 None None)
  = [lineString (map (createTransform (mkTransformConfig 8 None None))
                     [(10, 10); (100, 40); (200, 264)])
                (levelProps 500)].
Proof.
  apply (proj1 (proj2 (proj2 lines_after_clipping))
           [(10, 10); (100, 40); (200, 264)] (Some (levelProps 500))
           (mkTransformConfig 8 None None)).
  - cbn. lia.
  - intros p Hp. cbn in Hp.
    repeat (destruct Hp as [<-|Hp];
            [repeat split; (discriminate || reflexivity)|]).
    destruct Hp.
Defined.

End LineClipProofs.

Module SmoothFacts.
Import ListFacts GeoJSON Smooth SmoothFeature TransformLines.
Import MergeFacts ClipFacts.

Lemma length_flat_map_pairs {A B : Type} (g : A -> list B) (l : list A) :
  (forall x, length (g x) = 2%nat) ->
  length (flat_map g l) = (2 * length l)%nat.
Proof.
  intros Hg. induction l as [|x l IH]; [reflexivity|].
  cbn [flat_map length]. rewrite length_app, Hg, IH. lia.
Qed.

Lemma length_subdivideCoords (coords : list Position) (f : Q) :
  length (subdivideCoords coords f) = (2 * length coords)%nat.
Proof.
  unfold subdivideCoords. cbv zeta.
  rewrite length_flat_map_pairs by reflexivity. now rewrite length_seq.
Qed.

Lemma length_subdivideTimes (its : Z) (coords : list Position) (f : Q) :
  length (subdivideTimes its coords f)
  = (2 ^ Z.to_nat its * length coords)%nat.
Proof.
  unfold subdivideTimes. induction (Z.to_nat its) as [|k IH].
  - cbn. lia.
  - rewrite Nat.iter_succ. rewrite length_subdivideCoords, IH.
    rewrite Nat.pow_succ_r'. lia.
Qed.



Lemma length_uniqueVertices (coords : list Position) :
  (2 <= length coords)%nat ->
  (1 <= length (uniqueVertices coords))%nat /\
  (length coords - 1 <= length (uniqueVertices coords))%nat /\
  forall p, In p (uniqueVertices coords) -> In p coords.
Proof.
  intros Hlen. unfold uniqueVertices.
  destruct (isClosedRing coords).
  - rewrite length_removelast. repeat split; try lia.
    intros p. apply In_removelast.
  - repeat split; (lia || auto).
Qed.

Lemma smoothClosedRing_unfold (coords : list Position) (its : Z) (f : Q) :
  smoothClosedRing coords its f
  = subdivideTimes its (uniqueVertices coords) f
    ++ [nth 0 (subdivideTimes its (uniqueVertices coords) f) noPosition].
Proof. reflexivity. Qed.

(** What smoothing a ring gives: a closed ring of [2^iterations] positions
    per unique vertex, plus the closing one. *)
Lemma smoothClosedRing_closed (coords : list Position) (its : Z) (f : Q) :
  (2 <= length coords)%nat ->
  let out := smoothClosedRing coords its f in
  length out = (2 ^ Z.to_nat its * length (uniqueVertices coords) + 1)%nat /\
  exists first, hd_error out = Some first /\ last out first = first.
Proof.
  intros Hlen. cbv zeta. rewrite smoothClosedRing_unfold.
  set (current := subdivideTimes its (uniqueVertices coords) f).
  assert (Hcur : length current
                 = (2 ^ Z.to_nat its * length (uniqueVertices coords))%nat)
    by apply length_subdivideTimes.
  destruct (length_uniqueVertices coords Hlen) as (Hu & _ & _).
  assert (Hpow : (1 <= 2 ^ Z.to_nat its)%nat).
  { clear. induction (Z.to_nat its); cbn; lia. }
  split; [rewrite length_app, Hcur; cbn [length]; lia|].
  exists (nth 0 current noPosition). split.
  - destruct current as [|a l]; [cbn [length] in Hcur; nia | reflexivity].
  - apply last_last.
Qed.


Lemma smoothCoords_unfold (coords : list Position) (options : SmoothOptions)
      (closed : option bool) :
  smoothCoords coords options closed
  = if (length coords <? 2)%nat then coords
    else if (match closed with Some c => c | None => false end)
            || isClosedRing coords
         then smoothClosedRing coords (iterationsOf options) (factorOf options)
         else smoothOpenLine coords (iterationsOf options) (factorOf options).
Proof. reflexivity. Qed.



(** X22. A smoothed feature keeps its kind and its properties, and a
    smoothed polygon stays a valid polygon: for rings of at least four
    positions, every ring returned has [2^iterations] positions for each
    vertex of the ring it comes from (the closing vertex of a closed ring
    not counted) plus a closing one, hence at least four, and its last
    position is its first. *)
Theorem smoothed_polygon_is_valid :
  forall (rings : list (list Position)) (props : option Properties)
         (options : option SmoothOptions),
    (forall ring, In ring rings -> (4 <= length ring)%nat) ->
    let its := Z.to_nat (iterationsOf (optionsOrEmpty options)) in
    exists smoothed,
      smooth (mkFeature (Polygon rings) props) options
      = mkFeature (Polygon smoothed)
                  (Some (match props with Some p => p | None => [] end)) /\
      length smoothed = length rings /\
      forall i, (i < length rings)%nat ->
        let ring := nth i rings [] in
        let out := nth i smoothed [] in
        length out = (2 ^ its * length (uniqueVertices ring) + 1)%nat /\
        (4 <= length out)%nat /\
        exists first, hd_error out = Some first /\ last out first = first.
Proof.
  intros rings props options Hrings. cbv zeta.
  unfold smooth, smoothPolygonFeature. cbn [geometry properties].
  eexists. split; [reflexivity|]. split; [apply length_map|].
  intros i Hi.
  rewrite (nth_indep _ []
             (smoothCoords [] (optionsOrEmpty options) (Some true)))
    by (rewrite length_map; exact Hi).
  rewrite (map_nth (fun ring => smoothCoords ring (optionsOrEmpty options)
                                             (Some true))).
  set (ring := nth i rings []).
  assert (Hlen : (4 <= length ring)%nat) by (apply Hrings, nth_In, Hi).
  rewrite smoothCoords_unfold.
  replace (length ring <? 2)%nat with false
    by (symmetry; apply Nat.ltb_ge; lia).
  cbn [orb].
  destruct (smoothClosedRing_closed ring (iterationsOf (optionsOrEmpty options))
              (factorOf (optionsOrEmpty options)) ltac:(lia))
    as [Hout Hclosed].
  split; [exact Hout|]. split; [|exact Hclosed].
  rewrite Hout.
  destruct (length_uniqueVertices ring ltac:(lia)) as (_ & Hu & _).
  assert (1 <= 2 ^ Z.to_nat (iterationsOf (optionsOrEmpty options)))%nat
    by (clear; induction (Z.to_nat _); cbn; lia).
  nia.
Qed.

Lemma smoothed_polygon_is_valid_witness :
  exists smoothed,
    smooth (mkFeature (Polygon [[(0, 0); (4, 0); (4, 4); (0, 0)]]) None)
           (Some (mkSmoothOptions (Some 1%Z) None))
    = mkFeature (Polygon smoothed) (Some []) /\
    length smoothed = 1%nat /\
    forall i, (i < 1)%nat ->
      length (nth i smoothed [])
      = (2 ^ 1 * length (uniqueVertices
                           (nth i [[(0, 0); (4, 0); (4, 4); (0, 0)]]%Q []))
         + 1)%nat /\
      (4 <= length (nth i smoothed []))%nat /\
      exists first, hd_error (nth i smoothed []) = Some first
                    /\ last (nth i smoothed []) first = first.
Proof.
  apply (smoothed_polygon_is_valid [[(0, 0); (4, 0); (4, 4); (0, 0)]] None
           (Some (mkSmoothOptions (Some 1%Z) None))).
  intros ring [<-|[]]. cbn. lia.
Defined.

End SmoothFacts.

Module TileBoundsProofs.
Import Reals Lra.
Import TileBounds.
Local Open Scope R_scope.

Lemma pow2_pos (z : nat) : 0 < 2 ^ z.
Proof. apply pow_lt. lra. Qed.



Lemma sinh_opp (x : R) : sinh (- x) = - sinh x.
Proof. unfold sinh. rewrite Ropp_involutive. field. Qed.

Lemma latitude_increasing (a b : R) :
  a < b -> atan (sinh a) * 180 / PI < atan (sinh b) * 180 / PI.
Proof.
  intros H. pose proof PI_RGT_0 as Hp.
  pose proof (atan_increasing _ _ (sinh_lt _ _ H)) as Hi.
  unfold Rdiv. apply Rmult_lt_compat_r; [apply Rinv_0_lt_compat; lra | lra].
Qed.

Lemma latitude_bound (a : R) :
  -90 < atan (sinh a) * 180 / PI < 90.
Proof.
  pose proof PI_RGT_0 as Hp. pose proof (atan_bound (sinh a)) as [Hl Hu].
  split.
  - apply Rmult_lt_reg_r with PI; [lra |].
    unfold Rdiv. rewrite Rmult_assoc, Rinv_l by lra. lra.
  - apply Rmult_lt_reg_r with PI; [lra |].
    unfold Rdiv. rewrite Rmult_assoc, Rinv_l by lra. lra.
Qed.

(** X24. The WGS84 bounds of a tile inside the grid of its zoom level
    ([0 <= x], [x + 1 <= 2^z], the same for [y]) are a proper box of
    valid coordinates: longitudes in [[-180, 180]] with
    [minLon < maxLon], latitudes strictly between -90 and 90 with
    [minLat < maxLat]; the tile shares its east longitude with the west
    longitude of the next column and its south latitude with the north
    latitude of the next row; and the rows mirror each other across the
    equator. *)
Theorem wgs84_bounds_are_a_valid_box :
  forall (z : nat) (x y : R),
    0 <= x -> x + 1 <= 2 ^ z -> 0 <= y -> y + 1 <= 2 ^ z ->
    -180 <= minLon (tileToWgs84Bounds z x y) /\
    minLon (tileToWgs84Bounds z x y) < maxLon (tileToWgs84Bounds z x y) /\
    maxLon (tileToWgs84Bounds z x y) <= 180 /\
    -90 < minLat (tileToWgs84Bounds z x y) /\
    minLat (tileToWgs84Bounds z x y) < maxLat (tileToWgs84Bounds z x y) /\
    maxLat (tileToWgs84Bounds z x y) < 90 /\
    maxLon (tileToWgs84Bounds z x y)
    = minLon (tileToWgs84Bounds z (x + 1) y) /\
    minLat (tileToWgs84Bounds z x y)
    = maxLat (tileToWgs84Bounds z x (y + 1)) /\
    minLat (tileToWgs84Bounds z x y)
    = - maxLat (tileToWgs84Bounds z x (2 ^ z - 1 - y)).
Proof.
  intros z x y Hx0 Hx1 Hy0 Hy1.
  unfold tileToWgs84Bounds. cbv zeta. cbn [minLon minLat maxLon maxLat].
  pose proof (pow2_pos z) as Hz. pose proof PI_RGT_0 as Hp.
  assert (Hi : 0 < / 2 ^ z) by (apply Rinv_0_lt_compat; lra).
  assert (Hq0 : 0 <= x / 2 ^ z).
  { unfold Rdiv. apply Rmult_le_pos; lra. }
  assert (Hq1 : (x + 1) / 2 ^ z <= 1).
  { apply Rmult_le_reg_r with (2 ^ z); [lra |].
    unfold Rdiv. rewrite Rmult_assoc, Rinv_l by lra. lra. }
  assert (Hq2 : x / 2 ^ z < (x + 1) / 2 ^ z).
  { unfold Rdiv. apply Rmult_lt_compat_r; lra. }
  split; [lra |]. split; [lra |]. split; [lra |].
  split; [apply latitude_bound |].
  split.
  { apply latitude_increasing. apply Rmult_lt_compat_l; [lra |].
    assert (2 * y / 2 ^ z < 2 * (y + 1) / 2 ^ z).
    { unfold Rdiv. apply Rmult_lt_compat_r; lra. }
    lra. }
  split; [apply latitude_bound |].
  split; [reflexivity |].
  split; [reflexivity |].
  replace (PI * (1 - 2 * (2 ^ z - 1 - y) / 2 ^ z))
    with (- (PI * (1 - 2 * (y + 1) / 2 ^ z))) by (field; lra).
  rewrite sinh_opp, atan_opp. field. lra.
Qed.

Lemma wgs84_bounds_are_a_valid_box_witness :
  -180 <= minLon (tileToWgs84Bounds 1 0 0) /\
  minLon (tileToWgs84Bounds 1 0 0) < maxLon (tileToWgs84Bounds 1 0 0) /\
  maxLon (tileToWgs84Bounds 1 0 0) <= 180 /\
  -90 < minLat (tileToWgs84Bounds 1 0 0) /\
  minLat (tileToWgs84Bounds 1 0 0) < maxLat (tileToWgs84Bounds 1 0 0) /\
  maxLat (tileToWgs84Bounds 1 0 0) < 90 /\
  maxLon (tileToWgs84Bounds 1 0 0)
  = minLon (tileToWgs84Bounds 1 (0 + 1) 0) /\
  minLat (tileToWgs84Bounds 1 0 0)
  = maxLat (tileToWgs84Bounds 1 0 (0 + 1)) /\
  minLat (tileToWgs84Bounds 1 0 0)
  = - maxLat (tileToWgs84Bounds 1 0 (2 ^ 1 - 1 - 0)).
Proof.
  apply (wgs84_bounds_are_a_valid_box 1 0 0); simpl; lra.
Defined.

End TileBoundsProofs.

Module StitchFacts.
Import ListFacts ArrayFacts ElevationProofs ElevationGridFacts.
Import Fetcher FetcherProofs.

Lemma canvasLength_writeByte (canvas : Canvas) (index value : Z) :
  canvasLength (writeByte canvas index value) = canvasLength canvas.
Proof.
  unfold writeByte.
  destruct ((0 <=? index)%Z && (index <? canvasLength canvas)%Z); reflexivity.
Qed.

Lemma canvasLength_copyPixel (tile : TilePixels) (cs offX offY ty tx : Z)
      (canvas : Canvas) :
  canvasLength (copyPixel tile cs offX offY ty tx canvas)
  = canvasLength canvas.
Proof. unfold copyPixel. now rewrite !canvasLength_writeByte. Qed.

Lemma byteAt_writeByte_same (canvas : Canvas) (index value : Z) :
  (0 <= index < canvasLength canvas)%Z ->
  byteAt (writeByte canvas index value) index = value.
Proof.
  intros H. unfold writeByte.
  replace ((0 <=? index)%Z && (index <? canvasLength canvas)%Z) with true
    by (symmetry; apply andb_true_iff; split;
        [apply Z.leb_le | apply Z.ltb_lt]; lia).
  cbn [byteAt]. now rewrite Z.eqb_refl.
Qed.

(** The pixel [copyPixel] writes holds the four bytes of the tile's pixel. *)
Lemma copyPixel_same (tile : TilePixels) (cs offX offY ty tx k : Z)
      (canvas : Canvas) :
  (0 <= k < 4)%Z ->
  (0 <= ((offY + ty) * cs + (offX + tx)) * 4)%Z ->
  (((offY + ty) * cs + (offX + tx)) * 4 + 3 < canvasLength canvas)%Z ->
  byteAt (copyPixel tile cs offX offY ty tx canvas)
         (((offY + ty) * cs + (offX + tx)) * 4 + k)
  = readTile tile ((ty * pwidth tile + tx) * 4 + k).
Proof.
  intros Hk Hlo Hhi. unfold copyPixel.
  set (d := (((offY + ty) * cs + (offX + tx)) * 4)%Z) in *.
  set (s := ((ty * pwidth tile + tx) * 4)%Z).
  assert (Hcase : (k = 0 \/ k = 1 \/ k = 2 \/ k = 3)%Z) by lia.
  destruct Hcase as [-> | [-> | [-> | ->]]].
  - rewrite !byteAt_writeByte_other by lia. rewrite !Z.add_0_r.
    apply byteAt_writeByte_same. lia.
  - rewrite !byteAt_writeByte_other by lia.
    apply byteAt_writeByte_same. rewrite canvasLength_writeByte. lia.
  - rewrite !byteAt_writeByte_other by lia.
    apply byteAt_writeByte_same. rewrite !canvasLength_writeByte. lia.
  - apply byteAt_writeByte_same. rewrite !canvasLength_writeByte. lia.
Qed.

(** A pass of steps, one of which establishes [Q] while the others keep
    it, ends with [Q]. *)
Lemma fold_left_reaches {A B : Type} (Inv Q : A -> Prop) (f : A -> B -> A)
      (c : B) (l : list B) (init : A) :
  (forall a b, In b l -> Inv a ->
     Inv (f a b) /\ (b = c -> Q (f a b)) /\ (Q a -> Q (f a b))) ->
  Inv init -> In c l -> Q (fold_left f l init).
Proof.
  intros Hstep Hinv Hin.
  assert (H : forall l init,
             (forall a b, In b l -> Inv a ->
                Inv (f a b) /\ (b = c -> Q (f a b)) /\ (Q a -> Q (f a b))) ->
             Inv init -> (Q init \/ In c l) ->
             Inv (fold_left f l init) /\ Q (fold_left f l init)).
  { clear. induction l as [|b l IH]; intros init Hstep Hinv Hq.
    - cbn. destruct Hq as [Hq|[]]. now split.
    - cbn [fold_left].
      destruct (Hstep init b (or_introl eq_refl) Hinv) as (Hi & Hc & Hk).
      apply IH; [|exact Hi|].
      + intros a b' Hb'. apply Hstep. now right.
      + destruct Hq as [Hq|[->|Hq]];
          [left; now apply Hk | left; now apply Hc | now right]. }
  apply H; auto.
Qed.

(** Copying a tile puts each of its pixels at its place in the canvas. *)
Lemma copyTile_inside (t : TilePixels) (canvas : Canvas)
      (cs offX offY tx ty k : Z) :
  (0 <= k < 4)%Z ->
  (0 <= tx < pwidth t)%Z -> (0 <= ty < pheight t)%Z ->
  (0 <= offX)%Z -> (offX + pwidth t <= cs)%Z -> (0 <= offY)%Z ->
  ((offY + pheight t) * cs * 4 <= canvasLength canvas)%Z ->
  byteAt (copyTileToCanvas (Some t) canvas cs offX offY)
         (((offY + ty) * cs + (offX + tx)) * 4 + k)
  = readTile t ((ty * pwidth t + tx) * 4 + k).
Proof.
  intros Hk Htx Hty Hox Hfit Hoy Hlen.
  unfold copyTileToCanvas.
  rewrite (loops_cells
             (fun canvas tx ty => copyPixel t cs offX offY ty tx canvas)).
  apply (fold_left_reaches
           (fun c => canvasLength c = canvasLength canvas)
           (fun c => byteAt c (((offY + ty) * cs + (offX + tx)) * 4 + k)
                     = readTile t ((ty * pwidth t + tx) * 4 + k))
           _ (tx, ty)).
  - intros a [bx by_] Hb Ha. apply In_cells in Hb. cbn [fst snd].
    split; [now rewrite canvasLength_copyPixel|].
    split.
    + intros Heq. injection Heq as -> ->.
      apply copyPixel_same; [lia | nia | rewrite Ha; nia].
    + intros Hq.
      destruct (Z.eq_dec bx tx) as [->|Hx];
        [destruct (Z.eq_dec by_ ty) as [->|Hy]|].
      * apply copyPixel_same; [lia | nia | rewrite Ha; nia].
      * rewrite copyPixel_other; [exact Hq|].
        intros k' Hk' Heq.
        apply pixel_index_injective in Heq; lia.
      * rewrite copyPixel_other; [exact Hq|].
        intros k' Hk' Heq.
        apply pixel_index_injective in Heq; lia.
  - reflexivity.
  - apply In_cells. lia.
Qed.

Lemma canvasLength_copyTile (tile : option TilePixels) (canvas : Canvas)
      (cs offX offY : Z) :
  canvasLength (copyTileToCanvas tile canvas cs offX offY)
  = canvasLength canvas.
Proof.
  destruct tile as [t|]; [|reflexivity]. unfold copyTileToCanvas.
  apply (fold_left_keeps (fun c => canvasLength c = canvasLength canvas));
    [reflexivity|].
  intros c ty _ Hc.
  apply (fold_left_keeps (fun c => canvasLength c = canvasLength canvas));
    [exact Hc|].
  intros c' tx _ Hc'. now rewrite canvasLength_copyPixel.
Qed.

Section Centre.

Variable sourceTileSize : Z.
Hypothesis size_pos : (0 < sourceTileSize)%Z.

(** The middle slot of the stitched canvas holds the centre tile. *)
Lemma stitch_holds_the_centre (tiles : Neighborhood) (c : TilePixels)
      (tx ty k : Z) :
  center tiles = Some c ->
  pwidth c = sourceTileSize -> pheight c = sourceTileSize ->
  neighborhoodFits sourceTileSize tiles ->
  (0 <= tx < sourceTileSize)%Z -> (0 <= ty < sourceTileSize)%Z ->
  (0 <= k < 4)%Z ->
  byteAt (fst (stitchTiles sourceTileSize tiles))
         (((sourceTileSize + ty) * (sourceTileSize * 3)
           + (sourceTileSize + tx)) * 4 + k)
  = readTile c ((ty * sourceTileSize + tx) * 4 + k).
Proof.
  intros Hc Hw Hh Hfit Htx Hty Hk.
  unfold stitchTiles. cbn [fst].
  assert (Hfits : forall slot' t, In slot' slots ->
            tileAt tiles slot' = Some t ->
            (0 <= pwidth t <= sourceTileSize)%Z /\
            (0 <= pheight t <= sourceTileSize)%Z) by exact Hfit.
  do 4 (rewrite copyTile_outside;
        [ | lia | lia
          | intros t Ht;
            let slot' :=
              lazymatch type of Ht with
              | right _ = _ => constr:((2, 1)%Z)
              | bottomLeft _ = _ => constr:((0, 2)%Z)
              | bottom _ = _ => constr:((1, 2)%Z)
              | bottomRight _ = _ => constr:((2, 2)%Z)
              end in
            destruct (Hfits slot' t) as [? ?];
            [cbn; tauto | exact Ht | lia] ]).
  rewrite Hc.
  replace (readTile c ((ty * sourceTileSize + tx) * 4 + k))
    with (readTile c ((ty * pwidth c + tx) * 4 + k)) by now rewrite Hw.
  apply copyTile_inside; try lia.
  rewrite !canvasLength_copyTile. cbn [newCanvas canvasLength]. nia.
Qed.

(** The source column of an output column of the tile proper. *)
Lemma sample_column (x : Z) :
  (0 <= x < 256)%Z ->
  (0 <= Num.floor ((Num.ofZ x +! (1 # 2))
                   *! (Num.ofZ sourceTileSize /! Num.ofZ TILE_SIZE))
   < sourceTileSize)%Z.
Proof.
  intros Hx. unfold Num.floor, Num.ofZ, TILE_SIZE.
  set (v := (inject_Z x +! (1 # 2)) *! (inject_Z sourceTileSize /! inject_Z 256)).
  assert (Hv : v == (inject_Z x + (1 # 2)) * (inject_Z sourceTileSize / 256)).
  { unfold v. rewrite mul_eq, add_eq, div_eq. reflexivity. }
  assert (Hx0 : inject_Z 0 <= inject_Z x) by (rewrite <- Zle_Qle; lia).
  assert (Hx1 : inject_Z x <= inject_Z 255) by (rewrite <- Zle_Qle; lia).
  assert (Hs : inject_Z 0 < inject_Z sourceTileSize)
    by (rewrite <- Zlt_Qlt; lia).
  change (inject_Z 0) with 0 in Hx0, Hs.
  change (inject_Z 255) with 255 in Hx1.
  assert (Hq : inject_Z sourceTileSize / 256
               == inject_Z sourceTileSize * (1 # 256)) by field.
  destruct (floor_bounds v) as [Hlo Hhi].
  split.
  - rewrite <- (Qfloor_Z 0). apply Qfloor_resp_le. rewrite Hv, Hq.
    change (inject_Z 0) with 0. apply Qmult_le_0_compat; lra.
  - apply inject_Z_lt. apply Qle_lt_trans with v; [exact Hlo|].
    rewrite Hv, Hq.
    apply Qle_lt_trans
      with ((255 + (1 # 2)) * (inject_Z sourceTileSize * (1 # 256)));
      [|lra].
    apply Qmult_le_compat_r; lra.
Qed.

End Centre.

End StitchFacts.

Module FetcherConsistency.
Import ListFacts ArrayFacts StitchFacts.
Import Fetcher FetcherProofs.

Lemma fetched_is_decoded (upstream : Upstream) (z x y : Z) (p : TilePixels) :
  fetchTilePixels upstream z x y = Returns (Some p) ->
  upstream z x y = Decodes p.
Proof.
  unfold fetchTilePixels.
  destruct (_ || _ || _ || _); [discriminate|].
  destruct (upstream z x y); try discriminate. congruence.
Qed.

Lemma Returns_inj {A : Type} (a b : A) : Returns a = Returns b -> a = b.
Proof. congruence. Qed.

Lemma elevationAt_sampleFromStitched (s : Z) (canvas : Canvas)
      (size outputSize b ox oy : Z) :
  (0 <= ox < outputSize)%Z -> (0 <= oy < outputSize)%Z ->
  elevationAt (sampleFromStitched s (canvas, size) outputSize b) ox oy
  = let srcIdx := ((sourceIndex s size b oy * size
                    + sourceIndex s size b ox) * 4)%Z in
    terrariumToElevation (Num.ofZ (byteAt canvas srcIdx))
                         (Num.ofZ (byteAt canvas (srcIdx + 1)))
                         (Num.ofZ (byteAt canvas (srcIdx + 2))).
Proof.
  intros Hox Hoy. unfold elevationAt, sampleFromStitched.
  cbn [grid width]. now rewrite nth_rows.
Qed.

Lemma elevationAt_sampleElevationGrid (s : Z) (tile : TilePixels)
      (outputSize b ox oy : Z) :
  (0 <= ox < outputSize)%Z -> (0 <= oy < outputSize)%Z ->
  elevationAt (sampleElevationGrid s tile outputSize b) ox oy
  = let scale := Num.ofZ s /! Num.ofZ TILE_SIZE in
    let src (limit o : Z) : Z :=
      Z.max 0 (Z.min (limit - 1)
                     (Num.floor ((Num.ofZ (o - b) +! (1 # 2)) *! scale))) in
    let srcIdx := ((src (pheight tile) oy * pwidth tile
                    + src (pwidth tile) ox) * 4)%Z in
    terrariumToElevation (Num.ofZ (readTile tile srcIdx))
                         (Num.ofZ (readTile tile (srcIdx + 1)))
                         (Num.ofZ (readTile tile (srcIdx + 2))).
Proof.
  intros Hox Hoy. unfold elevationAt, sampleElevationGrid.
  cbn [grid width]. now rewrite nth_rows.
Qed.

(** X25. A buffered tile is the unbuffered tile with a margin around it.
    Suppose every decoded tile is at most [sourceTileSize] wide and high
    and the centre tile is exactly [sourceTileSize] square with four bytes
    for each pixel.  Whenever [fetchTile] returns a grid for a buffer
    [b > 0], it also returns one for no buffer, of 256 x 256 values, and
    the value of the buffered grid at [(x + b, y + b)] is the value of
    the unbuffered grid at [(x, y)] for every pixel of the tile: the
    neighbours stitched around the centre never change the tile's own
    elevations. *)
Theorem buffered_grid_contains_the_unbuffered_grid :
  forall (upstream : Upstream) (sourceTileSize : Z) (coord : TileCoord)
         (bufferPx : Z) (g : BufferedGrid),
    (0 < bufferPx)%Z -> (0 < sourceTileSize)%Z ->
    tilesFit upstream sourceTileSize ->
    (forall pixels,
        upstream (z coord) (x coord) (y coord) = Decodes pixels ->
        pwidth pixels = sourceTileSize /\ pheight pixels = sourceTileSize /\
        length (data pixels)
        = Z.to_nat (sourceTileSize * sourceTileSize * 4)) ->
    fetchTile upstream sourceTileSize coord bufferPx = Returns g ->
    exists g0,
      fetchTile upstream sourceTileSize coord 0 = Returns g0 /\
      width g0 = 256%Z /\ height g0 = 256%Z /\
      length (grid g0) = Z.to_nat (256 * 256) /\
      forall ox oy,
        (0 <= ox < 256)%Z -> (0 <= oy < 256)%Z ->
        elevationAt g (ox + bufferPx) (oy + bufferPx) = elevationAt g0 ox oy.
Proof.
  intros upstream s coord b g Hb Hs Hfit Hsize Hg.
  rewrite (fetchTile_buffered upstream s coord b Hb) in Hg.
  destruct (fetch3x3_outcome upstream coord)
    as [(tiles & Htiles & Hc & H1 & H2 & H3 & H4 & H5 & H6 & H7 & H8)
       |((e & He) & _)];
    [|rewrite He in Hg; discriminate Hg].
  rewrite Htiles in Hg. cbn [bind] in Hg.
  destruct (center tiles) as [p|] eqn:Ecenter; [|discriminate Hg].
  apply Returns_inj in Hg. subst g.
  destruct (Hsize p (fetched_is_decoded _ _ _ _ _ Hc)) as (Hw & Hh & _).
  assert (Hnf : neighborhoodFits s tiles).
  { apply (fits_from_upstream upstream s coord tiles Hfit); try assumption.
    now rewrite Ecenter. }
  exists (sampleElevationGrid s p 256 0).
  split.
  { unfold fetchTile. cbn [Z.eqb]. rewrite Hc. reflexivity. }
  split; [reflexivity|]. split; [reflexivity|].
  split.
  { unfold sampleElevationGrid. cbn [grid]. now rewrite length_rows. }
  intros ox oy Hox Hoy.
  pose proof (sample_column s Hs ox Hox) as Hfx.
  pose proof (sample_column s Hs oy Hoy) as Hfy.
  pose proof (fun tx ty k => stitch_holds_the_centre s Hs tiles p tx ty k
                               Ecenter Hw Hh Hnf) as Hcentre.
  assert (Hst : stitchTiles s tiles
                = (fst (stitchTiles s tiles), (s * 3)%Z)) by reflexivity.
  revert Hcentre. rewrite Hst. cbn [fst]. clear Hst.
  generalize (fst (stitchTiles s tiles)). intros canvas Hcentre.
  rewrite elevationAt_sampleFromStitched by (unfold TILE_SIZE; lia).
  rewrite elevationAt_sampleElevationGrid by lia.
  cbv zeta. unfold sourceIndex. unfold TILE_SIZE in *.
  replace (ox + b - b)%Z with ox by lia.
  replace (oy + b - b)%Z with oy by lia.
  rewrite !Z.sub_0_r.
  set (fx := Num.floor ((Num.ofZ ox +! (1 # 2))
                        *! (Num.ofZ s /! Num.ofZ 256))) in *.
  set (fy := Num.floor ((Num.ofZ oy +! (1 # 2))
                        *! (Num.ofZ s /! Num.ofZ 256))) in *.
  rewrite Hw, Hh.
  replace (Z.max 0 (Z.min (s * 3 - 1) (s + fx))) with (s + fx)%Z by lia.
  replace (Z.max 0 (Z.min (s * 3 - 1) (s + fy))) with (s + fy)%Z by lia.
  replace (Z.max 0 (Z.min (s - 1) fx)) with fx by lia.
  replace (Z.max 0 (Z.min (s - 1) fy)) with fy by lia.
  rewrite (Hcentre fx fy 1%Z), (Hcentre fx fy 2%Z) by lia.
  pose proof (Hcentre fx fy 0%Z ltac:(lia) ltac:(lia) ltac:(lia)) as H0.
  rewrite !Z.add_0_r in H0. rewrite H0. reflexivity.
Qed.

Lemma upstreamWorld_fits_2 : tilesFit upstreamWorld 2.
Proof.
  intros z x y pixels. unfold upstreamWorld.
  destruct (_ && _ && _); [|discriminate].
  intros H. injection H as <-. cbn. lia.
Qed.

Lemma buffered_grid_contains_the_unbuffered_grid_witness :
  exists g g0,
    fetchTile upstreamWorld 2 (mkTileCoord 0 0 0) 8 = Returns g /\
    fetchTile upstreamWorld 2 (mkTileCoord 0 0 0) 0 = Returns g0 /\
    length (grid g0) = Z.to_nat (256 * 256) /\
    elevationAt g (255 + 8) (0 + 8) = elevationAt g0 255 0.
Proof.
  assert (Hg : exists g,
             fetchTile upstreamWorld 2 (mkTileCoord 0 0 0) 8 = Returns g).
  { rewrite (fetchTile_buffered upstreamWorld 2 (mkTileCoord 0 0 0) 8)
      by lia.
    cbn [z x y].
    replace (fetch3x3Neighborhood upstreamWorld 0 0 0)
      with (Returns (mkNeighborhood (Some seaLevelTile) None None None None
                                    None None None None))
      by (vm_compute; reflexivity).
    cbn [bind center]. now eexists. }
  destruct Hg as [g Hg]. exists g.
  destruct (buffered_grid_contains_the_unbuffered_grid
              upstreamWorld 2 (mkTileCoord 0 0 0) 8 g
              ltac:(lia) ltac:(lia) upstreamWorld_fits_2) as (g0 & H0 & _ & _ & Hlen & Hsame).
  - intros pixels. cbn. intros H. injection H as <-. cbn. repeat split.
  - exact Hg.
  - exists g0. split; [exact Hg|]. split; [exact H0|]. split; [exact Hlen|].
    apply Hsame; lia.
Defined.

End FetcherConsistency.

Module TileHandlerFacts.
Import Fetcher TileHandler.

Lemma digitValue_digit (d : Z) :
  (0 <= d <= 9)%Z -> digitValue (Z.to_N (48 + d)) = Some d.
Proof.
  intros Hd. unfold digitValue.
  replace ((48 <=? Z.to_N (48 + d))%N && (Z.to_N (48 + d) <=? 57)%N)
    with true
    by (symmetry; apply andb_true_iff; split; apply N.leb_le; lia).
  f_equal. lia.
Qed.

Lemma digitValue_some (c : N) (d : Z) :
  digitValue c = Some d -> (48 <= c <= 57)%N.
Proof.
  unfold digitValue.
  destruct ((48 <=? c)%N && (c <=? 57)%N) eqn:E; [|discriminate].
  intros _. apply andb_true_iff in E as [E1 E2].
  apply N.leb_le in E1, E2. lia.
Qed.

(** Reading a decimal numeral gives its number, whatever follows it. *)
Lemma parseDigits_digitsOf (fuel : nat) :
  forall (n : Z) (rest : list N),
    (0 <= n < 2 ^ Z.of_nat (S fuel))%Z ->
    parseDigits (digitsOf (S fuel) n ++ rest) None
    = parseDigits rest (Some n).
Proof.
  induction fuel as [|fuel IH]; intros n rest Hn.
  - change (2 ^ Z.of_nat 1)%Z with 2%Z in Hn.
    cbn [digitsOf].
    replace (n <? 10)%Z with true by (symmetry; apply Z.ltb_lt; lia).
    cbn [app parseDigits]. rewrite digitValue_digit by lia.
    do 2 f_equal.
  - rewrite Nat2Z.inj_succ, Z.pow_succ_r in Hn by lia.
    change (digitsOf (S (S fuel)) n)
      with (if (n <? 10)%Z then [Z.to_N (48 + n)]
            else digitsOf (S fuel) (n / 10) ++ [Z.to_N (48 + n mod 10)]).
    destruct (Z.ltb_spec n 10) as [Hlt|Hge].
    + cbn [app parseDigits]. rewrite digitValue_digit by lia.
      do 2 f_equal.
    + rewrite <- app_assoc. rewrite IH.
      * cbn [app parseDigits].
        pose proof (Z.mod_pos_bound n 10 ltac:(lia)) as Hm.
        rewrite digitValue_digit by lia.
        do 2 f_equal.
        pose proof (Z.div_mod n 10 ltac:(lia)). lia.
      * split; [apply Z.div_pos; lia|].
        apply Z.div_lt_upper_bound; lia.
Qed.

(** A decimal numeral starts with a digit and holds digits only. *)
Lemma digitsOf_digits (fuel : nat) :
  forall n : Z,
    (0 <= n)%Z ->
    digitsOf (S fuel) n <> [] /\
    Forall (fun c => (48 <= c <= 57)%N) (digitsOf (S fuel) n).
Proof.
  induction fuel as [|fuel IH]; intros n Hn.
  - cbn [digitsOf]. destruct (Z.ltb_spec n 10) as [Hlt|Hge].
    + split; [discriminate|]. constructor; [lia | constructor].
    + cbn [app]. split; [discriminate|].
      pose proof (Z.mod_pos_bound n 10 ltac:(lia)).
      constructor; [lia | constructor].
  - change (digitsOf (S (S fuel)) n)
      with (if (n <? 10)%Z then [Z.to_N (48 + n)]
            else digitsOf (S fuel) (n / 10) ++ [Z.to_N (48 + n mod 10)]).
    destruct (Z.ltb_spec n 10) as [Hlt|Hge].
    + split; [discriminate|]. constructor; [lia | constructor].
    + destruct (IH (n / 10)%Z ltac:(apply Z.div_pos; lia)) as [Hne Hall].
      split.
      * intros H. apply app_eq_nil in H as [H _]. contradiction.
      * apply Forall_app. split; [exact Hall|].
        pose proof (Z.mod_pos_bound n 10 ltac:(lia)).
        constructor; [lia | constructor].
Qed.

Lemma decimal_fuel (n : Z) :
  (0 <= n)%Z -> (0 <= n < 2 ^ Z.of_nat (S (Z.to_nat (Z.log2 n))))%Z.
Proof.
  intros Hn. split; [exact Hn|].
  pose proof (Z.log2_nonneg n) as Hl.
  rewrite Nat2Z.inj_succ, Z2Nat.id by lia.
  destruct (Z.eq_dec n 0) as [->|Hz]; [reflexivity|].
  apply Z.log2_spec. lia.
Qed.

Lemma digit_is_plain (c : N) :
  (48 <= c <= 57)%N ->
  isWhiteSpace c = false /\ (c =? 45)%N = false /\ (c =? 43)%N = false
  /\ (c =? 46)%N = false.
Proof.
  intros Hc. unfold isWhiteSpace.
  repeat match goal with
         | |- context [(c =? ?k)%N] =>
             replace (c =? k)%N with false
               by (symmetry; apply N.eqb_neq; lia)
         end.
  replace (8192 <=? c)%N with false by (symmetry; apply N.leb_gt; lia).
  repeat split.
Qed.

(** [parseInt] reads a decimal numeral and ignores what follows it. *)
Lemma parseInt_decimal (n : Z) (rest : list N) :
  (0 <= n)%Z -> stopsDigits rest ->
  parseInt (decimal n ++ rest) = Some n.
Proof.
  intros Hn Hrest. unfold parseInt, decimal.
  destruct (digitsOf_digits (Z.to_nat (Z.log2 n)) n Hn) as [Hne Hall].
  pose proof (parseDigits_digitsOf (Z.to_nat (Z.log2 n)) n rest
                                   (decimal_fuel n Hn)) as Hparse.
  destruct (digitsOf (S (Z.to_nat (Z.log2 n))) n) as [|c l] eqn:E;
    [contradiction|].
  apply Forall_inv in Hall.
  destruct (digit_is_plain c Hall) as (Hw & Hm & Hp & _).
  cbn [app trimStart]. rewrite Hw. cbv zeta. rewrite Hm, Hp.
  cbn [orb]. change (c :: l ++ rest) with ((c :: l) ++ rest).
  rewrite Hparse.
  replace (parseDigits rest (Some n)) with (Some n).
  - f_equal. lia.
  - destruct rest as [|r rest]; [reflexivity|].
    cbn in Hrest. cbn [parseDigits]. now rewrite Hrest.
Qed.

Lemma isMvt_starts_with_dot (c : N) (s : list N) :
  isMvt (c :: s) = true -> (c =? 46)%N = true.
Proof.
  destruct s as [|m [|v [|t [|u s]]]]; cbn [isMvt]; try discriminate.
  intros H. now destruct (c =? 46)%N.
Qed.

(** Stripping the extension leaves the digits before it alone. *)
Lemma stripMvt_after_digits (l rest : list N) :
  Forall (fun c => (48 <= c <= 57)%N) l ->
  stripMvt (l ++ rest) = l ++ stripMvt rest.
Proof.
  induction 1 as [|c l Hc Hl IH]; [reflexivity|].
  cbn [app].
  change (stripMvt (c :: l ++ rest))
    with (if isMvt (c :: l ++ rest) then [] else c :: stripMvt (l ++ rest)).
  destruct (isMvt (c :: l ++ rest)) eqn:E.
  - apply isMvt_starts_with_dot in E.
    destruct (digit_is_plain c Hc) as (_ & _ & _ & Hd). congruence.
  - now rewrite IH.
Qed.

Lemma stripMvt_stopsDigits (rest : list N) :
  stopsDigits rest -> stopsDigits (stripMvt rest).
Proof.
  destruct rest as [|c rest]; [intros _; exact I|].
  intros H.
  change (stripMvt (c :: rest))
    with (if isMvt (c :: rest) then [] else c :: stripMvt rest).
  destruct (isMvt (c :: rest)); [exact I | exact H].
Qed.

(** In the pyramid, [2^z] as a number is the integer power. *)
Lemma pow2_number (z : Z) : (0 <= z)%Z -> Qpower 2 z == inject_Z (2 ^ z).
Proof. intros Hz. now rewrite (Qpower.Zpower_Qpower 2 z Hz). Qed.

End TileHandlerFacts.

Module TileHandlerProofs.
Import Fetcher TileHandler TileHandlerFacts.

(** X26. The coordinates [parseTileCoords] accepts address a tile of
    the pyramid: the zoom is between 0 and 22 and both [x] and [y] lie in
    [[0, 2^z)].  For such a coordinate the range check of
    [fetchTilePixels] never answers [null] by itself: the request goes
    upstream, and its outcome is the outcome of the fetch and the
    decoder. *)
Theorem accepted_coordinates_address_a_tile :
  forall (zParam xParam yParam : option (list N)) (coord : TileCoord),
    parseTileCoords zParam xParam yParam = Some coord ->
    (0 <= z coord <= 22)%Z /\
    (0 <= x coord < 2 ^ z coord)%Z /\
    (0 <= y coord < 2 ^ z coord)%Z /\
    forall upstream : Upstream,
      fetchTilePixels upstream (z coord) (x coord) (y coord)
      = match upstream (z coord) (x coord) (y coord) with
        | FetchRejects => Throws NetworkError
        | NotOk => Returns None
        | DecoderThrows => Throws DecodeError
        | Decodes pixels => Returns (Some pixels)
        end.
Proof.
  intros zp xp yp coord. unfold parseTileCoords. cbv zeta.
  destruct (parseInt (orEmpty zp)) as [zz|]; [|discriminate].
  destruct (parseInt (orEmpty xp)) as [xx|]; [|discriminate].
  destruct (parseInt (stripMvt (orEmpty yp))) as [yy|]; [|discriminate].
  destruct ((zz <? 0)%Z || (zz >? 22)%Z) eqn:Ez; [discriminate|].
  destruct ((xx <? 0)%Z || (xx >? 2 ^ zz - 1)%Z
            || (yy <? 0)%Z || (yy >? 2 ^ zz - 1)%Z) eqn:Exy; [discriminate|].
  intros H. injection H as <-. cbn [z x y].
  apply orb_false_iff in Ez as [Ez1 Ez2].
  apply orb_false_iff in Exy as [Exy Ey2].
  apply orb_false_iff in Exy as [Exy Ey1].
  apply orb_false_iff in Exy as [Ex1 Ex2].
  apply Z.ltb_ge in Ez1, Ex1, Ey1.
  rewrite Z.gtb_ltb in Ez2, Ex2, Ey2. apply Z.ltb_ge in Ez2, Ex2, Ey2.
  split; [lia|]. split; [lia|]. split; [lia|].
  intros upstream. unfold fetchTilePixels. cbv zeta.
  assert (Hlt : forall a b : Z, (a < b)%Z -> inject_Z a < inject_Z b)
    by (intros a b Hab; now rewrite <- Zlt_Qlt).
  assert (Hle : forall a b : Z, (a <= b)%Z -> inject_Z a <= inject_Z b)
    by (intros a b Hab; now rewrite <- Zle_Qle).
  pose proof (pow2_number zz Ez1) as Hp.
  replace (Num.ofZ xx <! 0) with false
    by (symmetry; apply ltb_ge; apply (Hle 0%Z xx); lia).
  replace (Num.ofZ yy <! 0) with false
    by (symmetry; apply ltb_ge; apply (Hle 0%Z yy); lia).
  replace (Num.ofZ xx >=! Qpower 2 zz) with false
    by (symmetry; apply ClipFacts.geb_lt; rewrite Hp;
        apply Hlt; lia).
  replace (Num.ofZ yy >=! Qpower 2 zz) with false
    by (symmetry; apply ClipFacts.geb_lt; rewrite Hp;
        apply Hlt; lia).
  reflexivity.
Qed.

Lemma accepted_coordinates_address_a_tile_witness :
  (0 <= 10 <= 22)%Z /\ (0 <= 512 < 2 ^ 10)%Z /\ (0 <= 340 < 2 ^ 10)%Z /\
  fetchTilePixels upstreamWithCorruptNeighbour 10 512 340 = Returns None.
Proof.
  destruct (accepted_coordinates_address_a_tile
              (Some (codes "10")) (Some (codes "512"))
              (Some (codes "340.mvt")) (mkTileCoord 10 512 340)
              eq_refl) as (Hz & Hx & Hy & Hfetch).
  split; [exact Hz|]. split; [exact Hx|]. split; [exact Hy|].
  exact (Hfetch upstreamWithCorruptNeighbour).
Defined.

(** X27. Every tile of the pyramid can be requested: for a zoom from 0
    to 22 and [x], [y] in [[0, 2^z)], the three route parameters written
    as decimal numerals, each followed by any text that does not go on
    with a digit (the extension [.mvt] of the last one, in any case, or
    nothing), parse to exactly that coordinate. *)
Theorem decimal_parameters_parse_to_their_tile :
  forall (z x y : Z) (afterZ afterX afterY : list N),
    (0 <= z <= 22)%Z -> (0 <= x < 2 ^ z)%Z -> (0 <= y < 2 ^ z)%Z ->
    stopsDigits afterZ -> stopsDigits afterX -> stopsDigits afterY ->
    parseTileCoords (Some (decimal z ++ afterZ)) (Some (decimal x ++ afterX))
                    (Some (decimal y ++ afterY))
    = Some (mkTileCoord z x y).
Proof.
  intros z x y az ax ay Hz Hx Hy Haz Hax Hay.
  unfold parseTileCoords. cbv zeta. cbn [orEmpty].
  rewrite (parseInt_decimal z az) by (lia || assumption).
  rewrite (parseInt_decimal x ax) by (lia || assumption).
  unfold decimal at 1.
  rewrite stripMvt_after_digits
    by (apply digitsOf_digits; lia).
  fold (decimal y).
  rewrite (parseInt_decimal y (stripMvt ay))
    by (lia || now apply stripMvt_stopsDigits).
  replace ((z <? 0)%Z || (z >? 22)%Z) with false
    by (symmetry; apply orb_false_iff; split;
        [apply Z.ltb_ge; lia | rewrite Z.gtb_ltb; apply Z.ltb_ge; lia]).
  replace ((x <? 0)%Z || (x >? 2 ^ z - 1)%Z
           || (y <? 0)%Z || (y >? 2 ^ z - 1)%Z) with false; [reflexivity|].
  symmetry. rewrite !orb_false_iff, !Z.gtb_ltb, !Z.ltb_ge. lia.
Qed.

Lemma decimal_parameters_parse_to_their_tile_witness :
  parseTileCoords (Some (decimal 10 ++ [])) (Some (decimal 512 ++ []))
                  (Some (decimal 340 ++ codes ".MVT"))
  = Some (mkTileCoord 10 512 340).
Proof.
  apply (decimal_parameters_parse_to_their_tile 10 512 340 [] []
                                                 (codes ".MVT"));
    cbn; (lia || reflexivity || exact I).
Defined.

End TileHandlerProofs.
